(** * Fury: the DAG execution engine of ChainFury (server/fury/base.py)

    A shallow embedding of the schema inference, the nested-path accessors,
    Node invocation, Chain construction (Kahn's topological sort) and the
    sequential executor, together with the properties the design document
    states about them. *)

From Stdlib Require Import Ascii.
From stdpp Require Import gmap strings list fin_maps pretty.

Set Warnings "-register-all".

Open Scope string_scope.
Open Scope list_scope.
Open Scope Z_scope.

(** ** Errors

    The source raises plain [ValueError]s, [AssertionError]s and one custom
    exception; the constructors are named by the error kind, the comment
    gives the Python exception and its message. *)
Inductive exn : Type :=
  | NotDAGError                         (* NotDAGError("A cycle exists in the graph.") *)
  | MissingNode (node_id : string)      (* AssertionError: Missing node from an edge *)
  | MissingIntermediate (key : string)  (* ValueError("Missing value for <key>") *)
  | UnknownInputs (keys : list string)  (* ValueError("Invalid keys passed to node: ...") *)
  | UnsupportedType (tag : string)      (* ValueError("<tag>: Unsupported type: ...") *)
  | IndexError                          (* tuple index out of range *)
  | IntValueError (s : string)          (* ValueError of the builtin int() *)
  | KeyError (k : string)               (* self.nodes[node_id] on a missing id *)
  | AttributeError                      (* out.items() on a result that is no dict *)
  | CallableError (msg : string).       (* whatever the wrapped callable returns or raises *)

Inductive res (A : Type) : Type :=
  | Ret (a : A)
  | Raise (e : exn).
Arguments Ret {A} a.
Arguments Raise {A} e.

Definition bind {A B} (r : res A) (k : A -> res B) : res B :=
  match r with
  | Ret a => k a
  | Raise e => Raise e
  end.

Notation "'try!' x ':=' r 'in' k" := (bind r (fun x => k))
  (at level 10, x pattern, r at level 100, k at level 200).

(** ** Edges *)

Record Edge : Type := mkEdge {
  src_node_id : string;
  trg_node_id : string;
  connections : list (string * string)
}.

(** ** Topological sort *)

(** [adjacency_lists] is a Python dict, iterated later in insertion order, so
    it is an association list whose keys stay in order of first insertion.
    [adj_append adj src dst] is
    [if src not in adj: adj[src] = []; adj[src].append(dst)]. *)
Fixpoint adj_append (adj : list (string * list string)) (src dst : string)
  : list (string * list string) :=
  match adj with
  | [] => [(src, [dst])]
  | (k, ds) :: rest =>
      if decide (k = src) then (k, ds ++ [dst]) :: rest
      else (k, ds) :: adj_append rest src dst
  end.

Definition edge_array_to_adjacency_list (edges : list Edge)
  : list (string * list string) :=
  foldl (fun adj e => adj_append adj (src_node_id e) (trg_node_id e)) [] edges.

(** [adjacency_lists.get(node, [])] *)
Fixpoint adj_get (adj : list (string * list string)) (node : string) : list string :=
  match adj with
  | [] => []
  | (k, ds) :: rest => if decide (k = node) then ds else adj_get rest node
  end.

(** [in_degree] is a [defaultdict(int)]: a read of a missing key gives 0. *)
Definition deg (in_degree : gmap string Z) (node : string) : Z :=
  default 0 (in_degree !! node).

(** [for src, dsts in adjacency_lists.items(): for dst in dsts: in_degree[dst] += 1] *)
Definition count_in_degree (adj : list (string * list string)) : gmap string Z :=
  foldl (fun m '(_, dsts) => foldl (fun m dst => <[dst := deg m dst + 1]> m) m dsts)
        ∅ adj.

(** [for node in adjacency_lists: if in_degree[node] == 0: queue.append(node)] *)
Definition seed_queue (adj : list (string * list string)) (in_degree : gmap string Z)
  : list string :=
  foldl (fun q '(node, _) => if decide (deg in_degree node = 0) then q ++ [node] else q)
        [] adj.

(** The body of [for neighbor in neighbours]: decrement, enqueue on zero. *)
Definition relax (st : gmap string Z * list string) (neighbor : string)
  : gmap string Z * list string :=
  let m := <[neighbor := deg st.1 neighbor - 1]> st.1 in
  (m, if decide (deg m neighbor = 0) then st.2 ++ [neighbor] else st.2).

Record kahn_state : Type := mkKahn {
  queue : list string;
  in_degree : gmap string Z;
  sorted_list : list string;
  edge_nodes_cntr : Z
}.

(** One iteration of [while queue:]. *)
Definition kahn_step (adj : list (string * list string)) (node : string)
    (rest : list string) (st : kahn_state) : kahn_state :=
  let neighbours := adj_get adj node in
  let cntr :=
    match neighbours with
    | [] => edge_nodes_cntr st + 1
    | _ => edge_nodes_cntr st
    end in
  let '(m, q) := foldl relax (in_degree st, rest) neighbours in
  mkKahn q m (sorted_list st ++ [node]) cntr.

(** The [while] loop, bounded by [fuel]; [None] only when the fuel runs out
    with the queue still non-empty. *)
Fixpoint kahn_loop (fuel : nat) (adj : list (string * list string)) (st : kahn_state)
  : option kahn_state :=
  match queue st with
  | [] => Some st
  | node :: rest =>
      match fuel with
      | O => None
      | S fuel' => kahn_loop fuel' adj (kahn_step adj node rest st)
      end
  end.

Definition kahn_init (adj : list (string * list string)) : kahn_state :=
  let m := count_in_degree adj in
  mkKahn (seed_queue adj m) m [] 0.

Definition kahn_check (adj : list (string * list string)) (st : kahn_state)
  : res (list string) :=
  if decide (Z.of_nat (length (sorted_list st))
             = Z.of_nat (length adj) + edge_nodes_cntr st)
  then Ret (sorted_list st)
  else Raise NotDAGError.

Definition topological_sort_fuel (fuel : nat) (edges : list Edge)
  : option (res (list string)) :=
  let adj := edge_array_to_adjacency_list edges in
  kahn_check adj <$> kahn_loop fuel adj (kahn_init adj).

(** Every queued node stands for an endpoint of an edge, and no node is
    queued twice, so twice the number of edges bounds the iterations
    ([topological_sort_total] below). *)
Definition topological_sort (edges : list Edge) : option (res (list string)) :=
  topological_sort_fuel (2 * length edges) edges.


(** ** Values

    Payloads, node inputs and IR entries are arbitrary nested Python data.
    Path segments and dict keys are strings or integers. *)
Inductive key : Type :=
  | KStr (s : string)
  | KInt (i : Z).

Inductive Value : Type :=
  | VNone
  | VBool (b : bool)
  | VNum (z : Z)
  | VStr (s : string)
  | VList (xs : list Value)
  | VTuple (xs : list Value)
  | VDict (kvs : list (key * Value))
  | VOpaque (repr : string).     (* any other object: never a container *)

Global Instance key_eq_dec : EqDecision key.
Proof. solve_decision. Defined.

(** A Python dict keeps insertion order: [d.get(k)] and [d[k] = v]. *)
Fixpoint dict_get (d : list (key * Value)) (k : key) : option Value :=
  match d with
  | [] => None
  | (k', v) :: rest => if decide (k' = k) then Some v else dict_get rest k
  end.

Fixpoint dict_set (d : list (key * Value)) (k : key) (v : Value) : list (key * Value) :=
  match d with
  | [] => [(k, v)]
  | (k', v') :: rest =>
      if decide (k' = k) then (k', v) :: rest else (k', v') :: dict_set rest k v
  end.

(** ** Var *)

Inductive Var : Type :=
  | mkVar (type : VarType) (format : string) (items : list Var)
          (additionalProperties : AddProps) (password required : bool)
          (placeholder : string) (show : bool) (name : string)
          (value : Value) (_loc : list key)
with VarType : Type :=
  | TName (s : string)
  | TUnion (members : list Var)
with AddProps : Type :=
  | APList (vs : list Var)
  | APVar (v : Var).

Definition type (x : Var) : VarType := let 'mkVar t _ _ _ _ _ _ _ _ _ _ := x in t.
Definition format (x : Var) : string := let 'mkVar _ f _ _ _ _ _ _ _ _ _ := x in f.
Definition items (x : Var) : list Var := let 'mkVar _ _ i _ _ _ _ _ _ _ _ := x in i.
Definition additionalProperties (x : Var) : AddProps :=
  let 'mkVar _ _ _ a _ _ _ _ _ _ _ := x in a.
Definition password (x : Var) : bool := let 'mkVar _ _ _ _ p _ _ _ _ _ _ := x in p.
Definition required (x : Var) : bool := let 'mkVar _ _ _ _ _ r _ _ _ _ _ := x in r.
Definition placeholder (x : Var) : string := let 'mkVar _ _ _ _ _ _ p _ _ _ _ := x in p.
Definition show (x : Var) : bool := let 'mkVar _ _ _ _ _ _ _ s _ _ _ := x in s.
Definition name (x : Var) : string := let 'mkVar _ _ _ _ _ _ _ _ n _ _ := x in n.
Definition value (x : Var) : Value := let 'mkVar _ _ _ _ _ _ _ _ _ v _ := x in v.
Definition _loc (x : Var) : list key := let 'mkVar _ _ _ _ _ _ _ _ _ _ l := x in l.

(** [Var(type=t)] with every other argument at its default. *)
Definition Var_ (t : VarType) : Var :=
  mkVar t "" [] (APList []) false false "" false "" VNone [].

Definition with_format (f : string) (x : Var) : Var :=
  let 'mkVar t _ i a p r ph s n v l := x in mkVar t f i a p r ph s n v l.
Definition with_items (i : list Var) (x : Var) : Var :=
  let 'mkVar t f _ a p r ph s n v l := x in mkVar t f i a p r ph s n v l.
Definition with_additionalProperties (a : AddProps) (x : Var) : Var :=
  let 'mkVar t f i _ p r ph s n v l := x in mkVar t f i a p r ph s n v l.
Definition with_password (p : bool) (x : Var) : Var :=
  let 'mkVar t f i a _ r ph s n v l := x in mkVar t f i a p r ph s n v l.
Definition with_required (r : bool) (x : Var) : Var :=
  let 'mkVar t f i a p _ ph s n v l := x in mkVar t f i a p r ph s n v l.
Definition with_placeholder (ph : string) (x : Var) : Var :=
  let 'mkVar t f i a p r _ s n v l := x in mkVar t f i a p r ph s n v l.
Definition with_show (s : bool) (x : Var) : Var :=
  let 'mkVar t f i a p r ph _ n v l := x in mkVar t f i a p r ph s n v l.
Definition with_name (n : string) (x : Var) : Var :=
  let 'mkVar t f i a p r ph s _ v l := x in mkVar t f i a p r ph s n v l.
Definition with_loc (l : list key) (x : Var) : Var :=
  let 'mkVar t f i a p r ph s n v _ := x in mkVar t f i a p r ph s n v l.

(** [Var.set_value] *)
Definition set_value (x : Var) (v : Value) : Var :=
  let 'mkVar t f i a p r ph s n _ l := x in mkVar t f i a p r ph s n v l.

(** ** Native-signature inference *)

(** The classes the function compares an annotation with. *)
Inductive pytype : Type :=
  | Tstr | Tint | Tfloat | Tbool | Tbytes | Tlist | Tdict
  | TSecret | TModel | TException | TNoneType
  | Tclass (qualname : string).          (* any other class *)

Inductive origin : Type :=
  | Olist | Odict | Otuple | OUnion
  | Oother (qualname : string).

(** An annotation, by the test of [pyannotation_to_json_schema] it meets
    first. [typing] stores the null member of a union as the class
    [NoneType], never as the value [None]. *)
Inductive annot : Type :=
  | AClass (t : pytype)                        (* isinstance(x, type) *)
  | AString (s : string)                       (* isinstance(x, str) *)
  | AGeneric (o : origin) (args : list annot)  (* has __origin__ and __args__ *)
  | ATuple (xs : list annot)                   (* isinstance(x, tuple) *)
  | AAny                                       (* typing.Any *)
  | ANone                                      (* the value None *)
  | AOther.                                    (* anything else *)

(** [typing.Optional[T]], that is [Union[T, None]] as [typing] builds it. *)
Definition Optional (T : annot) : annot := AGeneric OUnion [T; AClass TNoneType].
Definition Union (Ts : list annot) : annot := AGeneric OUnion Ts.
Definition Tuple (Ts : list annot) : annot := AGeneric Otuple Ts.

Definition is_not_None (a : annot) : bool :=
  match a with ANone => false | _ => true end.

Definition pyclass_to_json_schema (t : pytype) (allow_exc allow_none : bool) : res Var :=
  match t with
  | Tstr => Ret (Var_ (TName "string"))
  | Tint | Tfloat => Ret (Var_ (TName "number"))
  | Tbool => Ret (Var_ (TName "boolean"))
  | Tbytes => Ret (with_format "byte" (Var_ (TName "string")))
  | Tlist => Ret (with_items [Var_ (TName "string")] (Var_ (TName "array")))
  | Tdict =>
      Ret (with_additionalProperties (APVar (Var_ (TName "string"))) (Var_ (TName "object")))
  | TSecret => Ret (with_password true (Var_ (TName "string")))
  | TModel => Ret (Var_ (TName "model"))
  | TException =>
      if allow_exc then Ret (Var_ (TName "exception")) else Raise (UnsupportedType "i0")
  | TNoneType =>
      if allow_none then Ret (Var_ (TName "null")) else Raise (UnsupportedType "i0")
  | Tclass _ => Raise (UnsupportedType "i0")
  end.

(** [[v] * n] *)
Fixpoint list_times {A} (l : list A) (n : nat) : list A :=
  match n with
  | O => []
  | S n' => l ++ list_times l n'
  end.

(** The two list comprehensions are the local fixpoints [all] (over
    [x.__args__]) and [members] (over [x.__args__], skipping what
    [arg is not None] filters out); [types[0]] of a one-element [types] is the
    single schema [members] then returns. *)
Fixpoint pyannotation_to_json_schema (x : annot) (allow_any allow_exc allow_none : bool)
  {struct x} : res Var :=
  let all :=
    fix all (l : list annot) : res (list Var) :=
      match l with
      | [] => Ret []
      | a :: l' =>
          try! v := pyannotation_to_json_schema a allow_any allow_exc allow_none in
          try! vs := all l' in
          Ret (v :: vs)
      end in
  let members :=
    fix members (l : list annot) : res (list Var) :=
      match l with
      | [] => Ret []
      | a :: l' =>
          if is_not_None a then
            try! v := pyannotation_to_json_schema a allow_any allow_exc allow_none in
            try! vs := members l' in
            Ret (v :: vs)
          else members l'
      end in
  match x with
  | AClass t => pyclass_to_json_schema t allow_exc allow_none
  | AString _ => Ret (Var_ (TName "string"))
  | AGeneric Olist args =>
      match args with
      | a :: _ =>
          try! v := pyannotation_to_json_schema a allow_any allow_exc allow_none in
          Ret (with_items [v] (Var_ (TName "array")))
      | [] => Raise IndexError
      end
  | AGeneric Odict args =>
      match args with
      | [AClass Tstr; a] =>
          try! v := pyannotation_to_json_schema a allow_any allow_exc allow_none in
          Ret (with_additionalProperties (APVar v) (Var_ (TName "object")))
      | _ => Raise (UnsupportedType "i2")
      end
  | AGeneric Otuple args =>
      try! vs := all args in
      Ret (with_items vs (Var_ (TName "array")))
  | AGeneric OUnion args =>
      try! vs := members args in
      match vs with
      | [v] => Ret v
      | _ => Ret (Var_ (TUnion vs))
      end
  | AGeneric (Oother _) _ => Raise (UnsupportedType "i3")
  | ATuple xs =>
      match xs with
      | _ :: x1 :: _ =>
          try! v := pyannotation_to_json_schema x1 allow_any allow_exc allow_none in
          Ret (with_items (list_times [Var_ (TName "string"); v] (length xs))
                          (Var_ (TName "array")))
      | _ => Raise IndexError
      end
  | AAny => if allow_any then Ret (Var_ (TName "string")) else Raise (UnsupportedType "i4")
  | ANone | AOther => Raise (UnsupportedType "i4")
  end.

(** A parameter of [inspect.signature(func)]: [default] is [None] for
    [inspect.Parameter.empty], otherwise [str(param.default)]. *)
Record PyParameter : Type := mkPyParameter {
  param_name : string;
  annotation : annot;
  default_str : option string
}.

Definition startswith_underscore (s : string) : bool :=
  match s with
  | String c _ => bool_decide (c = "_"%char)
  | EmptyString => false
  end.

Definition param_to_var (param : PyParameter) : res Var :=
  try! schema := pyannotation_to_json_schema (annotation param) false false false in
  let schema := with_required (bool_decide (default_str param = None)) schema in
  let schema := with_name (param_name param) schema in
  let schema := with_placeholder (default "" (default_str param)) schema in
  Ret (if startswith_underscore (name schema) then schema else with_show true schema).

Fixpoint func_to_vars (signature : list PyParameter) : res (list Var) :=
  match signature with
  | [] => Ret []
  | param :: rest =>
      try! schema := param_to_var param in
      try! fields := func_to_vars rest in
      Ret (schema :: fields)
  end.


(** ** Nested-path accessors, Node and Chain

    Two Python builtins are outside the repository and are taken as
    parameters: [int()] on a string ([None] when it raises [ValueError]) and
    [traceback.format_exc()]. *)
Section Runtime.

Variable int_of_str : string -> option Z.
Variable format_exc : exn -> string.

(** [int(key)] *)
Definition py_int (k : key) : res Z :=
  match k with
  | KInt i => Ret i
  | KStr s =>
      match int_of_str s with
      | Some i => Ret i
      | None => Raise (IntValueError s)
      end
  end.

(** [keys] is the path tuple, so the line wrapping a bare key into a tuple
    does nothing here. *)
Fixpoint get_value_by_keys (obj : Value) (keys : list key) : res Value :=
  match keys with
  | [] => Ret obj
  | key :: rest =>
      match obj with
      | VDict d => get_value_by_keys (default VNone (dict_get d key)) rest
      | VList xs | VTuple xs =>
          try! i := py_int key in
          if decide (0 <= i < Z.of_nat (length xs))
          then get_value_by_keys (default VNone (xs !! Z.to_nat i)) rest
          else Ret VNone
      | _ => Ret VNone
      end
  end.

(** [isinstance(v, (dict, list))] *)
Definition is_container (v : Value) : bool :=
  match v with
  | VDict _ | VList _ => true
  | _ => false
  end.

(** [{} if isinstance(keys[1], str) else []] *)
Definition fresh_container (next : key) : Value :=
  match next with
  | KStr _ => VDict []
  | KInt _ => VList []
  end.

(** The source mutates [obj] in place and returns nothing; the function
    returns [obj] as it is after the call. *)
Fixpoint put_value_by_keys (obj : Value) (keys : list key) (v : Value) : Value :=
  match keys with
  | [] => obj
  | [key] =>
      match obj, key with
      | VDict d, _ => VDict (dict_set d key v)
      | VList xs, KInt i =>
          if decide (0 <= i < Z.of_nat (length xs))
          then VList (<[Z.to_nat i := v]> xs)
          else obj
      | _, _ => obj
      end
  | key :: (next :: _) as rest =>
      match obj, key with
      | VDict d, _ =>
          let child :=
            match dict_get d key with
            | Some c => if is_container c then c else fresh_container next
            | None => fresh_container next
            end in
          VDict (dict_set d key (put_value_by_keys child rest v))
      | VList xs, KInt i =>
          if decide (0 <= i < Z.of_nat (length xs))
          then
            let c := default VNone (xs !! Z.to_nat i) in
            let child := if is_container c then c else fresh_container next in
            VList (<[Z.to_nat i := put_value_by_keys child rest v]> xs)
          else obj
      | _, _ => obj
      end
  end.

(** *** Node *)

Record Node : Type := mkNode {
  node_id : string;                                    (* id *)
  node_type : string;                                  (* type *)
  fn : gmap string Value -> Value * option exn;        (* called with the inputs as keyword arguments *)
  fields : list Var;
  outputs : list Var;
  description : string
}.

Definition with_outputs (os : list Var) (n : Node) : Node :=
  mkNode (node_id n) (node_type n) (fn n) (fields n) os (description n).

Definition has_field (n : Node) (field : string) : bool :=
  existsb (fun x => bool_decide (name x = field)) (fields n).

Definition template_keys (n : Node) : gset string :=
  list_to_set (name <$> fields n).

(** [for o in self.outputs: o.set_value(get_value_by_keys(out, o._loc))]:
    the Vars as they are when the loop ends, and the exception that ended it
    early, if any. *)
Fixpoint project_outputs (out : Value) (os : list Var) : list Var * option exn :=
  match os with
  | [] => ([], None)
  | o :: rest =>
      match get_value_by_keys out (_loc o) with
      | Raise e => (o :: rest, Some e)
      | Ret v =>
          let '(rest', err) := project_outputs out rest in
          (set_value o v :: rest', err)
      end
  end.

(** [{o.name: o.value for o in self.outputs}] *)
Definition outputs_dict (os : list Var) : Value :=
  VDict (foldl (fun d o => dict_set d (KStr (name o)) (value o)) [] os).

(** [Node.__call__]: the returned pair and the node with its output Vars as
    the call leaves them. Every exception is caught and returned with the
    formatted traceback. *)
Definition Node_call (self : Node) (data : gmap string Value) (ret_fields : bool)
  : (Value * option exn) * Node :=
  let data_keys := dom data in
  if decide (data_keys ⊆ template_keys self) then
    let '(out, err) := fn self data in
    match err with
    | Some e => ((VStr (format_exc e), Some e), self)
    | None =>
        let '(os, perr) := project_outputs out (outputs self) in
        let self' := with_outputs os self in
        match perr with
        | Some e => ((VStr (format_exc e), Some e), self')
        | None => ((outputs_dict os, None), self')
        end
    end
  else
    let e := UnknownInputs (elements (data_keys ∖ template_keys self)) in
    ((VStr (format_exc e), Some e), self).

(** *** Chain *)

Record Chain : Type := mkChain {
  nodes : gmap string Node;
  edges : list Edge;
  topo_order : list string
}.

(** [Chain.__init__]; [None] only if the sort ran out of fuel. *)
Definition Chain_init (node_list : list Node) (edge_list : list Edge)
  : option (res Chain) :=
  let node_map : gmap string Node :=
    foldl (fun m node => <[node_id node := node]> m) ∅ node_list in
  order ← topological_sort edge_list;
  Some (try! topo := order in
        match List.find (fun n => bool_decide (node_map !! n = None)) topo with
        | Some missing => Raise (MissingNode missing)
        | None => Ret (mkChain node_map edge_list topo)
        end).

(** What one run of [Chain.__call__] holds: the nodes (whose output Vars
    the calls write), the caller's [data], [full_ir], [out], and the log of
    the node invocations made so far. *)
Record run_state : Type := mkRun {
  run_nodes : gmap string Node;
  run_data : gmap string Value;
  full_ir : gmap string Value;
  out : Value;
  calls : list (string * gmap string Value)
}.

(** [f"{edge.src_node_id}/{conns[0]}"] *)
Definition ir_key (nid output : string) : string := nid +:+ "/" +:+ output.

(** The loop over [edge.connections] of one incoming edge. *)
Fixpoint gather_connections (ir : gmap string Value) (src : string)
    (conns : list (string * string)) (_data : gmap string Value)
  : res (gmap string Value) :=
  match conns with
  | [] => Ret _data
  | c :: rest =>
      let req_key := ir_key src c.1 in
      match default VNone (ir !! req_key) with
      | VNone => Raise (MissingIntermediate req_key)
      | ir_value => gather_connections ir src rest (<[c.2 := ir_value]> _data)
      end
  end.

(** The loop over [incoming_edges]. *)
Fixpoint gather_edges (ir : gmap string Value) (incoming : list Edge)
    (_data : gmap string Value) : res (gmap string Value) :=
  match incoming with
  | [] => Ret _data
  | edge :: rest =>
      try! d := gather_connections ir (src_node_id edge) (connections edge) _data in
      gather_edges ir rest d
  end.

(** [for k in all_keys: if node.has_field(k): _data[k] = data[k]] *)
Definition copy_shared (node : Node) (data _data : gmap string Value)
  : gmap string Value :=
  foldl (fun d k => if has_field node k
                    then match data !! k with Some v => <[k := v]> d | None => d end
                    else d)
        _data (map_to_list data).*1.

(** [f"{node_id}/{k}"] for a key of the node's result. *)
Definition key_str (k : key) : string :=
  match k with
  | KStr s => s
  | KInt i => pretty i
  end.

(** [for k, v in out.items(): full_ir[f"{node_id}/{k}"] = v] *)
Definition write_ir (nid : string) (items : list (key * Value)) (ir : gmap string Value)
  : gmap string Value :=
  foldl (fun m '(k, v) => <[ir_key nid (key_str k) := v]> m) ir items.

(** The body of [for node_id in self.topo_order]: the state it leaves and
    the exception it raised, if any. *)
Definition Chain_step (self : Chain) (nid : string) (st : run_state)
  : run_state * option exn :=
  match run_nodes st !! nid with
  | None => (st, Some (KeyError nid))
  | Some node =>
      let incoming_edges :=
        List.filter (fun edge => bool_decide (trg_node_id edge = nid)) (edges self) in
      match gather_edges (full_ir st) incoming_edges ∅ with
      | Raise e => (st, Some e)
      | Ret _data =>
          let _data := copy_shared node (run_data st) _data in
          let '((o, err), node') := Node_call node _data true in
          let st' := mkRun (<[nid := node']> (run_nodes st)) (run_data st)
                           (full_ir st) o (calls st ++ [(nid, _data)]) in
          match err with
          | Some e => (st', Some e)
          | None =>
              match o with
              | VDict kvs =>
                  (mkRun (run_nodes st') (run_data st') (write_ir nid kvs (full_ir st'))
                         o (calls st'), None)
              | _ => (st', Some AttributeError)
              end
          end
      end
  end.

Fixpoint Chain_run (self : Chain) (order : list string) (st : run_state)
  : run_state * option exn :=
  match order with
  | [] => (st, None)
  | nid :: rest =>
      match Chain_step self nid st with
      | (st', Some e) => (st', Some e)
      | (st', None) => Chain_run self rest st'
      end
  end.

(** [Chain.__call__]: on success the source returns [(out, full_ir)], both in
    the final state. *)
Definition Chain_call (self : Chain) (data : gmap string Value)
  : run_state * option exn :=
  Chain_run self (topo_order self) (mkRun (nodes self) data ∅ VNone []).

End Runtime.

(** ** Graphs of edges: what the sort is judged against *)

(** The directed graph under an edge list: one (source, target) pair per
    Edge, repeats kept. *)
Definition edge_pairs (edges : list Edge) : list (string * string) :=
  (fun e => (src_node_id e, trg_node_id e)) <$> edges.

(** A walk of one or more edges. *)
Inductive path (E : list (string * string)) : string -> string -> Prop :=
  | path_edge u v : (u, v) ∈ E -> path E u v
  | path_cons u v w : (u, v) ∈ E -> path E v w -> path E u w.

(** The graph contains a cycle: some node reaches itself (a self-loop is a
    cycle). *)
Definition has_cycle (edges : list Edge) : Prop :=
  exists u, path (edge_pairs edges) u u.

(** [u] appears strictly before [v] in [l]. *)
Definition precedes (u v : string) (l : list string) : Prop :=
  exists i j, (i < j)%nat /\ l !! i = Some u /\ l !! j = Some v.

(** A list of nodes whose consecutive elements are joined by an edge. *)
Inductive chain (E : list (string * string)) : list string -> Prop :=
  | chain_one x : chain E [x]
  | chain_cons x y l : (x, y) ∈ E -> chain E (y :: l) -> chain E (x :: y :: l).

(** The number of edges into [v] whose source is not yet emitted. *)
Fixpoint pending (E : list (string * string)) (emitted : list string) (v : string) : nat :=
  match E with
  | [] => O
  | (s, d) :: E' =>
      ((if decide (d = v /\ s ∉ emitted) then 1 else 0) + pending E' emitted v)%nat
  end.

(** The number of edges from [u] to [v]. *)
Fixpoint mult (E : list (string * string)) (u v : string) : nat :=
  match E with
  | [] => O
  | (s, d) :: E' => ((if decide (s = u /\ d = v) then 1 else 0) + mult E' u v)%nat
  end.

(** The number of occurrences of [v] in a neighbour list. *)
Fixpoint occ (v : string) (ds : list string) : nat :=
  match ds with
  | [] => O
  | d :: ds' => ((if decide (d = v) then 1 else 0) + occ v ds')%nat
  end.

(** The adjacency list of a list of (source, target) pairs. *)
Definition adj_of (E : list (string * string)) : list (string * list string) :=
  foldl (fun adj '(s, d) => adj_append adj s d) [] E.

(** The in-degrees an adjacency list gives. *)
Fixpoint indeg_adj (adj : list (string * list string)) (v : string) : nat :=
  match adj with
  | [] => O
  | (_, ds) :: rest => (occ v ds + indeg_adj rest v)%nat
  end.

(** The loop invariant of Kahn's algorithm over the edges [E]: [in_degree]
    counts the in-edges from nodes not yet emitted, queued nodes have none
    left, each emitted node had none left when it was emitted, every node
    with none left is emitted or queued, and [edge_nodes_cntr] counts the
    emitted nodes that are no source. *)
Record kahn_inv (E : list (string * string)) (st : kahn_state) : Prop := mkInv {
  inv_nodup : NoDup (sorted_list st ++ queue st);
  inv_deg : forall v, deg (in_degree st) v = Z.of_nat (pending E (sorted_list st) v);
  inv_queue : forall v, v ∈ queue st -> pending E (sorted_list st) v = O;
  inv_sorted : forall i v,
    sorted_list st !! i = Some v -> pending E (take i (sorted_list st)) v = O;
  inv_ready : forall v,
    v ∈ E.*1 \/ v ∈ E.*2 -> pending E (sorted_list st) v = O ->
    v ∈ sorted_list st ++ queue st;
  inv_nodes : forall v, v ∈ sorted_list st ++ queue st -> v ∈ E.*1 \/ v ∈ E.*2;
  inv_cntr :
    edge_nodes_cntr st
    = Z.of_nat (length (List.filter (fun x => bool_decide (x ∉ E.*1)) (sorted_list st)))
}.


(** ** Writable paths *)

(** The child [put_value_by_keys] descends into at a non-terminal segment:
    the existing container, or the fresh one it stores there. *)
Definition put_child (existing : option Value) (next : key) : Value :=
  match existing with
  | Some c => if is_container c then c else fresh_container next
  | None => fresh_container next
  end.

(** A path with a writable leaf: walking [keys] the way [put_value_by_keys]
    does (its intermediate containers created), every segment but the last
    finds a dict, or a list with the integer segment in bounds, and the last
    segment is any key of a dict or an in-bounds integer index of a list. *)
Fixpoint writable (obj : Value) (keys : list key) : bool :=
  match keys with
  | [] => false
  | [key] =>
      match obj, key with
      | VDict _, _ => true
      | VList xs, KInt i => bool_decide (0 <= i < Z.of_nat (length xs))
      | _, _ => false
      end
  | key :: (next :: _) as rest =>
      match obj, key with
      | VDict d, _ => writable (put_child (dict_get d key) next) rest
      | VList xs, KInt i =>
          bool_decide (0 <= i < Z.of_nat (length xs))
          && writable (put_child (xs !! Z.to_nat i) next) rest
      | _, _ => false
      end
  end.


(** ** Views of a run *)

(** [o'] is [o] after [o.set_value(get_value_by_keys(payload, o._loc))]. *)
Definition projected (int_of_str : string -> option Z) (payload : Value) (o o' : Var)
  : Prop :=
  get_value_by_keys int_of_str payload (_loc o) = Ret (value o')
  /\ o' = set_value o (value o').

(** The connections into [nid], in the order the executor reads them:
    (source node, source output, target field). *)
Definition incoming_connections (self : Chain) (nid : string)
  : list (string * string * string) :=
  edge ← List.filter (fun edge => bool_decide (trg_node_id edge = nid)) (edges self);
  (fun c => (src_node_id edge, c.1, c.2)) <$> connections edge.

(** The IR holds a usable (present, non-null) value under [key]. *)
Definition ir_available (ir : gmap string Value) (key : string) : Prop :=
  exists v, ir !! key = Some v /\ v <> VNone.

(** [n] is the source or the target of some edge. *)
Definition is_endpoint (n : string) (edge_list : list Edge) : Prop :=
  exists e, e ∈ edge_list /\ (src_node_id e = n \/ trg_node_id e = n).


(** [gather_edges] over the flattened connections. *)
Fixpoint gather_flat (ir : gmap string Value) (conns : list (string * string * string))
    (_data : gmap string Value) : res (gmap string Value) :=
  match conns with
  | [] => Ret _data
  | (src, o, f) :: rest =>
      match default VNone (ir !! ir_key src o) with
      | VNone => Raise (MissingIntermediate (ir_key src o))
      | ir_value => gather_flat ir rest (<[f := ir_value]> _data)
      end
  end.

(** [Edge(src, trg)] with no connections. *)
Definition E_ (s t : string) : Edge := mkEdge s t [].

(** ** Sample nodes and chains

    The two-stage programmatic chain of the design document and small
    variations of it, used to exercise the statements below. *)

Definition no_int : string -> option Z := fun _ => None.
Definition plain_trace : exn -> string := fun _ => "Traceback (most recent call last)".

Definition field_ (n : string) : Var := with_name n (Var_ (TName "string")).
Definition output_ (n : string) (loc : list key) : Var :=
  with_loc loc (with_name n (Var_ (TName "string"))).

(** Returns [({"text": "alpha-beta"}, None)]. *)
Definition P1 : Node :=
  mkNode "P1" "programatic"
    (fun _ => (VDict [(KStr "text", VStr "alpha-beta")], None))
    [field_ "url"] [output_ "text" [KStr "text"]] "".

(** Hands its [text] input back as [{"text": text}]. *)
Definition P2 : Node :=
  mkNode "P2" "programatic"
    (fun data => (VDict [(KStr "text", default VNone (data !! "text"))], None))
    [field_ "text"; field_ "pattern"; field_ "repl"]
    [output_ "text" [KStr "text"]] "".

Definition P1_P2 : Edge := mkEdge "P1" "P2" [("text", "text")].

Definition two_stage : Chain :=
  mkChain (foldl (fun m node => <[node_id node := node]> m) ∅ [P1; P2])
          [P1_P2] ["P1"; "P2"].

(** A raw chat-completion response with an empty first choice. *)
Definition raw_response : Value := VDict [(KStr "choices", VList [VDict []])].
Definition content_path : list key :=
  [KStr "choices"; KInt 0; KStr "message"; KStr "content"].

(** [Ghost] answers with an empty payload, so its output [y] projects to
    null; [N] expects it on field [x]. *)
Definition Ghost : Node :=
  mkNode "Ghost" "programatic" (fun _ => (VDict [], None))
    [] [output_ "y" [KStr "y"]] "".

Definition N : Node :=
  mkNode "N" "programatic" (fun _ => (VDict [], None))
    [field_ "x"] [] "".

Definition Ghost_N : Edge := mkEdge "Ghost" "N" [("y", "x")].

Definition ghost_chain : Chain :=
  mkChain (foldl (fun m node => <[node_id node := node]> m) ∅ [Ghost; N])
          [Ghost_N] ["Ghost"; "N"].

(** The run of [ghost_chain] once [Ghost] has been executed. *)
Definition after_Ghost : run_state :=
  (Chain_run no_int plain_trace ghost_chain ["Ghost"]
     (mkRun (nodes ghost_chain) ∅ ∅ VNone [])).1.

(** Initial inputs that name [text], a field of [P2] which the edge from
    [P1] feeds as well. *)
Definition shared_inputs : gmap string Value :=
  list_to_map [("url", VStr "x"); ("text", VStr "override"); ("pattern", VStr "alpha")].

Definition shared_final : run_state :=
  (Chain_call no_int plain_trace two_stage shared_inputs).1.

Definition P2_inputs : gmap string Value :=
  list_to_map [("text", VStr "override"); ("pattern", VStr "alpha")].

(** Three nodes whose ids overlap: [A] is on no edge, [A/B] feeds [C]. *)
Definition node_A : Node :=
  mkNode "A" "programatic" (fun _ => (VDict [], None)) [] [] "".

Definition node_AB : Node :=
  mkNode "A/B" "programatic" (fun _ => (VDict [(KStr "x", VStr "v")], None))
    [] [output_ "x" [KStr "x"]] "".

Definition node_C : Node :=
  mkNode "C" "programatic" (fun _ => (VDict [], None)) [field_ "y"] [] "".

Definition AB_C : Edge := mkEdge "A/B" "C" [("x", "y")].

Definition overlap_chain : Chain :=
  mkChain (foldl (fun m node => <[node_id node := node]> m) ∅ [node_A; node_AB; node_C])
          [AB_C] ["A/B"; "C"].

(** Returns a payload with more in it than the one declared output. *)
Definition Fetch : Node :=
  mkNode "Fetch" "programatic"
    (fun _ => (VDict [(KStr "text", VStr "alpha-beta"); (KStr "status", VNum 200)], None))
    [field_ "url"] [output_ "text" [KStr "text"]] "".

Definition Fetch_payload : Value :=
  VDict [(KStr "text", VStr "alpha-beta"); (KStr "status", VNum 200)].

Definition Fetch_inputs : gmap string Value := {[ "url" := VStr "x" ]}.

(** [Fetch]'s output Var once a call has projected the payload onto it. *)
Definition Fetch_text_bound : Var :=
  set_value (output_ "text" [KStr "text"]) (VStr "alpha-beta").

(** ** More on dicts *)

(** [list(d.keys())] *)
Definition dict_keys (d : list (key * Value)) : list key := d.*1.

(** ** Adjacency lists back to edges *)

(** [adjacency_list_to_edge_map]: one Edge without connections per
    neighbour, sources in the order of the dict. *)
Definition adjacency_list_to_edge_map (adjacency_list : list (string * list string))
  : list Edge :=
  '(src, dsts) ← adjacency_list; (fun dst => mkEdge src dst []) <$> dsts.

(** The (source, target) pairs an adjacency list stands for. *)
Definition adj_pairs (adj : list (string * list string)) : list (string * string) :=
  '(src, dsts) ← adj; (fun dst => (src, dst)) <$> dsts.

(** An edge list taken to its adjacency list and back. *)
Definition regrouped (edges : list Edge) : list Edge :=
  adjacency_list_to_edge_map (edge_array_to_adjacency_list edges).

Definition sample_adjacency : list (string * list string) :=
  [("a", ["b"; "c"; "b"]); ("b", ["c"])].

(** A second node with the id of [P1]. *)
Definition P1_again : Node :=
  mkNode "P1" "programatic"
    (fun _ => (VDict [(KStr "text", VStr "gamma")], None))
    [field_ "url"] [output_ "text" [KStr "text"]] "replacement".

Definition two_stage_again : Chain :=
  mkChain (foldl (fun m node => <[node_id node := node]> m) ∅ [P1; P1_again; P2])
          [P1_P2] ["P1"; "P2"].

(** ** Views of a run, continued *)

(** The last of the incoming connections that feeds [field]. *)
Definition last_connection_to (self : Chain) (nid field : string)
  : option (string * string * string) :=
  last (filter (fun c => c.2 = field) (incoming_connections self nid)).

(** The two-stage chain run on a url alone: the state after [P1], and the
    inputs [P2] is then called with. *)
Definition url_only : gmap string Value := {[ "url" := VStr "x" ]}.

Definition after_P1 : run_state :=
  (Chain_run no_int plain_trace two_stage ["P1"]
     (mkRun (nodes two_stage) url_only ∅ VNone [])).1.

Definition after_P2 : run_state :=
  (Chain_step no_int plain_trace two_stage "P2" after_P1).1.

Definition P2_routed : gmap string Value := {[ "text" := VStr "alpha-beta" ]}.

(** ** Schemas of annotations *)

(** A list comprehension over a conversion that may raise: the results in
    order, or the first exception. *)
Fixpoint mapM_res {A B} (f : A -> res B) (l : list A) : res (list B) :=
  match l with
  | [] => Ret []
  | a :: l' =>
      try! v := f a in
      try! vs := mapM_res f l' in
      Ret (v :: vs)
  end.

(** A Var that carries a shape only: no name, not required, not shown, no
    placeholder, no value, no location. *)
Definition shape_only (v : Var) : Prop :=
  name v = "" /\ required v = false /\ placeholder v = "" /\ show v = false
  /\ value v = VNone /\ _loc v = [].

(** The field [func_to_vars] makes of a parameter whose annotation has the
    schema [schema]. *)
Definition field_of (param : PyParameter) (schema : Var) : Var :=
  mkVar (type schema) (format schema) (items schema) (additionalProperties schema)
        (password schema)
        (bool_decide (default_str param = None))
        (default "" (default_str param))
        (negb (startswith_underscore (param_name param)))
        (param_name param) VNone [].

(** [def f(x: str, _hidden: int = 3)] *)
Definition sample_signature : list PyParameter :=
  [mkPyParameter "x" (AClass Tstr) None; mkPyParameter "_hidden" (AClass Tint) (Some "3")].

(** [def g(x: str, y: Optional[str], z: object)] *)
Definition refused_signature : list PyParameter :=
  [mkPyParameter "x" (AClass Tstr) None;
   mkPyParameter "y" (Optional (AClass Tstr)) None;
   mkPyParameter "z" (AClass (Tclass "object")) None].

(** ** Serialisation *)

(** What [to_dict] puts into its dict: strings, booleans, lists, dicts, and
    (for a list-valued [additionalProperties], stored as it is) Var objects. *)
Inductive dval : Type :=
  | DStr (s : string)
  | DBool (b : bool)
  | DList (l : list dval)
  | DDict (d : list (string * dval))
  | DVars (vs : list Var)
  | DPairs (cs : list (string * string)).

(** [Var.to_dict]: the dict as the list of its items, in insertion order. An
    attribute is emitted when it is truthy: a non-empty string or list, the
    boolean true, any Var. *)
Fixpoint Var_to_dict (x : Var) : list (string * dval) :=
  let dicts :=
    fix dicts (l : list Var) : list dval :=
      match l with
      | [] => []
      | y :: l' => DDict (Var_to_dict y) :: dicts l'
      end in
  match x with
  | mkVar t f i a p r ph s n _ _ =>
      [("type", match t with
                | TName s => DStr s
                | TUnion ms => DList (dicts ms)
                end)]
      ++ (if decide (f = "") then [] else [("format", DStr f)])
      ++ match i with
         | [] => []
         | _ => [("items", DList (dicts i))]
         end
      ++ match a with
         | APVar v => [("additionalProperties", DDict (Var_to_dict v))]
         | APList [] => []
         | APList vs => [("additionalProperties", DVars vs)]
         end
      ++ (if p then [("password", DBool true)] else [])
      ++ (if r then [("required", DBool true)] else [])
      ++ (if decide (ph = "") then [] else [("placeholder", DStr ph)])
      ++ (if s then [("show", DBool true)] else [])
      ++ (if decide (n = "") then [] else [("name", DStr n)])
  end.

(** [Node.to_dict] *)
Definition Node_to_dict (self : Node) : list (string * dval) :=
  [("id", DStr (node_id self));
   ("type", DStr (node_type self));
   ("description", DStr (description self));
   ("fields", DList ((fun x => DDict (Var_to_dict x)) <$> fields self));
   ("outputs", DList ((fun x => DDict (Var_to_dict x)) <$> outputs self))].

(** ** Jinja templates *)

(** A schema of [jinja2schema.model], by its class; [JOther] is any class the
    conversion does not name. *)
Inductive jschema : Type :=
  | JScalar
  | JString
  | JNumber
  | JBoolean
  | JUnknown
  | JVariable
  | JDictionary (data : list (string * jschema))
  | JList (item : jschema)
  | JTuple (items : option (list jschema))
  | JOther (cls : string).

(** [Var(type=t, required=True)] *)
Definition required_Var (t : string) : Var := with_required true (Var_ (TName t)).

(** The [ValueError] of the last branch, "cannot handle type <class>", is
    [UnsupportedType] with that tag. *)
Fixpoint jinja_schema_to_vars (v : jschema) : res Var :=
  match v with
  | JScalar | JString => Ret (required_Var "string")
  | JNumber => Ret (required_Var "number")
  | JBoolean => Ret (required_Var "boolean")
  | JUnknown => Ret (required_Var "string")
  | JVariable => Ret (required_Var "string")
  | JDictionary data =>
      let all_fields :=
        fix all_fields (l : list (string * jschema)) : res (list Var) :=
          match l with
          | [] => Ret []
          | (k, v) :: l' =>
              try! field_item := jinja_schema_to_vars v in
              try! rest := all_fields l' in
              Ret (with_name k field_item :: rest)
          end in
      try! all_fields := all_fields data in
      Ret (with_additionalProperties (APList all_fields) (required_Var "object"))
  | JList item =>
      try! x := jinja_schema_to_vars item in
      Ret (with_items [x] (required_Var "array"))
  | JTuple None | JTuple (Some []) => Ret (required_Var "array")
  | JTuple (Some items) =>
      let all :=
        fix all (l : list jschema) : res (list Var) :=
          match l with
          | [] => Ret []
          | x :: l' =>
              try! v := jinja_schema_to_vars x in
              try! vs := all l' in
              Ret (v :: vs)
          end in
      try! items := all items in
      Ret (with_items items (required_Var "array"))
  | JOther _ => Raise (UnsupportedType "cannot handle type")
  end.

(** The schema classes the conversion handles, at every depth it visits. *)
Fixpoint handled (v : jschema) : bool :=
  match v with
  | JDictionary data => forallb (fun kv => handled kv.2) data
  | JList item => handled item
  | JTuple (Some items) => forallb handled items
  | JOther _ => false
  | _ => true
  end.

(** An index as [extract_jinja_indices] builds it: a bare key, or a tuple of
    keys; the default [()] is [ITuple []]. *)
Inductive jindex : Type :=
  | IKey (k : key)
  | ITuple (ks : list key).

(** Truth value of a key: a non-empty string, a non-zero integer. *)
Definition key_truthy (k : key) : bool :=
  match k with
  | KStr s => negb (bool_decide (s = ""))
  | KInt i => negb (bool_decide (i = 0))
  end.

Definition index_truthy (i : jindex) : bool :=
  match i with
  | IKey k => key_truthy k
  | ITuple ks => negb (bool_decide (ks = []))
  end.

(** The index of a child: [bare] under a falsy index, else the tuple extended
    by [inner]. *)
Definition new_index (current_index : jindex) (bare inner : key) : jindex :=
  if index_truthy current_index then
    match current_index with
    | ITuple ks => ITuple (ks ++ [inner])
    | IKey k => ITuple [k; inner]
    end
  else IKey bare.

(** What the first two lines of [get_value_by_keys] and [put_value_by_keys]
    make of their [keys] argument: nothing of a falsy one, a one-key path of
    any other bare key, a tuple as it is. *)
Definition index_keys (i : jindex) : list key :=
  match i with
  | ITuple ks => ks
  | IKey k => if key_truthy k then [k] else []
  end.

(** A value as Python builds it: no dict holds a key twice. *)
Fixpoint distinct_keys (v : Value) : bool :=
  match v with
  | VList xs => forallb distinct_keys xs
  | VDict kvs =>
      bool_decide (NoDup kvs.*1) && forallb (fun kv => distinct_keys kv.2) kvs
  | _ => true
  end.

(** The strings [extract_jinja_indices] reaches, in the order it reaches
    them: through lists and dicts only. *)
Fixpoint template_strings (data : Value) : list string :=
  match data with
  | VStr s => [s]
  | VList xs => mbind template_strings xs
  | VDict kvs => mbind (fun kv => template_strings kv.2) kvs
  | _ => []
  end.

Section Jinja.

(** [jinja2schema.infer], of the library: the variables of a template with
    their schemas, or the library's exception. *)
Variable infer : string -> res (list (string * jschema)).
Variable int_of_str : string -> option Z.

Definition jtype_to_vars (prompt : string) : res (list Var) :=
  try! s := infer prompt in
  mapM_res (fun kv => try! f := jinja_schema_to_vars kv.2 in Ret (with_name kv.1 f)) s.

(** The source appends to [indices] in place and returns it; the function
    returns the list as it is after the call. *)
Fixpoint extract_jinja_indices (data : Value) (current_index : jindex)
    (indices : list (jindex * list Var)) : res (list (jindex * list Var)) :=
  match data with
  | VStr s =>
      try! fields := jtype_to_vars s in
      match fields with
      | [] => Ret indices
      | _ => Ret (indices ++ [(current_index, fields)])
      end
  | VList xs =>
      (fix items (l : list Value) (i : nat) (indices : list (jindex * list Var))
         : res (list (jindex * list Var)) :=
         match l with
         | [] => Ret indices
         | item :: l' =>
             let new_index :=
               new_index current_index (KStr (pretty i)) (KInt (Z.of_nat i)) in
             try! indices := extract_jinja_indices item new_index indices in
             items l' (S i) indices
         end) xs 0%nat indices
  | VDict kvs =>
      (fix entries (l : list (key * Value)) (indices : list (jindex * list Var))
         : res (list (jindex * list Var)) :=
         match l with
         | [] => Ret indices
         | (key, value) :: l' =>
             let new_index := new_index current_index key key in
             try! indices := extract_jinja_indices value new_index indices in
             entries l' indices
         end) kvs indices
  | _ => Ret indices
  end.

(** The two loops of [extract_jinja_indices], from position [i] on. *)
Definition extract_items (current_index : jindex) :=
  fix items (l : list Value) (i : nat) (indices : list (jindex * list Var))
    : res (list (jindex * list Var)) :=
    match l with
    | [] => Ret indices
    | item :: l' =>
        let new_index :=
          new_index current_index (KStr (pretty i)) (KInt (Z.of_nat i)) in
        try! indices := extract_jinja_indices item new_index indices in
        items l' (S i) indices
    end.

Definition extract_entries (current_index : jindex) :=
  fix entries (l : list (key * Value)) (indices : list (jindex * list Var))
    : res (list (jindex * list Var)) :=
    match l with
    | [] => Ret indices
    | (key, value) :: l' =>
        let new_index := new_index current_index key key in
        try! indices := extract_jinja_indices value new_index indices in
        entries l' indices
    end.

(** An entry whose index leads, in [root], to the template its fields were
    read from. *)
Definition located (root : Value) (e : jindex * list Var) : Prop :=
  exists s, get_value_by_keys int_of_str root (index_keys e.1) = Ret (VStr s)
            /\ jtype_to_vars s = Ret e.2 /\ e.2 <> [].

End Jinja.

(** [if fields] *)
Definition has_fields (fields : list Var) : bool :=
  match fields with
  | [] => false
  | _ => true
  end.

(** A stand-in for [int()] on strings: it reads plain decimal digits only. *)
Definition digit_of (c : ascii) : option BinNums.N :=
  let code := N_of_ascii c in
  if ((48 <=? code) && (code <=? 57))%N then Some (code - 48)%N else None.

Fixpoint digits_value (s : string) (acc : BinNums.N) : option BinNums.N :=
  match s with
  | EmptyString => Some acc
  | String c s' =>
      match digit_of c with
      | Some d => digits_value s' (acc * 10 + d)%N
      | None => None
      end
  end.

Definition decimal_int (s : string) : option Z :=
  match s with
  | EmptyString => None
  | _ => Z.of_N <$> digits_value s 0%N
  end.

(** A stand-in for [jinja2schema.infer] on the templates of the examples. *)
Definition sample_infer (prompt : string) : res (list (string * jschema)) :=
  if decide (prompt = "Hello {{ name }}") then Ret [("name", JScalar)]
  else if decide (prompt = "{{ a }} of {{ b.c }}") then
    Ret [("a", JScalar); ("b", JDictionary [("c", JScalar)])]
  else if decide (prompt = "{% include x %}") then Raise (CallableError "InvalidExpression")
  else Ret [].

(** [[{"role": "system", "content": "plain"},
      {"role": "user", "content": "Hello {{ name }}"}]] *)
Definition sample_messages : Value :=
  VList [VDict [(KStr "role", VStr "system"); (KStr "content", VStr "plain")];
         VDict [(KStr "role", VStr "user"); (KStr "content", VStr "Hello {{ name }}")]].

(** [{"model": "gpt", "messages": [...]}] *)
Definition sample_request : Value :=
  VDict [(KStr "model", VStr "gpt"); (KStr "messages", sample_messages)].


(** ** Return-signature inference *)

(** What [func_to_return_vars] raises. *)
Inductive return_error : Type :=
  | SchemaError (e : exn)   (* raised by pyannotation_to_json_schema *)
  | InterfaceError          (* ValueError("Interface requires return type ...") *)
  | ReturnsAssertion        (* AssertionError of either assert on len(returns) *)
  | NoFirstItem.            (* IndexError of ret.items[0] on an empty list *)

(** [x.name = n; x._loc = loc] *)
Definition set_name_loc (n : string) (loc : list key) (x : Var) : Var :=
  with_loc loc (with_name n x).

(** [x.type == t] for a string [t] *)
Definition has_type (t : string) (x : Var) : bool :=
  match type x with
  | TName s => bool_decide (s = t)
  | TUnion _ => false
  end.

(** The test the function negates before it raises its ValueError. *)
Definition returns_interface (schema : Var) : bool :=
  has_type "array" schema
  && bool_decide (length (items schema) = 2%nat)
  && match items schema !! 1%nat with
     | Some second =>
         match type second with
         | TUnion members => existsb (has_type "exception") members
         | TName _ => false
         end
     | None => false
     end.

(** The Var objects behind the items of the schema of [x]: position [j] of
    the result names the object at position [j] of [items]. Every conversion
    builds fresh Vars, so the objects are pairwise distinct, except in the
    bare-tuple branch, whose list [[s, v] * len(x)] repeats its two objects;
    a union of one member is the schema object of that member. *)
Fixpoint item_objects (x : annot) : list nat :=
  let members :=
    fix members (l : list annot) : list (list nat) :=
      match l with
      | [] => []
      | a :: l' => if is_not_None a then item_objects a :: members l' else members l'
      end in
  match x with
  | AClass Tlist => [0%nat]
  | AGeneric Olist _ => [0%nat]
  | AGeneric Otuple args => seq 0 (length args)
  | AGeneric OUnion args =>
      match members args with
      | [objects] => objects
      | _ => []
      end
  | ATuple xs => list_times [0%nat; 1%nat] (length xs)
  | _ => []
  end.

(** The same for the items of [schema.items[0]]. *)
Fixpoint first_item_objects (x : annot) : list nat :=
  let members :=
    fix members (l : list annot) : list (list nat) :=
      match l with
      | [] => []
      | a :: l' =>
          if is_not_None a then first_item_objects a :: members l' else members l'
      end in
  match x with
  | AGeneric Olist (a :: _) => item_objects a
  | AGeneric Otuple (a :: _) => item_objects a
  | AGeneric OUnion args =>
      match members args with
      | [objects] => objects
      | _ => []
      end
  | _ => []
  end.

(** [for i, n in zip(ret.items, returns): i.name = n; i._loc = returns[n]],
    on the objects of the items; [returns] is the dict as its list of items. *)
Fixpoint name_items (ids : list nat) (returns : list (string * list key))
    (objects : list Var) : list Var :=
  match ids, returns with
  | i :: ids', (n, loc) :: returns' =>
      name_items ids' returns' (alter (set_name_loc n loc) i objects)
  | _, _ => objects
  end.

(** [func] enters through [inspect.signature(func).return_annotation] only. *)
Definition func_to_return_vars (return_annotation : annot)
    (returns : list (string * list key)) : return_error + list Var :=
  match pyannotation_to_json_schema return_annotation true true true with
  | Raise e => inl (SchemaError e)
  | Ret schema =>
      if returns_interface schema then
        match items schema with
        | [] => inl InterfaceError
        | ret :: _ =>
            if has_type "array" ret then
              if bool_decide (length returns = 1%nat
                              \/ length returns = length (items ret)) then
                let ids := first_item_objects return_annotation in
                match returns, items ret with
                | [_], [] => inl NoFirstItem
                | _, _ =>
                    let objects :=
                      match returns, ids with
                      | [(n, loc)], i :: _ => alter (set_name_loc n loc) i (items ret)
                      | _, _ => items ret
                      end in
                    let objects := name_items ids returns objects in
                    inr (omap (fun i => objects !! i) ids)
                end
              else inl ReturnsAssertion
            else
              match returns with
              | [(n, loc)] => inr [set_name_loc n loc ret]
              | _ => inl ReturnsAssertion
              end
        end
      else inl InterfaceError
  end.

(** No bare tuple anywhere in the annotation. *)
Fixpoint bare_tuple_free (x : annot) : bool :=
  match x with
  | ATuple _ => false
  | AGeneric _ args => forallb bare_tuple_free args
  | _ => true
  end.

(** [-> Tuple[Tuple[str, int], Optional[Exception]]] *)
Definition sample_return : annot :=
  Tuple [Tuple [AClass Tstr; AClass Tint]; Optional (AClass TException)].

(** [returns={"text": ("choices", 0), "tokens": ("usage",)}] *)
Definition sample_returns : list (string * list key) :=
  [("text", [KStr "choices"; KInt 0]); ("tokens", [KStr "usage"])].

(** * Properties *)

(** ** Topological sort *)

Example topo_chain :
  topological_sort [E_ "a" "b"; E_ "b" "c"; E_ "a" "c"] = Some (Ret ["a"; "b"; "c"]).
Proof. vm_compute. reflexivity. Qed.

Example topo_cycle :
  topological_sort [E_ "a" "b"; E_ "b" "a"] = Some (Raise NotDAGError).
Proof. vm_compute. reflexivity. Qed.

Example topo_tail_cycle :
  topological_sort [E_ "s" "a"; E_ "a" "b"; E_ "b" "a"; E_ "b" "t"] = Some (Raise NotDAGError).
Proof. vm_compute. reflexivity. Qed.

Example topo_multi :
  topological_sort [E_ "a" "b"; E_ "a" "b"; E_ "c" "b"; E_ "b" "d"]
  = Some (Ret ["a"; "c"; "b"; "d"]).
Proof. vm_compute. reflexivity. Qed.

(** *** The inner loop and the adjacency list *)

Lemma deg_insert m k x v :
  deg (<[k := x]> m) v = if decide (k = v) then x else deg m v.
Proof.
  unfold deg. rewrite lookup_insert. destruct (decide (k = v)); reflexivity.
Qed.

Lemma occ_app v l1 l2 : occ v (l1 ++ l2) = (occ v l1 + occ v l2)%nat.
Proof. induction l1 as [|d l1 IH]; simpl; [reflexivity|]. rewrite IH. lia. Qed.

Lemma occ_pos v ds : (0 < occ v ds)%nat <-> v ∈ ds.
Proof.
  induction ds as [|d ds IH]; simpl.
  - split; [lia|]. intros H. by apply elem_of_nil in H.
  - rewrite elem_of_cons. destruct (decide (d = v)) as [->|Hne].
    + split; [auto|lia].
    + rewrite <- IH. split; [intros; right; lia|]. intros [->|H]; [done|lia].
Qed.

(* the inner for-loop *)
Lemma relax_spec ds : forall m q,
  let r := foldl relax (m, q) ds in
  (forall v, deg r.1 v = deg m v - Z.of_nat (occ v ds)) /\
  exists new, r.2 = q ++ new /\ NoDup new /\
    forall v, v ∈ new <-> 1 <= deg m v <= Z.of_nat (occ v ds).
Proof.
  induction ds as [|d ds IH]; intros m q; simpl.
  - split; [intros; lia|]. exists []. rewrite app_nil_r. split; [done|].
    split; [constructor|]. intros v. split; [intros H; by apply elem_of_nil in H|lia].
  - set (m1 := <[d := deg m d - 1]> m).
    set (q1 := if decide (deg m1 d = 0) then q ++ [d] else q).
    change (relax (m, q) d) with (m1, q1).
    destruct (IH m1 q1) as [Hdeg (new & Hq & Hnd & Hnew)].
    assert (Hm1 : forall v, deg m1 v = if decide (d = v) then deg m d - 1 else deg m v).
    { intros v. unfold m1. apply deg_insert. }
    split.
    + intros v. rewrite Hdeg, Hm1. destruct (decide (d = v)); [subst|]; lia.
    + pose proof (Hm1 d) as Hd. rewrite decide_True in Hd by done.
      unfold q1 in *. clear q1. destruct (decide (deg m1 d = 0)) as [Hz|Hnz].
      * exists (d :: new). split; [rewrite Hq, <- app_assoc; done|]. split.
        { constructor; [|done]. rewrite Hnew. lia. }
        intros v. rewrite elem_of_cons, Hnew, Hm1.
        destruct (decide (d = v)) as [<-|Hne]; [|split; [intros [->|]; [done|lia]|intros; right; lia]].
        split; [intros _; lia|auto].
      * exists new. split; [done|]. split; [done|].
        intros v. rewrite Hnew, Hm1.
        destruct (decide (d = v)) as [<-|Hne]; lia.
Qed.


Lemma edge_array_adj edges :
  edge_array_to_adjacency_list edges = adj_of (edge_pairs edges).
Proof.
  unfold edge_array_to_adjacency_list, adj_of, edge_pairs.
  generalize (@nil (string * list string)).
  induction edges as [|e es IH]; intros acc; simpl; [reflexivity|]. apply IH.
Qed.

Lemma adj_of_snoc E s d : adj_of (E ++ [(s, d)]) = adj_append (adj_of E) s d.
Proof. unfold adj_of. rewrite foldl_app. reflexivity. Qed.

Lemma adj_append_keys adj s d :
  (adj_append adj s d).*1 = if decide (s ∈ adj.*1) then adj.*1 else adj.*1 ++ [s].
Proof.
  induction adj as [|[k ds] adj IH]; [reflexivity|].
  cbn [adj_append]. rewrite fmap_cons. cbn [fst].
  destruct (decide (k = s)) as [->|Hne]; rewrite fmap_cons; cbn [fst].
  - rewrite decide_True; [reflexivity|]. apply elem_of_cons. by left.
  - rewrite IH. destruct (decide (s ∈ adj.*1)) as [Hin|Hnin].
    + rewrite decide_True; [reflexivity|]. apply elem_of_cons. by right.
    + rewrite decide_False; [reflexivity|].
      rewrite elem_of_cons. intros [->|?]; done.
Qed.

Lemma adj_get_append adj s d u :
  adj_get (adj_append adj s d) u
  = if decide (s = u) then adj_get adj u ++ [d] else adj_get adj u.
Proof.
  induction adj as [|[k ds] adj IH]; simpl.
  - destruct (decide (s = u)); reflexivity.
  - destruct (decide (k = s)) as [->|Hks]; simpl.
    + destruct (decide (s = u)); reflexivity.
    + rewrite IH. destruct (decide (k = u)) as [->|Hku]; [|reflexivity].
      rewrite decide_False by congruence. reflexivity.
Qed.

Lemma adj_of_keys E :
  NoDup (adj_of E).*1 /\ forall k, k ∈ (adj_of E).*1 <-> k ∈ E.*1.
Proof.
  induction E as [|[s d] E [IHn IHk]] using rev_ind.
  - split; [constructor|]. intros k. reflexivity.
  - rewrite adj_of_snoc, adj_append_keys, fmap_app. simpl.
    destruct (decide (s ∈ (adj_of E).*1)) as [Hin|Hnin].
    + split; [done|]. intros k. rewrite elem_of_app, IHk, list_elem_of_singleton.
      split; [auto|]. intros [?| ->]; [done|]. by apply IHk.
    + split.
      * apply NoDup_app. split; [done|]. split; [|apply NoDup_singleton].
        intros x Hx Hx'. apply list_elem_of_singleton in Hx'. by subst.
      * intros k. rewrite !elem_of_app, IHk. reflexivity.
Qed.

Lemma mult_app E1 E2 u v : mult (E1 ++ E2) u v = (mult E1 u v + mult E2 u v)%nat.
Proof. induction E1 as [|[s d] E1 IH]; simpl; [reflexivity|]. rewrite IH. lia. Qed.

Lemma pending_app E1 E2 done v :
  pending (E1 ++ E2) done v = (pending E1 done v + pending E2 done v)%nat.
Proof. induction E1 as [|[s d] E1 IH]; simpl; [reflexivity|]. rewrite IH. lia. Qed.

Lemma adj_get_mult E u v : occ v (adj_get (adj_of E) u) = mult E u v.
Proof.
  induction E as [|[s d] E IH] using rev_ind; [reflexivity|].
  rewrite adj_of_snoc, adj_get_append, mult_app. simpl.
  destruct (decide (s = u)) as [->|Hne].
  - rewrite occ_app, IH. simpl.
    destruct (decide (d = v)) as [->|Hdv].
    + rewrite decide_True by done. lia.
    + rewrite decide_False by (intros [_ ?]; done). lia.
  - rewrite IH, decide_False by (intros [? _]; done). lia.
Qed.

Lemma adj_get_nil E u : adj_get (adj_of E) u = [] <-> u ∉ E.*1.
Proof.
  induction E as [|[s d] E IH] using rev_ind.
  - simpl. split; [intros _ H; by apply elem_of_nil in H|done].
  - rewrite adj_of_snoc, adj_get_append, fmap_app, elem_of_app. simpl.
    rewrite list_elem_of_singleton.
    destruct (decide (s = u)) as [->|Hne].
    + split; [|intros H; exfalso; apply H; by right].
      intros H. by apply app_eq_nil in H as [_ ?].
    + rewrite IH. split; [intros H [?|?]; [done|congruence]|intros H ?; apply H; by left].
Qed.

Lemma indeg_adj_append adj s d v :
  indeg_adj (adj_append adj s d) v
  = (indeg_adj adj v + if decide (d = v) then 1 else 0)%nat.
Proof.
  induction adj as [|[k ds] adj IH]; simpl; [lia|].
  destruct (decide (k = s)); simpl.
  - rewrite occ_app. simpl. lia.
  - rewrite IH. lia.
Qed.

Lemma indeg_adj_pending E v : indeg_adj (adj_of E) v = pending E [] v.
Proof.
  induction E as [|[s d] E IH] using rev_ind; [reflexivity|].
  rewrite adj_of_snoc, indeg_adj_append, pending_app, IH. simpl.
  destruct (decide (d = v)) as [->|Hne].
  - rewrite decide_True; [lia|]. split; [done|]. intros H. by apply elem_of_nil in H.
  - rewrite decide_False by (intros [? _]; done). lia.
Qed.

Lemma incr_spec ds : forall m v,
  deg (foldl (fun m dst => <[dst := deg m dst + 1]> m) m ds) v
  = deg m v + Z.of_nat (occ v ds).
Proof.
  induction ds as [|d ds IH]; intros m v; simpl; [lia|].
  rewrite IH, deg_insert. destruct (decide (d = v)); [subst|]; lia.
Qed.

Lemma count_in_degree_spec adj v :
  deg (count_in_degree adj) v = Z.of_nat (indeg_adj adj v).
Proof.
  unfold count_in_degree.
  assert (H : forall m,
    deg (foldl (fun m '(_, dsts) =>
                  foldl (fun m dst => <[dst := deg m dst + 1]> m) m dsts) m adj) v
    = deg m v + Z.of_nat (indeg_adj adj v)).
  { induction adj as [|[k ds] adj IH]; intros m; simpl; [lia|].
    rewrite IH, incr_spec. lia. }
  rewrite H. unfold deg. rewrite lookup_empty. simpl. lia.
Qed.

Lemma seed_queue_spec adj m :
  seed_queue adj m = List.filter (fun k => bool_decide (deg m k = 0)) adj.*1.
Proof.
  unfold seed_queue.
  assert (H : forall q,
    foldl (fun q '(node, _) => if decide (deg m node = 0) then q ++ [node] else q) q adj
    = q ++ List.filter (fun k => bool_decide (deg m k = 0)) adj.*1).
  { induction adj as [|[k ds] adj IH]; intros q; simpl; [by rewrite app_nil_r|].
    rewrite IH. destruct (decide (deg m k = 0)).
    - rewrite bool_decide_eq_true_2 by done. by rewrite <- app_assoc.
    - rewrite bool_decide_eq_false_2 by done. done. }
  apply (H []).
Qed.


Lemma pending_snoc E emitted u v :
  u ∉ emitted ->
  (pending E (emitted ++ [u]) v + mult E u v = pending E emitted v)%nat.
Proof.
  intros Hu. induction E as [|[s d] E IH]; simpl; [reflexivity|].
  rewrite <- IH.
  assert (Hsnoc : s ∉ emitted ++ [u] <-> (s ∉ emitted) /\ (s <> u)).
  { rewrite elem_of_app, list_elem_of_singleton. tauto. }
  destruct (decide (d = v /\ s ∉ emitted ++ [u])) as [H1|H1];
    destruct (decide (d = v /\ s ∉ emitted)) as [H2|H2];
    destruct (decide (s = u /\ d = v)) as [H3|H3]; try lia; exfalso;
    rewrite Hsnoc in H1; destruct (decide (s = u)); subst; tauto.
Qed.

Lemma pending_zero E emitted v :
  pending E emitted v = O <-> forall s, (s, v) ∈ E -> s ∈ emitted.
Proof.
  induction E as [|[s d] E IH]; simpl.
  - split; [|done]. intros _ s H. by apply elem_of_nil in H.
  - destruct (decide (d = v /\ s ∉ emitted)) as [[-> H1]|H1].
    + split; [lia|]. intros H. exfalso. apply H1, H, elem_of_cons. by left.
    + simpl. rewrite IH. split.
      * intros H s' [Heq|Hin]%elem_of_cons; [|by apply H].
        inversion Heq; subst. destruct (decide (s ∈ emitted)); [done|].
        exfalso. apply H1. done.
      * intros H s' Hin. apply H, elem_of_cons. by right.
Qed.

Lemma pending_mono E emitted emitted' v :
  (forall x, x ∈ emitted -> x ∈ emitted') ->
  (pending E emitted' v <= pending E emitted v)%nat.
Proof.
  intros Hsub. induction E as [|[s d] E IH]; simpl; [lia|].
  destruct (decide (d = v /\ s ∉ emitted')) as [H1|H1];
    destruct (decide (d = v /\ s ∉ emitted)) as [H2|H2]; try lia.
  exfalso. apply H2. destruct H1 as [Hd H1]. split; [done|]. intros ?. apply H1. auto.
Qed.

Lemma mult_pos E u v : (0 < mult E u v)%nat <-> (u, v) ∈ E.
Proof.
  induction E as [|[s d] E IH]; simpl.
  - split; [lia|]. intros H. by apply elem_of_nil in H.
  - rewrite elem_of_cons. destruct (decide (s = u /\ d = v)) as [[-> ->]|Hne].
    + split; [auto|lia].
    + rewrite <- IH. split; [intros; right; lia|].
      intros [Heq|H]; [|lia]. inversion Heq; subst. exfalso. by apply Hne.
Qed.

Lemma pending_target_pos E v : v ∈ E.*2 -> (0 < pending E [] v)%nat.
Proof.
  intros Hv. destruct (pending E [] v) eqn:Hp; [|lia]. exfalso.
  apply list_elem_of_fmap in Hv as ([s d] & -> & Hin). simpl in Hp.
  rewrite pending_zero in Hp. specialize (Hp s Hin). by apply elem_of_nil in Hp.
Qed.

(** *** The loop invariant *)

Section Invariant.

Variable E : list (string * string).
Let adj := adj_of E.

Lemma inv_emitted st v :
  kahn_inv E st -> v ∈ sorted_list st -> pending E (sorted_list st) v = O.
Proof.
  intros Hinv [i Hi]%list_elem_of_lookup.
  pose proof (inv_sorted E st Hinv i v Hi) as H0.
  assert (Hm : (pending E (sorted_list st) v
                 <= pending E (take i (sorted_list st)) v)%nat); [|lia].
  apply pending_mono. intros x Hx. rewrite <- (take_drop i (sorted_list st)). apply elem_of_app. by left.
Qed.

Lemma kahn_init_inv : kahn_inv E (kahn_init adj).
Proof.
  destruct (adj_of_keys E) as [Hnd Hkeys]. fold adj in Hnd, Hkeys.
  assert (Hdeg : forall v, deg (count_in_degree adj) v = Z.of_nat (pending E [] v)).
  { intros v. rewrite count_in_degree_spec. unfold adj. by rewrite indeg_adj_pending. }
  assert (Hq : forall v, v ∈ seed_queue adj (count_in_degree adj)
                         <-> v ∈ E.*1 /\ pending E [] v = O).
  { intros v. rewrite seed_queue_spec, list_elem_of_In, filter_In, <- list_elem_of_In.
    rewrite Hkeys, bool_decide_eq_true, Hdeg. split; intros [? ?]; split; auto; lia. }
  unfold kahn_init. constructor; simpl.
  - rewrite seed_queue_spec. apply NoDup_ListNoDup, List.NoDup_filter.
    by apply NoDup_ListNoDup.
  - apply Hdeg.
  - intros v Hv. by apply Hq in Hv as [_ ?].
  - intros i v Hi. by rewrite lookup_nil in Hi.
  - intros v [Hv|Hv] Hp.
    + apply Hq. done.
    + apply pending_target_pos in Hv. lia.
  - intros v Hv. left. by apply Hq in Hv as [? _].
  - reflexivity.
Qed.


Lemma kahn_step_inv st u rest :
  kahn_inv E st -> queue st = u :: rest -> kahn_inv E (kahn_step adj u rest st).
Proof.
  intros Hinv Hq.
  pose proof (inv_nodup E st Hinv) as Hnd. rewrite Hq in Hnd.
  pose proof Hnd as (Hnd1 & Hdisj & Hnd2)%NoDup_app.
  assert (Hu : u ∉ sorted_list st).
  { intros Hin. apply (Hdisj u Hin), elem_of_cons. by left. }
  assert (Hpu : pending E (sorted_list st) u = O).
  { apply (inv_queue E st Hinv). rewrite Hq. apply elem_of_cons. by left. }
  assert (Hold : forall v, v ∈ sorted_list st ++ u :: rest ->
                           pending E (sorted_list st) v = O).
  { intros v [Hv|Hv]%elem_of_app; [by apply inv_emitted|].
    apply (inv_queue E st Hinv). by rewrite Hq. }
  unfold kahn_step. set (ds := adj_get adj u).
  destruct (relax_spec ds (in_degree st) rest) as [Hdeg (new & Hnewq & Hnewnd & Hnew)].
  destruct (foldl relax (in_degree st, rest) ds) as [m' q'] eqn:Hfold.
  simpl in Hdeg, Hnewq. subst q'.
  assert (Hocc : forall v, occ v ds = mult E u v).
  { intros v. apply adj_get_mult. }
  pose proof (fun v => pending_snoc E (sorted_list st) u v Hu) as Hsn.
  assert (Hnew' : forall v,
    v ∈ new <-> pending E (sorted_list st ++ [u]) v = O /\ (0 < mult E u v)%nat).
  { intros v. rewrite Hnew, (inv_deg E st Hinv), Hocc. specialize (Hsn v). lia. }
  constructor; simpl.
  - rewrite <- app_assoc. simpl.
    replace (sorted_list st ++ u :: rest ++ new)
      with ((sorted_list st ++ u :: rest) ++ new) by (by rewrite <- app_assoc).
    apply NoDup_app. split; [done|]. split; [|done].
    intros x Hx Hx'. apply Hold in Hx. apply Hnew' in Hx' as [_ Hx'].
    specialize (Hsn x). lia.
  - intros v. rewrite Hdeg, (inv_deg E st Hinv), Hocc. specialize (Hsn v). lia.
  - intros v [Hv|Hv]%elem_of_app.
    + assert (pending E (sorted_list st) v = O).
      { apply Hold, elem_of_app. right. apply elem_of_cons. by right. }
      specialize (Hsn v). lia.
    + by apply Hnew' in Hv as [? _].
  - intros i v [Hi|[Hlen Hi]]%lookup_app_Some.
    + rewrite take_app_le by (apply lookup_lt_Some in Hi; lia).
      by apply (inv_sorted E st Hinv).
    + apply list_lookup_singleton_Some in Hi as [Hi <-].
      rewrite take_app_length' by lia. done.
  - intros v Hv Hp.
    destruct (decide (pending E (sorted_list st) v = O)) as [Hz|Hnz].
    + pose proof (inv_ready E st Hinv v Hv Hz) as Hin. rewrite Hq in Hin.
      revert Hin. rewrite !elem_of_app, !elem_of_cons, elem_of_nil. tauto.
    + rewrite !elem_of_app. right. right. apply Hnew'. split; [done|].
      specialize (Hsn v). lia.
  - intros v Hv.
    assert (Hcase : v ∈ sorted_list st ++ u :: rest \/ v ∈ new).
    { revert Hv. rewrite !elem_of_app, !elem_of_cons, elem_of_nil. tauto. }
    destruct Hcase as [Hv'|Hv'].
    + apply (inv_nodes E st Hinv). by rewrite Hq.
    + right. apply Hnew' in Hv' as [_ Hm]. apply mult_pos in Hm.
      apply list_elem_of_fmap. exists (u, v). done.
  - rewrite List.filter_app, length_app, (inv_cntr E st Hinv). simpl.
    pose proof (adj_get_nil E u) as Hnil. fold adj in Hnil. fold ds in Hnil.
    destruct ds as [|d ds'].
    + rewrite bool_decide_eq_true_2 by (by apply Hnil). simpl. lia.
    + rewrite bool_decide_eq_false_2; [simpl; lia|].
      intros Hn. apply Hnil in Hn. done.
Qed.

Lemma kahn_inv_bound st :
  kahn_inv E st -> (length (sorted_list st) + length (queue st) <= 2 * length E)%nat.
Proof.
  intros Hinv. rewrite <- length_app.
  transitivity (length (E.*1 ++ E.*2)).
  - apply submseteq_length, NoDup_submseteq; [apply (inv_nodup E st Hinv)|].
    intros x Hx. apply elem_of_app. by apply (inv_nodes E st Hinv).
  - rewrite length_app, !length_fmap. lia.
Qed.

Lemma kahn_loop_inv fuel : forall st,
  kahn_inv E st ->
  (2 * length E <= fuel + length (sorted_list st))%nat ->
  exists st', kahn_loop fuel adj st = Some st' /\ kahn_inv E st' /\ queue st' = [].
Proof.
  induction fuel as [|fuel IH]; intros st Hinv Hfuel.
  - pose proof (kahn_inv_bound st Hinv) as Hb.
    destruct (queue st) as [|u rest] eqn:Hq.
    + exists st. simpl. rewrite Hq. done.
    + simpl in Hb. lia.
  - simpl. destruct (queue st) as [|u rest] eqn:Hq.
    + exists st. done.
    + apply IH; [by apply kahn_step_inv|].
      unfold kahn_step.
      destruct (foldl relax (in_degree st, rest) (adj_get adj u)) as [m' q'].
      simpl. rewrite length_app. simpl. lia.
Qed.

Lemma kahn_terminates :
  exists st, kahn_loop (2 * length E) adj (kahn_init adj) = Some st
             /\ kahn_inv E st /\ queue st = [].
Proof. apply kahn_loop_inv; [apply kahn_init_inv|]. simpl. lia. Qed.


(** What the final state says about the answer. *)

Lemma filter_split_length (S : list string) (l : list string) :
  length l
  = (length (List.filter (fun x => bool_decide (x ∈ S)) l)
     + length (List.filter (fun x => bool_decide (x ∉ S)) l))%nat.
Proof.
  induction l as [|x l IH]; simpl; [reflexivity|].
  destruct (decide (x ∈ S)).
  - rewrite bool_decide_eq_true_2, bool_decide_eq_false_2 by tauto. simpl. lia.
  - rewrite bool_decide_eq_false_2, bool_decide_eq_true_2 by tauto. simpl. lia.
Qed.

Lemma kahn_check_iff st :
  kahn_inv E st ->
  (forall k, k ∈ E.*1 -> k ∈ sorted_list st)
  <-> kahn_check adj st = Ret (sorted_list st).
Proof.
  intros Hinv. destruct (adj_of_keys E) as [Hnd Hkeys]. fold adj in Hnd, Hkeys.
  set (F := List.filter (fun x => bool_decide (x ∈ E.*1)) (sorted_list st)).
  assert (HF : forall x, x ∈ F <-> x ∈ sorted_list st /\ x ∈ E.*1).
  { intros x. unfold F.
    rewrite list_elem_of_In, filter_In, <- list_elem_of_In, bool_decide_eq_true. done. }
  assert (HFnd : NoDup F).
  { apply NoDup_ListNoDup, List.NoDup_filter, NoDup_ListNoDup.
    pose proof (inv_nodup E st Hinv) as H. by apply NoDup_app in H as [? _]. }
  assert (Hsub : F ⊆+ adj.*1).
  { apply NoDup_submseteq; [done|]. intros x [_ Hx]%HF. by apply Hkeys. }
  assert (Hlen : length (sorted_list st)
                 = (length F + Z.to_nat (edge_nodes_cntr st))%nat).
  { rewrite (inv_cntr E st Hinv), Nat2Z.id. apply filter_split_length. }
  assert (Hc : (0 <= edge_nodes_cntr st)).
  { rewrite (inv_cntr E st Hinv). lia. }
  unfold kahn_check. rewrite <- (length_fmap fst adj). split.
  - intros Hall. rewrite decide_True; [done|].
    assert (Hsup : adj.*1 ⊆+ F).
    { apply NoDup_submseteq; [done|]. intros x Hx. apply HF.
      apply Hkeys in Hx. auto. }
    apply submseteq_length in Hsub, Hsup. lia.
  - destruct (decide _) as [Heq|]; [|done]. intros _ k Hk.
    assert (Hperm : F ≡ₚ adj.*1).
    { apply submseteq_length_Permutation; [done|]. lia. }
    apply Hkeys in Hk. rewrite <- Hperm in Hk. by apply HF in Hk as [? _].
Qed.

Lemma kahn_sound st u v :
  kahn_inv E st -> queue st = [] ->
  (forall k, k ∈ E.*1 -> k ∈ sorted_list st) ->
  (u, v) ∈ E -> precedes u v (sorted_list st).
Proof.
  intros Hinv Hq Hall Huv.
  assert (Hv : v ∈ sorted_list st).
  { rewrite <- (app_nil_r (sorted_list st)), <- Hq. apply (inv_ready E st Hinv).
    - right. apply list_elem_of_fmap. by exists (u, v).
    - apply pending_zero. intros s Hs. apply Hall, list_elem_of_fmap. by exists (s, v). }
  apply list_elem_of_lookup in Hv as [j Hj].
  pose proof (inv_sorted E st Hinv j v Hj) as Hp.
  rewrite pending_zero in Hp. specialize (Hp u Huv).
  apply list_elem_of_lookup in Hp as [i Hi].
  apply lookup_take_Some in Hi as [Hi Hlt].
  exists i, j. done.
Qed.

Lemma pending_pos emitted v :
  (0 < pending E emitted v)%nat -> exists s, (s, v) ∈ E /\ s ∉ emitted.
Proof.
  intros Hp. destruct (decide (Exists (fun e => e.2 = v /\ e.1 ∉ emitted) E)) as [Hex|Hnex].
  - apply Exists_exists in Hex as ([s d] & Hin & Hd & Hs). simpl in *. subst d.
    by exists s.
  - exfalso. assert (pending E emitted v = O); [|lia].
    apply pending_zero. intros s Hs.
    destruct (decide (s ∈ emitted)) as [|Hn]; [done|].
    exfalso. apply Hnex, Exists_exists. by exists (s, v).
Qed.

Lemma stuck_predecessor st x :
  kahn_inv E st -> queue st = [] ->
  x ∈ E.*1 -> x ∉ sorted_list st ->
  exists s, (s, x) ∈ E /\ s ∈ E.*1 /\ s ∉ sorted_list st.
Proof.
  intros Hinv Hq Hx Hnx.
  destruct (pending E (sorted_list st) x) eqn:Hp.
  - exfalso. apply Hnx. rewrite <- (app_nil_r (sorted_list st)), <- Hq.
    apply (inv_ready E st Hinv); auto.
  - destruct (pending_pos (sorted_list st) x) as (s & Hs & Hns); [lia|].
    exists s. split; [done|]. split; [|done].
    apply list_elem_of_fmap. by exists (s, x).
Qed.

Lemma stuck_chain st n : forall x,
  kahn_inv E st -> queue st = [] ->
  x ∈ E.*1 -> x ∉ sorted_list st ->
  exists h l, chain E (h :: l) /\ length l = n /\ Forall (fun y => y ∈ E.*1) (h :: l).
Proof.
  intros x Hinv Hq. revert x.
  assert (H : forall n x, x ∈ E.*1 -> x ∉ sorted_list st ->
    exists h l, chain E (h :: l) /\ length l = n
                /\ Forall (fun y => y ∈ E.*1) (h :: l) /\ h ∉ sorted_list st).
  { clear n. induction n as [|n IH]; intros x Hx Hnx.
    - exists x, []. repeat split; [constructor|by constructor|done].
    - destruct (IH x Hx Hnx) as (h & l & Hch & Hlen & Hall & Hh).
      assert (Hh1 : h ∈ E.*1) by (by inversion Hall).
      destruct (stuck_predecessor st h Hinv Hq Hh1 Hh) as (s & Hs & Hs1 & Hs2).
      exists s, (h :: l). repeat split.
      + by constructor.
      + simpl. by rewrite Hlen.
      + by constructor.
      + done. }
  intros x Hx Hnx. destruct (H n x Hx Hnx) as (h & l & ? & ? & ? & _). eauto.
Qed.

End Invariant.

(** *** Walks, cycles and orders *)

Lemma has_dup (l : list string) :
  ~ NoDup l -> exists a l1 l2 l3, l = l1 ++ a :: l2 ++ a :: l3.
Proof.
  induction l as [|a l IH]; intros Hn.
  - exfalso. apply Hn. constructor.
  - destruct (decide (a ∈ l)) as [Hin|Hnin].
    + apply list_elem_of_split in Hin as (l1 & l2 & ->). by exists a, [], l1, l2.
    + destruct IH as (b & l1 & l2 & l3 & ->).
      * intros Hnd. apply Hn. by constructor.
      * by exists b, (a :: l1), l2, l3.
Qed.

Lemma chain_app_r E l1 l2 : chain E (l1 ++ l2) -> l2 <> [] -> chain E l2.
Proof.
  intros H Hne. induction l1 as [|a l1 IH]; [done|].
  apply IH. simpl in H.
  destruct (l1 ++ l2) as [|b l] eqn:Hl.
  - apply app_eq_nil in Hl as [_ ?]. done.
  - by inversion H.
Qed.

Lemma chain_app_l E l1 l2 : chain E (l1 ++ l2) -> l1 <> [] -> chain E l1.
Proof.
  revert l2. induction l1 as [|a l1 IH]; intros l2 H Hne; [done|].
  destruct l1 as [|b l1]; [constructor|].
  simpl in H. inversion H; subst. constructor; [done|].
  apply (IH l2); done.
Qed.

Lemma chain_path E l : forall a b, chain E (a :: l ++ [b]) -> path E a b.
Proof.
  induction l as [|c l IH]; intros a b H; simpl in H; inversion H; subst.
  - by apply path_edge.
  - eapply path_cons; [done|]. by apply IH.
Qed.

Lemma path_precedes E order u w :
  NoDup order -> (forall a b, (a, b) ∈ E -> precedes a b order) ->
  path E u w -> precedes u w order.
Proof.
  intros Hnd Hedge Hp. induction Hp as [u v Huv|u v w Huv Hvw IH].
  - by apply Hedge.
  - destruct (Hedge u v Huv) as (i & j & Hij & Hi & Hj).
    destruct IH as (j' & k & Hjk & Hj' & Hk).
    assert (j = j') by (eapply NoDup_lookup; eauto). subst j'.
    exists i, k. split; [lia|done].
Qed.

Lemma precedes_irrefl order u : NoDup order -> ~ precedes u u order.
Proof.
  intros Hnd (i & j & Hij & Hi & Hj).
  assert (i = j) by (eapply NoDup_lookup; eauto). lia.
Qed.

(** The sort as a whole. *)

Lemma topological_sort_spec edges :
  exists st,
    kahn_inv (edge_pairs edges) st /\ queue st = []
    /\ topological_sort edges = Some (kahn_check (adj_of (edge_pairs edges)) st).
Proof.
  destruct (kahn_terminates (edge_pairs edges)) as (st & Hloop & Hinv & Hq).
  exists st. split; [done|]. split; [done|].
  unfold topological_sort, topological_sort_fuel.
  rewrite edge_array_adj.
  unfold edge_pairs in Hloop at 1. rewrite length_fmap in Hloop.
  rewrite Hloop. reflexivity.
Qed.

Lemma kahn_check_cases adj st :
  kahn_check adj st = Ret (sorted_list st) \/ kahn_check adj st = Raise NotDAGError.
Proof. unfold kahn_check. destruct (decide _); auto. Qed.

Lemma topological_sort_total edges : is_Some (topological_sort edges).
Proof. destruct (topological_sort_spec edges) as (st & _ & _ & ->). eauto. Qed.

Lemma topological_sort_sound edges order :
  topological_sort edges = Some (Ret order) ->
  NoDup order
  /\ (forall u v, (u, v) ∈ edge_pairs edges -> precedes u v order)
  /\ (forall x, x ∈ order -> x ∈ (edge_pairs edges).*1 \/ x ∈ (edge_pairs edges).*2).
Proof.
  destruct (topological_sort_spec edges) as (st & Hinv & Hq & ->).
  intros Heq.
  assert (Hord : order = sorted_list st /\
                 kahn_check (adj_of (edge_pairs edges)) st = Ret (sorted_list st)).
  { destruct (kahn_check_cases (adj_of (edge_pairs edges)) st) as [H|H];
      rewrite H in Heq; [|done]. split; [congruence|done]. }
  destruct Hord as [-> Hchk].
  pose proof (inv_nodup _ st Hinv) as Hnd. rewrite Hq, app_nil_r in Hnd.
  split; [done|]. split.
  - intros u v Huv. apply (kahn_sound (edge_pairs edges)); [done..| |done].
    by apply kahn_check_iff.
  - intros x Hx. apply (inv_nodes _ st Hinv). rewrite Hq, app_nil_r. done.
Qed.

Lemma topological_sort_cyclic edges :
  has_cycle edges -> topological_sort edges = Some (Raise NotDAGError).
Proof.
  intros [u Hu].
  destruct (topological_sort_spec edges) as (st & Hinv & Hq & Hts).
  destruct (kahn_check_cases (adj_of (edge_pairs edges)) st) as [H|H];
    rewrite H in Hts; [|done].
  exfalso. apply topological_sort_sound in Hts as (Hnd & Hprec & _).
  apply (precedes_irrefl (sorted_list st) u Hnd).
  by apply (path_precedes (edge_pairs edges)).
Qed.

Lemma topological_sort_acyclic edges :
  ~ has_cycle edges -> exists order, topological_sort edges = Some (Ret order).
Proof.
  intros Hacyc.
  destruct (topological_sort_spec edges) as (st & Hinv & Hq & ->).
  set (E := edge_pairs edges) in *.
  destruct (decide (Forall (fun k => k ∈ sorted_list st) E.*1)) as [Hall|Hnall].
  - exists (sorted_list st). f_equal. apply kahn_check_iff; [done|].
    intros k Hk. rewrite Forall_forall in Hall. by apply Hall.
  - exfalso. apply Hacyc.
    apply not_Forall_Exists in Hnall; [|apply _].
    apply Exists_exists in Hnall as (k & Hk & Hnk).
    destruct (stuck_chain E st (length E) k Hinv Hq Hk Hnk) as (h & l & Hch & Hlen & Hin).
    assert (Hdup : ~ NoDup (h :: l)).
    { intros Hnd.
      assert (Hsub : h :: l ⊆+ E.*1).
      { apply NoDup_submseteq; [done|]. intros x Hx. rewrite Forall_forall in Hin. auto. }
      apply submseteq_length in Hsub. rewrite length_fmap in Hsub. simpl in Hsub. lia. }
    apply has_dup in Hdup as (a & l1 & l2 & l3 & Heq). rewrite Heq in Hch.
    exists a. apply (chain_path E l2).
    apply chain_app_r in Hch; [|done].
    apply (chain_app_l E (a :: l2 ++ [a]) l3); [|done].
    simpl. rewrite <- app_assoc. done.
Qed.

(** ** Nested-path accessors *)

Section Accessors.

Variable int_of_str : string -> option Z.

Lemma dict_get_set_eq d k v : dict_get (dict_set d k v) k = Some v.
Proof.
  induction d as [|[k' v'] d IH]; simpl.
  - by rewrite decide_True.
  - destruct (decide (k' = k)) as [->|Hne]; simpl.
    + by rewrite decide_True.
    + by rewrite decide_False.
Qed.

Lemma dict_get_set_ne d k k' v : k <> k' -> dict_get (dict_set d k v) k' = dict_get d k'.
Proof.
  intros Hne. induction d as [|[k0 v0] d IH]; simpl.
  - by rewrite decide_False.
  - destruct (decide (k0 = k)) as [->|Hne0]; simpl.
    + by rewrite !decide_False.
    + destruct (decide (k0 = k')); [done|]. apply IH.
Qed.

Lemma put_child_list (xs : list Value) i next :
  (i < length xs)%nat ->
  put_child (xs !! i) next
  = (let c := default VNone (xs !! i) in
     if is_container c then c else fresh_container next).
Proof.
  intros Hi. destruct (xs !! i) eqn:Hx; [reflexivity|].
  apply lookup_ge_None in Hx. lia.
Qed.

Lemma get_put_list (xs : list Value) i w rest :
  0 <= i < Z.of_nat (length xs) ->
  get_value_by_keys int_of_str (VList (<[Z.to_nat i := w]> xs)) (KInt i :: rest)
  = get_value_by_keys int_of_str w rest.
Proof.
  intros Hi. simpl. rewrite length_insert, decide_True by done.
  rewrite list_lookup_insert_eq by lia. reflexivity.
Qed.

(** C6. Accessor inverse: for a nested structure [obj], a path [keys] with a
    writable leaf (see [writable]) and any value [v], reading [keys] from
    [obj] as [put_value_by_keys] leaves it returns [v], without raising. *)
Theorem accessor_inverse keys : forall obj v,
  writable obj keys = true ->
  get_value_by_keys int_of_str (put_value_by_keys obj keys v) keys = Ret v.
Proof.
  induction keys as [|key rest IH]; intros obj v Hw; [done|].
  destruct rest as [|next rest].
  - destruct obj as [| | | |xs| |d|]; try done.
    + destruct key as [s|i]; [done|]. simpl in Hw.
      apply bool_decide_eq_true in Hw.
      cbn [put_value_by_keys]. rewrite decide_True by done.
      by rewrite get_put_list.
    + simpl. by rewrite dict_get_set_eq.
  - change (put_value_by_keys obj (key :: next :: rest) v)
      with (match obj, key with
            | VDict d, _ =>
                VDict (dict_set d key
                  (put_value_by_keys (put_child (dict_get d key) next) (next :: rest) v))
            | VList xs, KInt i =>
                if decide (0 <= i < Z.of_nat (length xs))
                then
                  let c := default VNone (xs !! Z.to_nat i) in
                  let child := if is_container c then c else fresh_container next in
                  VList (<[Z.to_nat i := put_value_by_keys child (next :: rest) v]> xs)
                else obj
            | _, _ => obj
            end).
    change (writable obj (key :: next :: rest))
      with (match obj, key with
            | VDict d, _ => writable (put_child (dict_get d key) next) (next :: rest)
            | VList xs, KInt i =>
                bool_decide (0 <= i < Z.of_nat (length xs))
                && writable (put_child (xs !! Z.to_nat i) next) (next :: rest)
            | _, _ => false
            end) in Hw.
    remember (next :: rest) as r eqn:Hr.
    destruct obj as [| | | |xs| |d|]; try done.
    + destruct key as [s|i]; [done|].
      apply andb_true_iff in Hw as [Hb Hw]. apply bool_decide_eq_true in Hb.
      rewrite decide_True by done. cbv zeta.
      rewrite get_put_list by done.
      rewrite put_child_list in Hw by lia. by apply IH.
    + cbn [get_value_by_keys]. rewrite dict_get_set_eq. simpl. by apply IH.
Qed.

End Accessors.

(** ** Node invocation and the executor *)

Section Exec.

Variable int_of_str : string -> option Z.
Variable format_exc : exn -> string.

Local Abbreviation get := (get_value_by_keys int_of_str).
Local Abbreviation call := (Node_call int_of_str format_exc).
Local Abbreviation step := (Chain_step int_of_str format_exc).
Local Abbreviation run := (Chain_run int_of_str format_exc).

Lemma value_set_value o v : value (set_value o v) = v.
Proof. by destruct o. Qed.

Lemma name_set_value o v : name (set_value o v) = name o.
Proof. by destruct o. Qed.

Lemma loc_set_value o v : _loc (set_value o v) = _loc o.
Proof. by destruct o. Qed.

Lemma project_outputs_ok payload os os' :
  project_outputs int_of_str payload os = (os', None) ->
  Forall2 (projected int_of_str payload) os os'.
Proof.
  revert os'. induction os as [|o os IH]; intros os' H; simpl in H.
  - inversion H. constructor.
  - destruct (get payload (_loc o)) as [v|e] eqn:Hget; [|done].
    destruct (project_outputs int_of_str payload os) as [rest' err] eqn:Hrest.
    inversion H; subst. constructor; [|by apply IH].
    split; by rewrite value_set_value.
Qed.

Lemma project_outputs_total payload os :
  Forall (fun o => exists v, get payload (_loc o) = Ret v) os ->
  exists os', project_outputs int_of_str payload os = (os', None).
Proof.
  induction 1 as [|o os [v Hv] _ [os' IH]]; simpl; [eauto|].
  rewrite Hv, IH. eauto.
Qed.

Lemma Node_call_success self data b r self' :
  call self data b = ((r, None), self') ->
  exists payload,
    dom data ⊆ template_keys self
    /\ fn self data = (payload, None)
    /\ project_outputs int_of_str payload (outputs self) = (outputs self', None)
    /\ r = outputs_dict (outputs self')
    /\ self' = with_outputs (outputs self') self.
Proof.
  unfold Node_call. destruct (decide _) as [Hsub|]; [|done].
  destruct (fn self data) as [payload [e|]] eqn:Hfn; [done|].
  destruct (project_outputs int_of_str payload (outputs self)) as [os [e|]] eqn:Hp; [done|].
  intros H. inversion H; subst. exists payload. done.
Qed.

Lemma Node_call_fields self data b r self' :
  call self data b = (r, self') ->
  fields self' = fields self /\ node_id self' = node_id self /\ fn self' = fn self.
Proof.
  unfold Node_call. destruct (decide _); [|by inversion 1].
  destruct (fn self data) as [payload [e|]]; [by inversion 1|].
  destruct (project_outputs int_of_str payload (outputs self)) as [os [e|]];
    by inversion 1.
Qed.


(** *** The input map of a node *)

Lemma has_field_fields n n' k : fields n = fields n' -> has_field n k = has_field n' k.
Proof. unfold has_field. by intros ->. Qed.

Lemma copy_shared_lookup node data _data k v :
  has_field node k = true -> data !! k = Some v ->
  copy_shared node data _data !! k = Some v.
Proof.
  intros Hf Hk. unfold copy_shared.
  assert (Hin : k ∈ (map_to_list data).*1).
  { apply list_elem_of_fmap. exists (k, v). split; [done|].
    by apply elem_of_map_to_list. }
  revert Hin. generalize ((map_to_list data).*1). intros l.
  assert (H : forall d : gmap string Value, k ∈ l \/ d !! k = Some v ->
    foldl (fun d k => if has_field node k
                      then match data !! k with Some v => <[k := v]> d | None => d end
                      else d) d l !! k = Some v).
  { induction l as [|x l IH]; intros d [Hin|Hd]; simpl.
    - by apply elem_of_nil in Hin.
    - done.
    - apply IH. apply elem_of_cons in Hin as [<-|Hin]; [|by left].
      right. rewrite Hf, Hk. apply lookup_insert_eq.
    - apply IH. right. destruct (has_field node x); [|done].
      destruct (data !! x) as [w|] eqn:Hx; [|done].
      destruct (decide (x = k)) as [->|Hne].
      + rewrite lookup_insert_eq. congruence.
      + by rewrite lookup_insert_ne.
  }
  intros Hin. apply H. by left.
Qed.

Lemma write_ir_lookup nid items ir key :
  is_Some (write_ir nid items ir !! key) ->
  is_Some (ir !! key) \/ exists k, key = ir_key nid k.
Proof.
  unfold write_ir. revert ir. induction items as [|[k v] items IH]; intros ir H; simpl in H.
  - by left.
  - apply IH in H as [H|H]; [|by right].
    destruct (decide (ir_key nid (key_str k) = key)) as [<-|Hne].
    + right. eauto.
    + left. by rewrite lookup_insert_ne in H.
Qed.

(** *** One step of the executor *)

Lemma Chain_step_effect self nid st st' e :
  step self nid st = (st', e) ->
  run_data st' = run_data st
  /\ (forall x, fields <$> run_nodes st' !! x = fields <$> run_nodes st !! x)
  /\ (forall key, is_Some (full_ir st' !! key) ->
        is_Some (full_ir st !! key) \/ exists k, key = ir_key nid k)
  /\ ((calls st' = calls st /\ is_Some e)
      \/ exists node _data,
           run_nodes st !! nid = Some node
           /\ calls st' = calls st ++ [(nid, _data)]
           /\ forall k v, has_field node k = true -> run_data st !! k = Some v ->
                          _data !! k = Some v).
Proof.
  unfold Chain_step.
  destruct (run_nodes st !! nid) as [node|] eqn:Hnode.
  2: { intros H. inversion H; subst. repeat split; eauto. }
  destruct (gather_edges _ _ _) as [_data|err].
  2: { intros H. inversion H; subst. repeat split; eauto. }
  destruct (call node _ true) as [[o err] node'] eqn:Hcall.
  apply Node_call_fields in Hcall as (Hfields & _ & _).
  assert (Hnodes : forall x, fields <$> <[nid := node']> (run_nodes st) !! x
                             = fields <$> run_nodes st !! x).
  { intros x. destruct (decide (nid = x)) as [<-|Hne].
    - rewrite lookup_insert_eq, Hnode. simpl. by rewrite Hfields.
    - by rewrite lookup_insert_ne. }
  assert (Hshared : forall k v, has_field node k = true -> run_data st !! k = Some v ->
            copy_shared node (run_data st) _data !! k = Some v).
  { intros k v. apply copy_shared_lookup. }
  destruct err as [err|].
  { intros H. inversion H; subst. simpl. repeat split; eauto 10. }
  destruct o; intros H; inversion H; subst; simpl; repeat split; eauto 10.
  intros key Hkey. by apply write_ir_lookup in Hkey.
Qed.

Lemma Chain_step_ok_calls self nid st st' :
  step self nid st = (st', None) -> (calls st').*1 = (calls st).*1 ++ [nid].
Proof.
  intros H. apply Chain_step_effect in H as (_ & _ & _ & [[_ [? ?]]|(n & d & _ & -> & _)]).
  - done.
  - by rewrite fmap_app.
Qed.

Lemma Chain_step_calls self nid st st' e :
  step self nid st = (st', e) ->
  (calls st').*1 = (calls st).*1 \/ (calls st').*1 = (calls st).*1 ++ [nid].
Proof.
  intros H. apply Chain_step_effect in H as (_ & _ & _ & [[-> _]|(n & d & _ & -> & _)]).
  - by left.
  - right. by rewrite fmap_app.
Qed.

(** *** The whole run *)

Lemma Chain_run_effect self order : forall st st' e,
  run self order st = (st', e) ->
  run_data st' = run_data st
  /\ (forall x, fields <$> run_nodes st' !! x = fields <$> run_nodes st !! x)
  /\ (exists done_, (calls st').*1 = (calls st).*1 ++ done_
                    /\ done_ `prefix_of` order
                    /\ (e = None -> done_ = order))
  /\ (forall key, is_Some (full_ir st' !! key) ->
        is_Some (full_ir st !! key) \/ exists m k, m ∈ order /\ key = ir_key m k)
  /\ (forall nid d, (nid, d) ∈ calls st' ->
        (nid, d) ∈ calls st
        \/ exists node, fields <$> run_nodes st !! nid = Some (fields node)
             /\ forall k v, has_field node k = true -> run_data st !! k = Some v ->
                            d !! k = Some v).
Proof.
  induction order as [|nid order IH]; intros st st' e H; simpl in H.
  - inversion H; subst. repeat split; eauto.
    exists []. rewrite app_nil_r. done.
  - destruct (step self nid st) as [st1 [e1|]] eqn:Hstep.
    + inversion H; subst.
      pose proof (Chain_step_calls _ _ _ _ _ Hstep) as Hc.
      apply Chain_step_effect in Hstep as (Hd & Hn & Hir & Hcalls).
      split; [done|]. split; [done|]. split; [|split].
      * destruct Hc as [Hc|Hc]; rewrite Hc.
        -- exists []. rewrite app_nil_r. split; [done|]. split; [apply prefix_nil|done].
        -- exists [nid]. split; [done|]. split; [|done].
           by apply prefix_cons, prefix_nil.
      * intros key Hkey. apply Hir in Hkey as [?|[k ->]]; [by left|].
        right. exists nid, k. split; [apply elem_of_cons; by left|done].
      * intros n d Hin. destruct Hcalls as [[Heq _]|(node & d' & Hnode & Heq & Hsh)];
          rewrite Heq in Hin; [by left|].
        apply elem_of_app in Hin as [?|Hin]; [by left|].
        apply list_elem_of_singleton in Hin. inversion Hin; subst.
        right. exists node. rewrite Hnode. done.
    + pose proof (Chain_step_ok_calls _ _ _ _ Hstep) as Hc.
      apply Chain_step_effect in Hstep as (Hd & Hn & Hir & Hcalls).
      apply IH in H as (Hd' & Hn' & (done_ & Hdone & Hpre & Hall) & Hir' & Hcalls').
      split; [congruence|]. split; [intros x; by rewrite Hn', Hn|]. split; [|split].
      * exists (nid :: done_). rewrite Hdone, Hc, <- app_assoc. split; [done|].
        split; [by apply prefix_cons|]. intros ->. by rewrite Hall.
      * intros key Hkey. apply Hir' in Hkey as [Hkey|(m & k & Hm & ->)].
        -- apply Hir in Hkey as [?|[k ->]]; [by left|].
           right. exists nid, k. split; [apply elem_of_cons; by left|done].
        -- right. exists m, k. split; [apply elem_of_cons; by right|done].
      * intros n d Hin. apply Hcalls' in Hin as [Hin|(node & Hnode & Hsh)].
        -- destruct Hcalls as [[Heq _]|(node & d' & Hnode & Heq & Hsh)];
             rewrite Heq in Hin; [by left|].
           apply elem_of_app in Hin as [?|Hin]; [by left|].
           apply list_elem_of_singleton in Hin. inversion Hin; subst.
           right. exists node. rewrite Hnode. done.
        -- right. exists node. rewrite <- Hn, Hnode. split; [done|].
           intros k v Hf Hk. apply Hsh; [done|]. by rewrite Hd.
Qed.

End Exec.

(** ** Chain construction *)

Lemma edge_pairs_elem e edges :
  e ∈ edges -> (src_node_id e, trg_node_id e) ∈ edge_pairs edges.
Proof. intros H. apply list_elem_of_fmap. by exists e. Qed.

Lemma endpoint_of_pairs x edges :
  x ∈ (edge_pairs edges).*1 \/ x ∈ (edge_pairs edges).*2 -> is_endpoint x edges.
Proof.
  unfold edge_pairs. rewrite <- !list_fmap_compose.
  intros [H|H]; apply list_elem_of_fmap in H as (e & -> & He); exists e; auto.
Qed.

Lemma Chain_init_ok node_list edge_list c :
  Chain_init node_list edge_list = Some (Ret c) ->
  topological_sort edge_list = Some (Ret (topo_order c))
  /\ edges c = edge_list
  /\ forall n, n ∈ topo_order c -> is_Some (nodes c !! n).
Proof.
  unfold Chain_init.
  destruct (topological_sort edge_list) as [[order|e]|]; simpl; [|done..].
  destruct (List.find _ order) as [missing|] eqn:Hfind; [done|].
  intros H. inversion H; subst; simpl. split; [done|]. split; [done|].
  intros n Hn. apply list_elem_of_In in Hn.
  pose proof (List.find_none _ _ Hfind n Hn) as Hb. simpl in Hb.
  apply bool_decide_eq_false in Hb. by apply not_eq_None_Some.
Qed.

Lemma Chain_init_not_dag node_list edge_list :
  topological_sort edge_list = Some (Raise NotDAGError) ->
  Chain_init node_list edge_list = Some (Raise NotDAGError).
Proof. unfold Chain_init. by intros ->. Qed.

(** C1. Topological soundness: when Chain construction succeeds,
    [topo_order] is the list [topological_sort] returned for the edge list,
    it lists no node twice, and for every edge the source node id occurs in
    it at a strictly smaller position than the target node id. *)
Theorem topological_soundness node_list edge_list c :
  Chain_init node_list edge_list = Some (Ret c) ->
  topological_sort edge_list = Some (Ret (topo_order c))
  /\ NoDup (topo_order c)
  /\ forall e, e ∈ edge_list ->
       precedes (src_node_id e) (trg_node_id e) (topo_order c).
Proof.
  intros (Hsort & _ & _)%Chain_init_ok. split; [done|].
  apply topological_sort_sound in Hsort as (Hnd & Hprec & _).
  split; [done|]. intros e He. by apply Hprec, edge_pairs_elem.
Qed.

(** C2. Cycle rejection: on an edge list whose graph has a cycle
    [topological_sort] raises NotDAGError, and so does Chain construction
    with any nodes; on an acyclic edge list [topological_sort] returns an
    order. In both cases the loop ends within its fuel. *)
Theorem cycle_rejection edge_list :
  (has_cycle edge_list ->
     topological_sort edge_list = Some (Raise NotDAGError)
     /\ forall node_list, Chain_init node_list edge_list = Some (Raise NotDAGError))
  /\ (~ has_cycle edge_list ->
        exists order, topological_sort edge_list = Some (Ret order)).
Proof.
  split.
  - intros Hc. apply topological_sort_cyclic in Hc. split; [done|].
    intros node_list. by apply Chain_init_not_dag.
  - apply topological_sort_acyclic.
Qed.

Lemma topological_soundness_witness :
  Chain_init [P1; P2] [P1_P2] = Some (Ret two_stage)
  /\ precedes "P1" "P2" (topo_order two_stage).
Proof.
  split; [vm_compute; reflexivity|].
  destruct (topological_soundness [P1; P2] [P1_P2] two_stage) as (_ & _ & H).
  - vm_compute. reflexivity.
  - apply (H P1_P2). apply elem_of_cons. by left.
Defined.

Lemma single_edge_acyclic a b : a <> b -> ~ has_cycle [E_ a b].
Proof.
  intros Hab [u Hu].
  assert (H : forall x y, path (edge_pairs [E_ a b]) x y -> x = a /\ y = b).
  { intros x y Hp. induction Hp as [x y Hxy|x y z Hxy Hyz [IH1 IH2]].
    - simpl in Hxy. apply list_elem_of_singleton in Hxy. by inversion Hxy.
    - simpl in Hxy. apply list_elem_of_singleton in Hxy. inversion Hxy; subst. done. }
  apply H in Hu as [-> <-]. done.
Qed.

Lemma two_cycle a b : has_cycle [E_ a b; E_ b a].
Proof.
  exists a. apply (path_cons _ a b a).
  - apply elem_of_cons. by left.
  - apply path_edge. simpl. apply elem_of_cons. right. apply elem_of_cons. by left.
Qed.

Lemma cycle_rejection_witness :
  (has_cycle [E_ "A" "B"; E_ "B" "A"]
   /\ topological_sort [E_ "A" "B"; E_ "B" "A"] = Some (Raise NotDAGError)
   /\ Chain_init [P1; P2] [E_ "A" "B"; E_ "B" "A"] = Some (Raise NotDAGError))
  /\ (~ has_cycle [E_ "A" "B"]
      /\ exists order, topological_sort [E_ "A" "B"] = Some (Ret order)).
Proof.
  split.
  - split; [apply two_cycle|].
    destruct (cycle_rejection [E_ "A" "B"; E_ "B" "A"]) as [H _].
    destruct (H (two_cycle "A" "B")) as [H1 H2]. split; [exact H1|apply H2].
  - assert (Hac : ~ has_cycle [E_ "A" "B"]) by (by apply single_edge_acyclic).
    split; [exact Hac|].
    destruct (cycle_rejection [E_ "A" "B"]) as [_ H]. exact (H Hac).
Defined.

(** *** A writable path, written and read back *)

Lemma accessor_inverse_witness :
  writable raw_response content_path = true
  /\ get_value_by_keys no_int
       (put_value_by_keys raw_response content_path (VStr "hello")) content_path
     = Ret (VStr "hello").
Proof.
  split; [vm_compute; reflexivity|].
  apply (accessor_inverse no_int content_path raw_response (VStr "hello")).
  vm_compute. reflexivity.
Defined.

(** Where the leaf is not writable the round trip fails: the list that
    [put_value_by_keys] creates for an integer segment is empty, so the write
    is dropped. *)
Example fresh_list_not_writable :
  writable (VDict []) [KStr "a"; KInt 0] = false
  /\ get_value_by_keys no_int
       (put_value_by_keys (VDict []) [KStr "a"; KInt 0] (VNum 3)) [KStr "a"; KInt 0]
     = Ret VNone.
Proof. split; vm_compute; reflexivity. Qed.

(** ** Missing intermediates *)

Lemma gather_connections_flat ir src conns d :
  gather_connections ir src conns d
  = gather_flat ir ((fun c => (src, c.1, c.2)) <$> conns) d.
Proof.
  revert d. induction conns as [|c conns IH]; intros d; simpl; [done|].
  destruct (default VNone (ir !! ir_key src c.1)); try done; apply IH.
Qed.

Lemma gather_flat_app ir l1 l2 d :
  gather_flat ir (l1 ++ l2) d
  = bind (gather_flat ir l1 d) (fun d' => gather_flat ir l2 d').
Proof.
  revert d. induction l1 as [|[[src o] f] l1 IH]; intros d; simpl; [done|].
  destruct (default VNone (ir !! ir_key src o)); try done; apply IH.
Qed.

Lemma gather_edges_flat ir incoming d :
  gather_edges ir incoming d
  = gather_flat ir
      (incoming ≫= fun e => (fun c => (src_node_id e, c.1, c.2)) <$> connections e) d.
Proof.
  revert d. induction incoming as [|e incoming IH]; intros d; simpl; [done|].
  rewrite gather_flat_app, gather_connections_flat.
  destruct (gather_flat ir _ d); simpl; [apply IH|done].
Qed.

Lemma gather_flat_missing ir pre src o f post d :
  Forall (fun c => ir_available ir (ir_key c.1.1 c.1.2)) pre ->
  ir !! ir_key src o = None \/ ir !! ir_key src o = Some VNone ->
  gather_flat ir (pre ++ (src, o, f) :: post) d
  = Raise (MissingIntermediate (ir_key src o)).
Proof.
  intros Hpre Hmiss. revert d.
  induction Hpre as [|[[s' o'] f'] pre (v & Hv & Hnn) _ IH]; intros d; simpl.
  - by destruct Hmiss as [-> | ->].
  - simpl in Hv. rewrite Hv. simpl. destruct v; try done; apply IH.
Qed.

Lemma gather_flat_ok ir conns d :
  Forall (fun c => ir_available ir (ir_key c.1.1 c.1.2)) conns ->
  exists d', gather_flat ir conns d = Ret d'.
Proof.
  intros H. revert d.
  induction H as [|[[s' o'] f'] conns (v & Hv & Hnn) _ IH]; intros d; simpl; [eauto|].
  simpl in Hv. rewrite Hv. simpl. destruct v; try done; apply IH.
Qed.

(** C10. A null IR entry counts as a missing one: when the executor reaches
    node [nid] and reads its incoming connections in order, the first
    connection [(src, o, f)] whose key [src/o] is absent from the IR, or is
    present with the value null, ends the run with MissingIntermediate for
    that key, the state untouched. *)
Theorem null_intermediate_is_missing (int_of_str : string -> option Z)
    (format_exc : exn -> string) self nid rest st node pre src o f post :
  run_nodes st !! nid = Some node ->
  incoming_connections self nid = pre ++ (src, o, f) :: post ->
  Forall (fun c => ir_available (full_ir st) (ir_key c.1.1 c.1.2)) pre ->
  full_ir st !! ir_key src o = None \/ full_ir st !! ir_key src o = Some VNone ->
  Chain_run int_of_str format_exc self (nid :: rest) st
  = (st, Some (MissingIntermediate (ir_key src o))).
Proof.
  intros Hnode Hconns Hpre Hmiss. simpl. unfold Chain_step. rewrite Hnode.
  rewrite gather_edges_flat. unfold incoming_connections in Hconns.
  rewrite Hconns, (gather_flat_missing _ pre src o f post ∅ Hpre Hmiss). done.
Qed.

Lemma null_intermediate_is_missing_witness :
  full_ir after_Ghost !! ir_key "Ghost" "y" = Some VNone
  /\ Chain_run no_int plain_trace ghost_chain ["N"] after_Ghost
     = (after_Ghost, Some (MissingIntermediate "Ghost/y")).
Proof.
  split; [vm_compute; reflexivity|].
  apply (null_intermediate_is_missing no_int plain_trace ghost_chain "N" []
           after_Ghost N [] "Ghost" "y" "x" []).
  - vm_compute. reflexivity.
  - vm_compute. reflexivity.
  - constructor.
  - right. vm_compute. reflexivity.
Defined.

(** The same run from the start: projecting [y] out of the empty payload
    writes null under [Ghost/y], and [N] then fails on it. *)
Example ghost_run :
  (Chain_call no_int plain_trace ghost_chain ∅).2
  = Some (MissingIntermediate "Ghost/y").
Proof. vm_compute. reflexivity. Qed.

(** ** Shared inputs *)

(** C7. Shared-input routing: in a run of [Chain.__call__] on [data], the
    nodes are invoked in [topo_order] (all of them when the run succeeds),
    every invocation of a node that declares a field [k] present in [data]
    receives [k] bound to [data[k]], whatever the incoming edges wrote to
    [k], and the run leaves [data] as it was. *)
Theorem shared_input_routing (int_of_str : string -> option Z)
    (format_exc : exn -> string) c data st e :
  Chain_call int_of_str format_exc c data = (st, e) ->
  run_data st = data
  /\ (calls st).*1 `prefix_of` topo_order c
  /\ (e = None -> (calls st).*1 = topo_order c)
  /\ forall nid _data node k v,
       (nid, _data) ∈ calls st -> nodes c !! nid = Some node ->
       has_field node k = true -> data !! k = Some v -> _data !! k = Some v.
Proof.
  unfold Chain_call. intros H.
  apply Chain_run_effect in H as (Hd & _ & (done_ & Hdone & Hpre & Hall) & _ & Hcalls).
  simpl in *. split; [done|]. split; [by rewrite Hdone|]. split.
  - intros He. rewrite Hdone. by apply Hall.
  - intros nid _data node k v Hin Hnode Hf Hk.
    apply Hcalls in Hin as [Hin|(node' & Hfields & Hsh)]; [by apply elem_of_nil in Hin|].
    rewrite Hnode in Hfields. simpl in Hfields. inversion Hfields as [Hfs].
    apply Hsh; [|done]. by rewrite <- (has_field_fields node node' k Hfs).
Qed.

Lemma shared_input_routing_witness :
  Chain_call no_int plain_trace two_stage shared_inputs = (shared_final, None)
  /\ ("P2", P2_inputs) ∈ calls shared_final
  /\ run_data shared_final = shared_inputs
  /\ P2_inputs !! "text" = Some (VStr "override").
Proof.
  assert (Hrun : Chain_call no_int plain_trace two_stage shared_inputs
                 = (shared_final, None)) by (vm_compute; reflexivity).
  assert (Hcall : ("P2", P2_inputs) ∈ calls shared_final).
  { apply list_elem_of_lookup. exists 1%nat. vm_compute. reflexivity. }
  destruct (shared_input_routing no_int plain_trace two_stage shared_inputs
              shared_final None Hrun) as (Hdata & _ & _ & Hshared).
  split; [exact Hrun|]. split; [exact Hcall|]. split; [exact Hdata|].
  apply (Hshared "P2" P2_inputs P2 "text" (VStr "override") Hcall);
    vm_compute; reflexivity.
Defined.

(** ** Nodes on no edge *)

Lemma topological_sort_nil : topological_sort [] = Some (Ret []).
Proof. reflexivity. Qed.

(** C9, as the code has it. A node that is the endpoint of no edge is not in
    [topo_order], no run invokes it, and every IR key a run writes is
    [<m>/<name>] for a node [m] of [topo_order], hence for another node; with
    an empty edge list [topo_order] is empty, no node is invoked and the IR
    stays empty. (The text of such a key may still begin with the id of the
    node left out, see [isolated_prefix_counterexample].) *)
Theorem isolated_node_never_runs (int_of_str : string -> option Z)
    (format_exc : exn -> string) node_list edge_list c n data st e :
  Chain_init node_list edge_list = Some (Ret c) ->
  ~ is_endpoint n edge_list ->
  Chain_call int_of_str format_exc c data = (st, e) ->
  (n ∉ topo_order c)
  /\ (n ∉ (calls st).*1)
  /\ (forall key, is_Some (full_ir st !! key) ->
        exists m k, m ∈ topo_order c /\ m <> n /\ key = ir_key m k)
  /\ (edge_list = [] -> topo_order c = [] /\ calls st = [] /\ full_ir st = ∅).
Proof.
  intros (Hsort & _ & _)%Chain_init_ok Hn Hrun.
  assert (Hnot : n ∉ topo_order c).
  { intros Hin. apply Hn, endpoint_of_pairs.
    by apply (topological_sort_sound _ _ Hsort). }
  split; [done|].
  pose proof Hrun as Hrun'. unfold Chain_call in Hrun'.
  apply Chain_run_effect in Hrun' as (_ & _ & (done_ & Hdone & Hpre & _) & Hir & _).
  simpl in Hdone, Hir. split; [|split].
  - rewrite Hdone. intros Hin. apply Hnot.
    destruct Hpre as [k ->]. apply elem_of_app. by left.
  - intros key Hkey. apply Hir in Hkey as [[v Hv]|(m & k & Hm & ->)].
    + by rewrite lookup_empty in Hv.
    + exists m, k. split; [done|]. split; [|done]. by intros ->.
  - intros ->. rewrite topological_sort_nil in Hsort.
    assert (Hnil : topo_order c = []) by congruence.
    unfold Chain_call in Hrun. rewrite Hnil in Hrun. simpl in Hrun.
    inversion Hrun; subst. done.
Qed.

Lemma isolated_node_never_runs_witness :
  Chain_init [node_A; node_AB; node_C] [AB_C] = Some (Ret overlap_chain)
  /\ ~ is_endpoint "A" [AB_C]
  /\ ("A" ∉ topo_order overlap_chain)
  /\ ("A" ∉ (calls (Chain_call no_int plain_trace overlap_chain ∅).1).*1).
Proof.
  assert (Hinit : Chain_init [node_A; node_AB; node_C] [AB_C] = Some (Ret overlap_chain))
    by (vm_compute; reflexivity).
  assert (Hiso : ~ is_endpoint "A" [AB_C]).
  { intros (e & He & Hor). apply list_elem_of_singleton in He. subst e.
    simpl in Hor. destruct Hor; discriminate. }
  destruct (isolated_node_never_runs no_int plain_trace
              [node_A; node_AB; node_C] [AB_C] overlap_chain "A" ∅
              (Chain_call no_int plain_trace overlap_chain ∅).1
              (Chain_call no_int plain_trace overlap_chain ∅).2 Hinit Hiso)
    as (H1 & H2 & _).
  - apply surjective_pairing.
  - split; [exact Hinit|]. split; [exact Hiso|]. split; [exact H1|exact H2].
Defined.

(** C9, as stated, fails: [A] is on no edge, yet the run writes the entry
    [A/B/x], which begins with [A/]. *)
Lemma isolated_prefix_counterexample :
  ~ (forall (int_of_str : string -> option Z) (format_exc : exn -> string)
            node_list edge_list c n data st e key,
       Chain_init node_list edge_list = Some (Ret c) ->
       ~ is_endpoint n edge_list ->
       Chain_call int_of_str format_exc c data = (st, e) ->
       is_Some (full_ir st !! key) ->
       String.prefix (n +:+ "/") key = false).
Proof.
  intros H.
  specialize (H no_int plain_trace [node_A; node_AB; node_C] [AB_C] overlap_chain
                "A" ∅ (Chain_call no_int plain_trace overlap_chain ∅).1
                (Chain_call no_int plain_trace overlap_chain ∅).2 "A/B/x").
  assert (Hfalse : String.prefix ("A" +:+ "/") "A/B/x" = false); [|discriminate Hfalse].
  apply H.
  - vm_compute. reflexivity.
  - intros (e & He & Hor). apply list_elem_of_singleton in He. subst e.
    simpl in Hor. destruct Hor; discriminate.
  - apply surjective_pairing.
  - vm_compute. eauto.
Qed.

(** ** Node invocation *)

(** C3, as stated, fails: called with [ret_fields] false, [Fetch] returns
    the projection [{"text": ...}], not the payload its callable produced. *)
Lemma unprojected_payload_counterexample :
  ~ (forall (int_of_str : string -> option Z) (format_exc : exn -> string)
            (self : Node) data payload,
       dom data ⊆ template_keys self ->
       fn self data = (payload, None) ->
       (Node_call int_of_str format_exc self data false).1 = (payload, None)).
Proof.
  intros H.
  specialize (H no_int plain_trace Fetch Fetch_inputs Fetch_payload).
  assert (Hne : (Node_call no_int plain_trace Fetch Fetch_inputs false).1
                <> (Fetch_payload, None)).
  { vm_compute. intros Heq. discriminate Heq. }
  apply Hne, H.
  - vm_compute. set_solver.
  - reflexivity.
Qed.

(** C3, as the code has it. [Node.__call__] never reads [ret_fields]: with
    inputs of declared names only and a callable that succeeds with
    [(payload, None)], the call returns, whatever the flag, what it returns
    with the flag true, namely the map read back from the output Vars after
    each was set to [get_value_by_keys(payload, o._loc)]. *)
Theorem ret_fields_ignored (int_of_str : string -> option Z)
    (format_exc : exn -> string) self data payload os ret_fields :
  dom data ⊆ template_keys self ->
  fn self data = (payload, None) ->
  project_outputs int_of_str payload (outputs self) = (os, None) ->
  Node_call int_of_str format_exc self data ret_fields
  = Node_call int_of_str format_exc self data true
  /\ (Node_call int_of_str format_exc self data ret_fields).1 = (outputs_dict os, None)
  /\ Forall2 (projected int_of_str payload) (outputs self) os.
Proof.
  intros Hkeys Hfn Hproj. split; [reflexivity|]. split.
  - unfold Node_call. rewrite decide_True by done. rewrite Hfn, Hproj. reflexivity.
  - by apply project_outputs_ok.
Qed.

Lemma ret_fields_ignored_witness :
  (dom Fetch_inputs ⊆ template_keys Fetch
   /\ fn Fetch Fetch_inputs = (Fetch_payload, None)
   /\ project_outputs no_int Fetch_payload (outputs Fetch) = ([Fetch_text_bound], None))
  /\ (Node_call no_int plain_trace Fetch Fetch_inputs false).1
     = (VDict [(KStr "text", VStr "alpha-beta")], None).
Proof.
  assert (H1 : dom Fetch_inputs ⊆ template_keys Fetch) by (vm_compute; set_solver).
  assert (H2 : fn Fetch Fetch_inputs = (Fetch_payload, None)) by reflexivity.
  assert (H3 : project_outputs no_int Fetch_payload (outputs Fetch)
               = ([Fetch_text_bound], None)) by reflexivity.
  split; [by repeat split|].
  destruct (ret_fields_ignored no_int plain_trace Fetch Fetch_inputs Fetch_payload
              [Fetch_text_bound] false H1 H2 H3) as (_ & Hres & _).
  exact Hres.
Defined.

(** C8, as stated, fails: the output Var of [Fetch] holds no value before a
    projected call and holds the projected text after it. *)
Lemma output_value_stored_counterexample :
  ~ (forall (int_of_str : string -> option Z) (format_exc : exn -> string)
            (self : Node) data r self',
       Node_call int_of_str format_exc self data true = ((r, None), self') ->
       value <$> outputs self' = value <$> outputs self).
Proof.
  intros H.
  specialize (H no_int plain_trace Fetch Fetch_inputs
                (VDict [(KStr "text", VStr "alpha-beta")])
                (with_outputs [Fetch_text_bound] Fetch)).
  assert (Hne : value <$> outputs (with_outputs [Fetch_text_bound] Fetch)
                <> value <$> outputs Fetch).
  { vm_compute. intros Heq. discriminate Heq. }
  apply Hne, H. vm_compute. reflexivity.
Qed.

(** C8, as the code has it. A successful projected call stores the
    projected values on the Node's output Vars: afterwards each output Var
    is the one before the call with [value] set to
    [get_value_by_keys(payload, o._loc)], nothing else of the Node changes,
    and the returned map is read back from those Vars. *)
Theorem output_values_stored_on_vars (int_of_str : string -> option Z)
    (format_exc : exn -> string) self data r self' :
  Node_call int_of_str format_exc self data true = ((r, None), self') ->
  exists payload,
    fn self data = (payload, None)
    /\ Forall2 (projected int_of_str payload) (outputs self) (outputs self')
    /\ r = outputs_dict (outputs self')
    /\ self' = with_outputs (outputs self') self.
Proof.
  intros (payload & _ & Hfn & Hproj & Hr & Hself)%Node_call_success.
  exists payload. split; [done|]. split; [by apply project_outputs_ok|done].
Qed.

Lemma output_values_stored_on_vars_witness :
  Node_call no_int plain_trace Fetch Fetch_inputs true
  = ((VDict [(KStr "text", VStr "alpha-beta")], None),
     with_outputs [Fetch_text_bound] Fetch)
  /\ exists payload,
       fn Fetch Fetch_inputs = (payload, None)
       /\ Forall2 (projected no_int payload) (outputs Fetch) [Fetch_text_bound].
Proof.
  assert (Hcall : Node_call no_int plain_trace Fetch Fetch_inputs true
                  = ((VDict [(KStr "text", VStr "alpha-beta")], None),
                     with_outputs [Fetch_text_bound] Fetch))
    by (vm_compute; reflexivity).
  split; [exact Hcall|].
  destruct (output_values_stored_on_vars no_int plain_trace Fetch Fetch_inputs _ _ Hcall)
    as (payload & Hfn & Hall & _).
  exists payload. split; [exact Hfn|exact Hall].
Defined.

(** ** Native-signature inference *)

Lemma length_list_times {A} (l : list A) n :
  length (list_times l n) = (n * length l)%nat.
Proof. induction n as [|n IH]; simpl; [done|]. rewrite length_app, IH. lia. Qed.

Lemma items_with_items l x : items (with_items l x) = l.
Proof. by destruct x. Qed.

(** C4 at its failing input. [Optional[str]] reaches the function as the
    union of [str] and the class [NoneType]; [arg is not None] drops neither,
    so the union keeps two members and, for a parameter, the [NoneType]
    member is refused: [func_to_vars] raises instead of returning the schema
    of [str]. The same holds for [Optional[T]] whatever [T] is. *)
Theorem optional_parameter_refused :
  func_to_vars [mkPyParameter "x" (Optional (AClass Tstr)) None]
  = Raise (UnsupportedType "i0")
  /\ pyannotation_to_json_schema (AClass Tstr) false false false
     = Ret (Var_ (TName "string"))
  /\ forall pname T default_,
       exists e, func_to_vars [mkPyParameter pname (Optional T) default_] = Raise e.
Proof.
  split; [reflexivity|]. split; [reflexivity|].
  intros pname T default_. unfold func_to_vars, param_to_var, Optional.
  cbn [annotation].
  change (pyannotation_to_json_schema (AGeneric OUnion [T; AClass TNoneType])
            false false false)
    with (bind (if is_not_None T
                then bind (pyannotation_to_json_schema T false false false)
                          (fun v => bind (Raise (UnsupportedType "i0"))
                                         (fun vs => Ret (v :: vs)))
                else Raise (UnsupportedType "i0"))
               (fun vs => match vs with
                          | [v] => Ret v
                          | _ => Ret (Var_ (TUnion vs))
                          end)).
  destruct (is_not_None T); [|simpl; eauto].
  destruct (pyannotation_to_json_schema T false false false); simpl; eauto.
Qed.

(** In return position the null member is allowed, and the union stays a
    union: this is the shape [func_to_return_vars] looks for. *)
Example optional_exception_return :
  pyannotation_to_json_schema (Optional (AClass TException)) true true true
  = Ret (Var_ (TUnion [Var_ (TName "exception"); Var_ (TName "null")])).
Proof. reflexivity. Qed.

Example union_two_members :
  pyannotation_to_json_schema (Union [AClass Tint; AClass Tstr]) false false false
  = Ret (Var_ (TUnion [Var_ (TName "number"); Var_ (TName "string")])).
Proof. reflexivity. Qed.

(** C5 at its failing input. The bare tuple [(int, str)] gives an array of
    four items, [string] and the schema of the second member, twice over,
    where the typed [Tuple[int, str]] gives the two member schemas; a bare
    tuple of any arity gives twice as many items as it has members, if it
    gives a schema at all. *)
Theorem bare_tuple_items_repeated :
  pyannotation_to_json_schema (ATuple [AClass Tint; AClass Tstr]) false false false
  = Ret (with_items [Var_ (TName "string"); Var_ (TName "string");
                     Var_ (TName "string"); Var_ (TName "string")]
                    (Var_ (TName "array")))
  /\ pyannotation_to_json_schema (Tuple [AClass Tint; AClass Tstr]) false false false
     = Ret (with_items [Var_ (TName "number"); Var_ (TName "string")]
                       (Var_ (TName "array")))
  /\ forall xs allow_any allow_exc allow_none,
       match pyannotation_to_json_schema (ATuple xs) allow_any allow_exc allow_none with
       | Ret v => length (items v) = (2 * length xs)%nat
       | Raise _ => True
       end.
Proof.
  split; [reflexivity|]. split; [reflexivity|].
  intros xs allow_any allow_exc allow_none.
  destruct xs as [|x0 [|x1 rest]]; [done..|].
  change (pyannotation_to_json_schema (ATuple (x0 :: x1 :: rest))
            allow_any allow_exc allow_none)
    with (bind (pyannotation_to_json_schema x1 allow_any allow_exc allow_none)
               (fun v => Ret (with_items
                                (list_times [Var_ (TName "string"); v]
                                            (length (x0 :: x1 :: rest)))
                                (Var_ (TName "array"))))).
  destruct (pyannotation_to_json_schema x1 allow_any allow_exc allow_none);
    cbn [bind]; [|done].
  rewrite items_with_items, length_list_times. simpl. lia.
Qed.

(** ** The scenarios of the design document *)

(** Two-stage chain: both nodes run and each writes its [text]. *)
Example two_stage_run :
  let r := Chain_call no_int plain_trace two_stage {[ "url" := VStr "x" ]} in
  r.2 = None
  /\ full_ir r.1 = {[ "P1/text" := VStr "alpha-beta"; "P2/text" := VStr "alpha-beta" ]}
  /\ out r.1 = VDict [(KStr "text", VStr "alpha-beta")].
Proof. vm_compute. repeat split; reflexivity. Qed.

(** Unknown input: [N] declares [x] only. *)
Example unknown_input :
  (Node_call no_int plain_trace N {[ "x" := VStr "1"; "b" := VStr "2" ]} true).1.2
  = Some (UnknownInputs ["b"]).
Proof. vm_compute. reflexivity. Qed.

(** Missing node: an edge names an id that no node carries. *)
Example missing_node :
  Chain_init [P1] [P1_P2] = Some (Raise (MissingNode "P2")).
Proof. vm_compute. reflexivity. Qed.

(** * Further properties *)

(** ** Nested-path accessors, continued *)

Section AccessorsMore.

Variable int_of_str : string -> option Z.
Local Abbreviation get := (get_value_by_keys int_of_str).

Lemma get_None keys : get VNone keys = Ret VNone.
Proof. by destruct keys. Qed.

(** X1. Paths compose: reading [p ++ q] is reading [p] and then [q] from
    what was found, errors included; once the walk has left the structure
    the null it carries absorbs the rest of the path. *)
Theorem get_path_composes obj p q :
  get_value_by_keys int_of_str obj (p ++ q)
  = bind (get_value_by_keys int_of_str obj p)
         (fun o => get_value_by_keys int_of_str o q).
Proof.
  revert obj. induction p as [|k p IH]; intros obj; [done|].
  simpl. destruct obj as [| | | |xs|xs|d|]; simpl; try by rewrite get_None.
  - destruct (py_int int_of_str k) as [i|e]; simpl; [|done].
    destruct (decide _); [apply IH|]. simpl. by rewrite get_None.
  - destruct (py_int int_of_str k) as [i|e]; simpl; [|done].
    destruct (decide _); [apply IH|]. simpl. by rewrite get_None.
  - apply IH.
Qed.

(** X2. The only way [get_value_by_keys] fails is [int()] refusing a string
    segment of the path: any exception it raises is that [ValueError], for a
    string that occurs in the path. Missing keys, indices out of range and
    scalars met on the way give null instead. *)
Theorem get_fails_only_through_int keys : forall obj e,
  get_value_by_keys int_of_str obj keys = Raise e ->
  exists s, e = IntValueError s /\ KStr s ∈ keys /\ int_of_str s = None.
Proof.
  induction keys as [|k keys IH]; intros obj e H; [done|].
  assert (Hrest : forall o, get o keys = Raise e ->
            exists s, e = IntValueError s /\ KStr s ∈ k :: keys /\ int_of_str s = None).
  { intros o Ho. destruct (IH o e Ho) as (s & ? & ? & ?). exists s.
    split; [done|]. split; [by apply elem_of_cons; right|done]. }
  assert (Hseq : forall xs : list Value,
            bind (py_int int_of_str k)
                 (fun i => if decide (0 <= i < Z.of_nat (length xs))
                           then get (default VNone (xs !! Z.to_nat i)) keys
                           else Ret VNone) = Raise e ->
            exists s, e = IntValueError s /\ KStr s ∈ k :: keys /\ int_of_str s = None).
  { intros xs Hx. destruct k as [s|i]; simpl in Hx.
    - destruct (int_of_str s) as [i|] eqn:Hs; simpl in Hx.
      + destruct (decide _); [by eapply Hrest|done].
      + inversion Hx; subst. exists s. split; [done|].
        split; [by apply elem_of_cons; left|done].
    - destruct (decide _); [by eapply Hrest|done]. }
  simpl in H. destruct obj as [| | | |xs|xs|d|]; try done.
  - by apply (Hseq xs).
  - by apply (Hseq xs).
  - by eapply Hrest.
Qed.

Lemma dict_set_set d k v w : dict_set (dict_set d k v) k w = dict_set d k w.
Proof.
  induction d as [|[k' v'] d IH]; simpl.
  - by rewrite decide_True.
  - destruct (decide (k' = k)) as [->|Hne]; simpl.
    + by rewrite decide_True.
    + rewrite decide_False by done. by rewrite IH.
Qed.

Lemma put_step obj key next rest v :
  put_value_by_keys obj (key :: next :: rest) v
  = match obj, key with
    | VDict d, _ =>
        VDict (dict_set d key
          (put_value_by_keys (put_child (dict_get d key) next) (next :: rest) v))
    | VList xs, KInt i =>
        if decide (0 <= i < Z.of_nat (length xs))
        then VList (<[Z.to_nat i :=
               put_value_by_keys (put_child (xs !! Z.to_nat i) next) (next :: rest) v]> xs)
        else obj
    | _, _ => obj
    end.
Proof.
  destruct obj as [| | | |xs| |d|]; try done.
  destruct key as [s|i]; [done|].
  cbn [put_value_by_keys]. destruct (decide _) as [Hi|]; [|done].
  cbv zeta. destruct (xs !! Z.to_nat i) eqn:Hx; [done|].
  apply lookup_ge_None in Hx. lia.
Qed.

Lemma put_container obj keys v :
  is_container obj = true -> is_container (put_value_by_keys obj keys v) = true.
Proof.
  intros Hc. destruct keys as [|k [|next rest]]; [done| |].
  - destruct obj; try done. destruct k; [done|]. simpl. by destruct (decide _).
  - rewrite put_step. destruct obj; try done. destruct k; [done|]. by destruct (decide _).
Qed.

Lemma put_child_container existing next : is_container (put_child existing next) = true.
Proof.
  unfold put_child. destruct existing as [c|]; [|by destruct next].
  destruct (is_container c) eqn:Hc; [done|by destruct next].
Qed.

Lemma put_child_id c next : is_container c = true -> put_child (Some c) next = c.
Proof. intros H. unfold put_child. by rewrite H. Qed.

(** X3. The last write wins: writing [w] at a path after writing [v] there
    leaves the structure as writing [w] alone does, also where the write is
    dropped and where it creates or replaces intermediate containers. *)
Theorem put_last_write_wins keys : forall obj v w,
  put_value_by_keys (put_value_by_keys obj keys v) keys w = put_value_by_keys obj keys w.
Proof.
  induction keys as [|k keys IH]; intros obj v w; [done|].
  destruct keys as [|next rest].
  - destruct obj as [| | | |xs| |d|]; try done.
    + destruct k as [s|i]; [done|]. cbn [put_value_by_keys].
      destruct (decide (0 <= i < Z.of_nat (length xs))) as [Hi|Hi].
      * cbn [put_value_by_keys]. rewrite length_insert, decide_True by done.
        by rewrite list_insert_insert_eq.
      * cbn [put_value_by_keys]. by rewrite decide_False.
    + simpl. by rewrite dict_set_set.
  - rewrite !put_step. destruct obj as [| | | |xs| |d|]; try done.
    + destruct k as [s|i]; [done|].
      destruct (decide (0 <= i < Z.of_nat (length xs))) as [Hi|Hi].
      * rewrite length_insert, decide_True by done.
        rewrite list_lookup_insert_eq by lia.
        rewrite put_child_id by apply put_container, put_child_container.
        by rewrite IH, list_insert_insert_eq.
      * by rewrite decide_False.
    + rewrite dict_get_set_eq.
      rewrite put_child_id by apply put_container, put_child_container.
      by rewrite IH, dict_set_set.
Qed.


End AccessorsMore.

Lemma get_fails_only_through_int_witness :
  get_value_by_keys no_int (VList [VStr "a"]) [KStr "first"]
  = Raise (IntValueError "first")
  /\ exists s, IntValueError "first" = IntValueError s
               /\ KStr s ∈ [KStr "first"] /\ no_int s = None.
Proof.
  split; [reflexivity|].
  apply (get_fails_only_through_int no_int [KStr "first"] (VList [VStr "a"])).
  reflexivity.
Defined.


Lemma dict_set_keys d k v :
  dict_keys (dict_set d k v)
  = if decide (k ∈ dict_keys d) then dict_keys d else dict_keys d ++ [k].
Proof.
  unfold dict_keys. induction d as [|[k' v'] d IH]; [done|].
  cbn [dict_set]. destruct (decide (k' = k)) as [->|Hne]; rewrite !fmap_cons; cbn [fst].
  - rewrite decide_True; [done|]. apply elem_of_cons. by left.
  - rewrite IH. destruct (decide (k ∈ d.*1)) as [Hin|Hnin].
    + rewrite decide_True; [done|]. apply elem_of_cons. by right.
    + rewrite decide_False; [done|]. rewrite elem_of_cons. intros [->|?]; done.
Qed.

(** X5. A write keeps the shape of what it is applied to: a list stays a
    list of the same length (no append, an index out of range is dropped), a
    dict stays a dict whose keys are the old ones in their order, with the
    first segment added at the end if it was not a key, and anything else (a
    tuple, a scalar, null) is left as it is. *)
Theorem put_keeps_shape obj k rest v :
  match obj with
  | VList xs =>
      exists xs', put_value_by_keys obj (k :: rest) v = VList xs'
                  /\ length xs' = length xs
  | VDict d =>
      exists d', put_value_by_keys obj (k :: rest) v = VDict d'
                 /\ dict_keys d'
                    = if decide (k ∈ dict_keys d) then dict_keys d else dict_keys d ++ [k]
  | _ => put_value_by_keys obj (k :: rest) v = obj
  end.
Proof.
  destruct rest as [|next rest].
  - destruct obj as [| | | |xs| |d|]; try done.
    + destruct k as [s|i]; [by exists xs|]. cbn [put_value_by_keys].
      destruct (decide _); [|by exists xs].
      eexists. split; [done|]. by rewrite length_insert.
    + eexists. split; [done|]. apply dict_set_keys.
  - rewrite put_step. destruct obj as [| | | |xs| |d|]; try done.
    + destruct k as [s|i]; [by exists xs|].
      destruct (decide _); [|by exists xs].
      eexists. split; [done|]. by rewrite length_insert.
    + eexists. split; [done|]. apply dict_set_keys.
Qed.

(** ** Adjacency lists and edges *)

Lemma edge_pairs_edge_map adj : edge_pairs (adjacency_list_to_edge_map adj) = adj_pairs adj.
Proof.
  unfold edge_pairs, adjacency_list_to_edge_map, adj_pairs.
  induction adj as [|[s ds] adj IH]; [done|].
  rewrite !bind_cons, fmap_app, IH. f_equal.
  rewrite <- list_fmap_compose. done.
Qed.

Lemma adj_append_fresh adj s d : s ∉ adj.*1 -> adj_append adj s d = adj ++ [(s, [d])].
Proof.
  induction adj as [|[k ds] adj IH]; intros Hs; [done|].
  rewrite fmap_cons in Hs. cbn [fst] in Hs. apply not_elem_of_cons in Hs as [Hne Hs].
  cbn [adj_append]. rewrite decide_False by done. by rewrite IH.
Qed.

Lemma adj_append_last adj s ds d :
  s ∉ adj.*1 -> adj_append (adj ++ [(s, ds)]) s d = adj ++ [(s, ds ++ [d])].
Proof.
  induction adj as [|[k ds'] adj IH]; intros Hs.
  - simpl. by rewrite decide_True.
  - rewrite fmap_cons in Hs. cbn [fst] in Hs. apply not_elem_of_cons in Hs as [Hne Hs].
    simpl. rewrite decide_False by done. by rewrite IH.
Qed.

Lemma foldl_adj_group acc s ds0 ds :
  s ∉ acc.*1 ->
  foldl (fun adj e => adj_append adj (src_node_id e) (trg_node_id e))
        (acc ++ [(s, ds0)]) ((fun dst => mkEdge s dst []) <$> ds)
  = acc ++ [(s, ds0 ++ ds)].
Proof.
  intros Hs. revert ds0. induction ds as [|d ds IH]; intros ds0; simpl.
  - by rewrite app_nil_r.
  - rewrite adj_append_last by done. rewrite IH, <- app_assoc. done.
Qed.

Lemma adj_round_trip_acc adj : forall acc,
  NoDup (acc.*1 ++ adj.*1) ->
  Forall (fun p => p.2 <> []) adj ->
  foldl (fun adj e => adj_append adj (src_node_id e) (trg_node_id e))
        acc (adjacency_list_to_edge_map adj)
  = acc ++ adj.
Proof.
  induction adj as [|[s ds] adj IH]; intros acc Hnd Hne.
  - simpl. by rewrite app_nil_r.
  - unfold adjacency_list_to_edge_map. rewrite bind_cons, foldl_app.
    fold (adjacency_list_to_edge_map adj).
    inversion Hne as [|? ? Hds Hne']; subst. simpl in Hds.
    rewrite fmap_cons in Hnd. cbn [fst] in Hnd.
    assert (Hs : s ∉ acc.*1).
    { apply NoDup_app in Hnd as (_ & Hdisj & _). intros Hin.
      apply (Hdisj s Hin), elem_of_cons. by left. }
    destruct ds as [|d ds]; [done|].
    rewrite fmap_cons. cbn [foldl src_node_id trg_node_id].
    rewrite adj_append_fresh by done.
    rewrite (foldl_adj_group acc s [d] ds Hs). cbn [app].
    rewrite IH; [by rewrite <- app_assoc| |done].
    rewrite fmap_app, fmap_cons. cbn [fst fmap list_fmap].
    rewrite <- app_assoc. done.
Qed.

Lemma adj_append_nonempty adj s d :
  Forall (fun p => p.2 <> []) adj -> Forall (fun p => p.2 <> []) (adj_append adj s d).
Proof.
  induction 1 as [|[k ds] adj Hk Hrest IH]; simpl.
  - constructor; [done|constructor].
  - destruct (decide (k = s)).
    + constructor; [|done]. simpl. intros Heq. by apply app_eq_nil in Heq as [_ ?].
    + by constructor.
Qed.

Lemma adj_of_nonempty E : Forall (fun p => p.2 <> []) (adj_of E).
Proof.
  induction E as [|[s d] E IH] using rev_ind; [constructor|].
  rewrite adj_of_snoc. by apply adj_append_nonempty.
Qed.

Lemma adj_pairs_append adj s d : adj_pairs (adj_append adj s d) ≡ₚ adj_pairs adj ++ [(s, d)].
Proof.
  unfold adj_pairs. induction adj as [|[k ds] adj IH]; [done|].
  cbn [adj_append]. destruct (decide (k = s)) as [->|Hne]; rewrite !bind_cons.
  - rewrite fmap_app. simpl. rewrite <- !app_assoc.
    apply Permutation_app_head. apply Permutation_app_comm.
  - rewrite IH. by rewrite app_assoc.
Qed.

Lemma adj_pairs_adj_of E : adj_pairs (adj_of E) ≡ₚ E.
Proof.
  induction E as [|[s d] E IH] using rev_ind; [done|].
  rewrite adj_of_snoc, adj_pairs_append, IH. done.
Qed.

(** X6. From an adjacency list to edges and back: for an adjacency list as
    [edge_array_to_adjacency_list] builds them (no source twice, no empty
    neighbour list), [edge_array_to_adjacency_list] undoes
    [adjacency_list_to_edge_map], order and repeated neighbours included. *)
Theorem adjacency_round_trip adj :
  NoDup adj.*1 ->
  Forall (fun p => p.2 <> []) adj ->
  edge_array_to_adjacency_list (adjacency_list_to_edge_map adj) = adj.
Proof.
  intros Hnd Hne. unfold edge_array_to_adjacency_list.
  by rewrite (adj_round_trip_acc adj []).
Qed.

Lemma adjacency_round_trip_witness :
  NoDup sample_adjacency.*1
  /\ Forall (fun p => p.2 <> []) sample_adjacency
  /\ edge_array_to_adjacency_list (adjacency_list_to_edge_map sample_adjacency)
     = sample_adjacency.
Proof.
  assert (Hnd : NoDup sample_adjacency.*1).
  { apply NoDup_cons. split; [|apply NoDup_singleton].
    intros Hin. apply list_elem_of_singleton in Hin. discriminate Hin. }
  assert (Hne : Forall (fun p => p.2 <> []) sample_adjacency).
  { repeat constructor; simpl; discriminate. }
  split; [exact Hnd|]. split; [exact Hne|].
  exact (adjacency_round_trip sample_adjacency Hnd Hne).
Defined.

(** X7. From edges to an adjacency list and back: the edges come back
    grouped by source, the same (source, target) pairs as many times as
    before, all connections gone; the adjacency list and the result of
    [topological_sort] are those of the original edges. *)
Theorem edge_map_of_adjacency edges :
  edge_pairs (regrouped edges) ≡ₚ edge_pairs edges
  /\ Forall (fun e => connections e = []) (regrouped edges)
  /\ edge_array_to_adjacency_list (regrouped edges) = edge_array_to_adjacency_list edges
  /\ topological_sort (regrouped edges) = topological_sort edges.
Proof.
  unfold regrouped. rewrite edge_array_adj.
  assert (Hrt : edge_array_to_adjacency_list
                  (adjacency_list_to_edge_map (adj_of (edge_pairs edges)))
                = adj_of (edge_pairs edges)).
  { unfold edge_array_to_adjacency_list.
    rewrite (adj_round_trip_acc _ []); [done| |apply adj_of_nonempty].
    apply adj_of_keys. }
  assert (Hperm : edge_pairs (adjacency_list_to_edge_map (adj_of (edge_pairs edges)))
                  ≡ₚ edge_pairs edges).
  { rewrite edge_pairs_edge_map. apply adj_pairs_adj_of. }
  split; [done|]. split; [|split; [done|]].
  - unfold adjacency_list_to_edge_map.
    apply Forall_forall. intros e He.
    apply list_elem_of_bind in He as ([s ds] & He & _).
    apply list_elem_of_fmap in He as (d & -> & _). done.
  - assert (Hlen : length (adjacency_list_to_edge_map (adj_of (edge_pairs edges)))
                   = length edges).
    { apply Permutation_length in Hperm. unfold edge_pairs in Hperm at 1 3.
      by rewrite !length_fmap in Hperm. }
    unfold topological_sort, topological_sort_fuel.
    by rewrite Hrt, Hlen, edge_array_adj.
Qed.


(** ** The order and the nodes of a Chain *)

Lemma topological_sort_ok_acyclic edges order :
  topological_sort edges = Some (Ret order) -> ~ has_cycle edges.
Proof. intros H Hc. apply topological_sort_cyclic in Hc. congruence. Qed.

Lemma topological_sort_raises edges e :
  topological_sort edges = Some (Raise e) -> e = NotDAGError.
Proof.
  destruct (topological_sort_spec edges) as (st & _ & _ & ->).
  destruct (kahn_check_cases (adj_of (edge_pairs edges)) st) as [-> | ->]; congruence.
Qed.

Lemma precedes_elem u v l : precedes u v l -> u ∈ l /\ v ∈ l.
Proof.
  intros (i & j & _ & Hi & Hj). split; eapply list_elem_of_lookup_2; eauto.
Qed.

(** X8. What the order contains: when [topological_sort] returns, the list
    has no node twice and holds exactly the nodes that are the source or the
    target of some edge. *)
Theorem topo_order_is_endpoints edges order :
  topological_sort edges = Some (Ret order) ->
  NoDup order /\ forall x, x ∈ order <-> is_endpoint x edges.
Proof.
  intros (Hnd & Hprec & Hin)%topological_sort_sound. split; [done|].
  intros x. split.
  - intros Hx. by apply endpoint_of_pairs, Hin.
  - intros (e & He & Hx).
    apply edge_pairs_elem, Hprec, precedes_elem in He as [Hs Ht].
    destruct Hx as [<-|<-]; done.
Qed.

Lemma topo_order_is_endpoints_witness :
  topological_sort [P1_P2] = Some (Ret ["P1"; "P2"])
  /\ ("P2" ∈ ["P1"; "P2"] <-> is_endpoint "P2" [P1_P2]).
Proof.
  assert (Hsort : topological_sort [P1_P2] = Some (Ret ["P1"; "P2"]))
    by (vm_compute; reflexivity).
  split; [exact Hsort|].
  destruct (topo_order_is_endpoints [P1_P2] ["P1"; "P2"] Hsort) as [_ H].
  exact (H "P2").
Defined.

(** [{node.id: node for node in nodes}] *)
Lemma node_map_lookup (node_list : list Node) n : forall acc : gmap string Node,
  foldl (fun m node => <[node_id node := node]> m) acc node_list !! n
  = match last (filter (fun node => node_id node = n) node_list) with
    | Some node => Some node
    | None => acc !! n
    end.
Proof.
  induction node_list as [|x l IH] using rev_ind; intros acc; [done|].
  rewrite foldl_app, filter_app. simpl.
  destruct (decide (node_id x = n)) as [Hx|Hx].
  - rewrite filter_cons_True by done. rewrite filter_nil, last_snoc.
    rewrite <- Hx. apply lookup_insert_eq.
  - rewrite filter_cons_False by done. rewrite filter_nil, app_nil_r.
    rewrite lookup_insert_ne by done. apply IH.
Qed.

Lemma node_map_is_Some (node_list : list Node) n :
  is_Some (foldl (fun (m : gmap string Node) node => <[node_id node := node]> m)
                 ∅ node_list !! n)
  <-> n ∈ node_id <$> node_list.
Proof.
  rewrite node_map_lookup, lookup_empty.
  destruct (last (filter (fun node => node_id node = n) node_list)) as [node|] eqn:Hl.
  - split; [intros _|eauto].
    apply last_Some in Hl as [l' Hl].
    assert (Hin : node ∈ filter (fun node => node_id node = n) node_list).
    { rewrite Hl. apply elem_of_app. right. by apply list_elem_of_singleton. }
    apply list_elem_of_filter in Hin as [<- Hin].
    apply list_elem_of_fmap. eauto.
  - split; [by intros [? ?]|]. intros Hin. exfalso.
    apply list_elem_of_fmap in Hin as (node & -> & Hin).
    apply last_None in Hl.
    assert (Hf : node ∈ filter (fun node' => node_id node' = node_id node) node_list).
    { by apply list_elem_of_filter. }
    rewrite Hl in Hf. by apply elem_of_nil in Hf.
Qed.

Lemma Chain_init_nodes node_list edge_list c :
  Chain_init node_list edge_list = Some (Ret c) ->
  nodes c = foldl (fun (m : gmap string Node) node => <[node_id node := node]> m)
                  ∅ node_list.
Proof.
  unfold Chain_init.
  destruct (topological_sort edge_list) as [[order|e]|]; simpl; [|done..].
  destruct (List.find _ order); [done|]. by inversion 1.
Qed.

(** X9. When construction succeeds: [Chain.__init__] returns a Chain exactly
    when the edges have no cycle and every node an edge names is the id of
    one of the nodes given; and when it fails on a missing node, the edges
    are acyclic and the id reported is named by an edge and carried by no
    node. *)
Theorem Chain_init_succeeds_iff node_list edge_list :
  ((exists c, Chain_init node_list edge_list = Some (Ret c))
   <-> ~ has_cycle edge_list
       /\ forall n, is_endpoint n edge_list -> n ∈ node_id <$> node_list)
  /\ (forall n, Chain_init node_list edge_list = Some (Raise (MissingNode n)) ->
        ~ has_cycle edge_list /\ is_endpoint n edge_list
        /\ n ∉ node_id <$> node_list).
Proof.
  split; [split|].
  - intros [c Hc]. pose proof (Chain_init_nodes _ _ _ Hc) as Hnodes.
    apply Chain_init_ok in Hc as (Hsort & _ & Hknown).
    split; [by eapply topological_sort_ok_acyclic|].
    intros n Hn. apply node_map_is_Some. rewrite <- Hnodes. apply Hknown.
    by apply (topo_order_is_endpoints _ _ Hsort).
  - intros [Hac Hknown].
    destruct (topological_sort_acyclic _ Hac) as [order Hsort].
    unfold Chain_init. rewrite Hsort. simpl.
    destruct (List.find _ order) as [missing|] eqn:Hfind; [|eauto].
    exfalso. apply List.find_some in Hfind as [Hin Hb].
    apply bool_decide_eq_true in Hb. apply list_elem_of_In in Hin.
    apply (topo_order_is_endpoints _ _ Hsort), Hknown, node_map_is_Some in Hin.
    rewrite Hb in Hin. by destruct Hin.
  - intros n. unfold Chain_init.
    destruct (topological_sort edge_list) as [[order|e]|] eqn:Hsort; simpl; [| |done].
    2: { apply topological_sort_raises in Hsort as ->. by inversion 1. }
    destruct (List.find _ order) as [missing|] eqn:Hfind; [|done].
    intros H. inversion H; subst.
    apply List.find_some in Hfind as [Hin Hb].
    apply bool_decide_eq_true in Hb. apply list_elem_of_In in Hin.
    split; [by eapply topological_sort_ok_acyclic|].
    split; [by apply (topo_order_is_endpoints _ _ Hsort)|].
    intros Hn. apply node_map_is_Some in Hn. rewrite Hb in Hn. by destruct Hn.
Qed.

Lemma Chain_init_succeeds_iff_witness :
  (exists c, Chain_init [P1; P2] [P1_P2] = Some (Ret c))
  /\ ~ has_cycle [P1_P2]
  /\ (is_endpoint "P2" [P1_P2] -> "P2" ∈ node_id <$> [P1; P2])
  /\ Chain_init [P1] [P1_P2] = Some (Raise (MissingNode "P2"))
  /\ ("P2" ∉ node_id <$> [P1]).
Proof.
  assert (Hok : exists c, Chain_init [P1; P2] [P1_P2] = Some (Ret c)).
  { exists two_stage. vm_compute. reflexivity. }
  assert (Hmiss : Chain_init [P1] [P1_P2] = Some (Raise (MissingNode "P2")))
    by (vm_compute; reflexivity).
  destruct (Chain_init_succeeds_iff [P1; P2] [P1_P2]) as [[Hto _] _].
  destruct (Hto Hok) as [Hac Hknown].
  destruct (Chain_init_succeeds_iff [P1] [P1_P2]) as [_ Hm].
  destruct (Hm "P2" Hmiss) as (_ & _ & Hnot).
  split; [exact Hok|]. split; [exact Hac|]. split; [exact (Hknown "P2")|].
  split; [exact Hmiss|exact Hnot].
Defined.

(** X10. Nodes that share an id: the Chain keeps, under each id, the last
    node of the list given to [Chain.__init__] that carries it; earlier ones
    are dropped without an error. *)
Theorem later_node_replaces_earlier node_list edge_list c n :
  Chain_init node_list edge_list = Some (Ret c) ->
  nodes c !! n = last (filter (fun node => node_id node = n) node_list).
Proof.
  intros ->%Chain_init_nodes. rewrite node_map_lookup, lookup_empty.
  by destruct (last _).
Qed.

Lemma later_node_replaces_earlier_witness :
  Chain_init [P1; P1_again; P2] [P1_P2] = Some (Ret two_stage_again)
  /\ nodes two_stage_again !! "P1" = Some P1_again.
Proof.
  assert (Hinit : Chain_init [P1; P1_again; P2] [P1_P2] = Some (Ret two_stage_again))
    by (vm_compute; reflexivity).
  split; [exact Hinit|].
  rewrite (later_node_replaces_earlier _ _ _ "P1" Hinit). reflexivity.
Defined.

(** ** Node invocation and the executor, continued *)

Section ExecMore.

Variable int_of_str : string -> option Z.
Variable format_exc : exn -> string.

Local Abbreviation get := (get_value_by_keys int_of_str).
Local Abbreviation call := (Node_call int_of_str format_exc).
Local Abbreviation step := (Chain_step int_of_str format_exc).
Local Abbreviation run := (Chain_run int_of_str format_exc).

(** *** The map a call returns *)

Lemma outputs_dict_fold (os : list Var) n : forall d,
  dict_get (foldl (fun d o => dict_set d (KStr (name o)) (value o)) d os) (KStr n)
  = match last (filter (fun o => name o = n) os) with
    | Some o => Some (value o)
    | None => dict_get d (KStr n)
    end.
Proof.
  induction os as [|o os IH]; intros d; [done|].
  cbn [foldl]. rewrite IH, filter_cons.
  destruct (decide (name o = n)) as [Hn|Hn].
  - rewrite last_cons. destruct (last _); [done|].
    rewrite <- Hn. apply dict_get_set_eq.
  - destruct (last _); [done|]. apply dict_get_set_ne. congruence.
Qed.

Lemma outputs_dict_fold_other (os : list Var) k : forall d,
  k ∉ (fun o => KStr (name o)) <$> os ->
  dict_get (foldl (fun d o => dict_set d (KStr (name o)) (value o)) d os) k
  = dict_get d k.
Proof.
  induction os as [|o os IH]; intros d Hk; [done|].
  rewrite fmap_cons in Hk. apply not_elem_of_cons in Hk as [Hne Hk].
  cbn [foldl]. rewrite IH by done. by apply dict_get_set_ne.
Qed.

Lemma projected_names payload os os' :
  Forall2 (projected int_of_str payload) os os' -> name <$> os' = name <$> os.
Proof.
  induction 1 as [|o o' os os' [_ Ho] _ IH]; [done|].
  rewrite !fmap_cons, IH. f_equal. rewrite Ho. by destruct o.
Qed.

Lemma projected_elem payload os os' o' :
  Forall2 (projected int_of_str payload) os os' -> o' ∈ os' ->
  get payload (_loc o') = Ret (value o').
Proof.
  intros HF Hin. apply list_elem_of_lookup in Hin as [i Hi].
  destruct (Forall2_lookup_r _ _ _ _ _ HF Hi) as (o & _ & Hget & Ho).
  rewrite Ho at 1. by destruct o.
Qed.

(** X11. What a successful call returns: a dict with exactly the declared
    output names as keys; under each name it holds the value stored on the
    last output Var of that name, which is [get_value_by_keys] of the
    callable's payload at that Var's [_loc]. *)
Theorem call_result_binds_outputs self data ret_fields r self' :
  Node_call int_of_str format_exc self data ret_fields = ((r, None), self') ->
  exists payload d,
    fn self data = (payload, None)
    /\ r = VDict d
    /\ name <$> outputs self' = name <$> outputs self
    /\ (forall n o', last (filter (fun o => name o = n) (outputs self')) = Some o' ->
          dict_get d (KStr n) = Some (value o')
          /\ get_value_by_keys int_of_str payload (_loc o') = Ret (value o'))
    /\ (forall k, k ∉ (fun o => KStr (name o)) <$> outputs self -> dict_get d k = None).
Proof.
  intros (payload & _ & Hfn & Hproj & -> & _)%Node_call_success.
  apply project_outputs_ok in Hproj.
  exists payload, (foldl (fun d o => dict_set d (KStr (name o)) (value o)) [] (outputs self')).
  split; [done|]. split; [done|].
  pose proof (projected_names _ _ _ Hproj) as Hnames.
  split; [done|]. split.
  - intros n o' Hlast. split.
    + by rewrite outputs_dict_fold, Hlast.
    + apply (projected_elem payload (outputs self) (outputs self')); [done|].
      apply last_Some_elem_of in Hlast.
      by apply list_elem_of_filter in Hlast as [_ ?].
  - intros k Hk. rewrite outputs_dict_fold_other; [done|].
    rewrite (list_fmap_compose name KStr), Hnames, <- (list_fmap_compose name KStr). done.
Qed.


(** *** What a step does *)

Lemma Chain_step_inv self nid st st' e :
  step self nid st = (st', e) ->
  (st' = st /\ is_Some e)
  \/ exists node d o err node',
       run_nodes st !! nid = Some node
       /\ gather_edges (full_ir st)
            (List.filter (fun edge => bool_decide (trg_node_id edge = nid)) (edges self)) ∅
          = Ret d
       /\ call node (copy_shared node (run_data st) d) true = ((o, err), node')
       /\ calls st' = calls st ++ [(nid, copy_shared node (run_data st) d)]
       /\ run_nodes st' = <[nid := node']> (run_nodes st)
       /\ match err with
          | Some e' => e = Some e' /\ full_ir st' = full_ir st
          | None =>
              match o with
              | VDict kvs => e = None /\ full_ir st' = write_ir nid kvs (full_ir st)
              | _ => e = Some AttributeError /\ full_ir st' = full_ir st
              end
          end.
Proof.
  unfold Chain_step.
  destruct (run_nodes st !! nid) as [node|] eqn:Hnode.
  2: { intros H. inversion H; subst. left. eauto. }
  destruct (gather_edges _ _ _) as [d|err] eqn:Hg.
  2: { intros H. inversion H; subst. left. eauto. }
  destruct (call node _ true) as [[o err] node'] eqn:Hcall.
  intros H. right. exists node, d, o, err, node'.
  split; [done|]. split; [done|]. split; [done|].
  destruct err as [err|]; [by inversion H; subst|].
  destruct o; by inversion H; subst.
Qed.

(** *** What an edge delivers *)

Lemma gather_flat_cons ir s o f rest d0 d :
  gather_flat ir ((s, o, f) :: rest) d0 = Ret d ->
  exists v, ir !! ir_key s o = Some v /\ v <> VNone
            /\ gather_flat ir rest (<[f := v]> d0) = Ret d.
Proof.
  simpl. destruct (ir !! ir_key s o) as [v|]; simpl; [|done].
  intros H. exists v. split; [done|]. by destruct v.
Qed.

Lemma gather_flat_lookup ir f conns : forall d0 d,
  gather_flat ir conns d0 = Ret d ->
  match last (filter (fun c : string * string * string => c.2 = f) conns) with
  | Some (s, o, _) =>
      exists v, ir !! ir_key s o = Some v /\ v <> VNone /\ d !! f = Some v
  | None => d !! f = d0 !! f
  end.
Proof.
  induction conns as [|[[s o] f'] conns IH]; intros d0 d H.
  - simpl in H. by inversion H.
  - apply gather_flat_cons in H as (v & Hv & Hnn & H). apply IH in H.
    rewrite filter_cons. simpl. destruct (decide (f' = f)) as [->|Hne].
    + rewrite last_cons. destruct (last _) as [[[s1 o1] f1]|]; [done|].
      exists v. by rewrite H, lookup_insert_eq.
    + destruct (last _) as [[[s1 o1] f1]|]; [done|].
      by rewrite H, lookup_insert_ne.
Qed.

Lemma copy_shared_other node data d f :
  has_field node f = false \/ data !! f = None ->
  copy_shared node data d !! f = d !! f.
Proof.
  intros Hf. unfold copy_shared. generalize ((map_to_list data).*1). intros l.
  revert d. induction l as [|x l IH]; intros d; [done|]. cbn [foldl].
  rewrite IH. destruct (has_field node x) eqn:Hx; [|done].
  destruct (data !! x) as [v|] eqn:Hd; [|done].
  apply lookup_insert_ne. intros ->. destruct Hf; congruence.
Qed.

(** X12. What an edge delivers: when the executor invokes node [nid], a
    field [f] that the initial inputs do not supply (or the node does not
    declare) is bound to the IR value, present and not null, under
    [<src>/<output>] of the last incoming connection that targets [f], and is
    left unbound when no connection targets it. *)
Theorem edge_routing self nid st st' e _data node f :
  Chain_step int_of_str format_exc self nid st = (st', e) ->
  calls st' = calls st ++ [(nid, _data)] ->
  run_nodes st !! nid = Some node ->
  has_field node f = false \/ run_data st !! f = None ->
  match last_connection_to self nid f with
  | Some (s, o, _) =>
      exists v, full_ir st !! ir_key s o = Some v /\ v <> VNone /\ _data !! f = Some v
  | None => _data !! f = None
  end.
Proof.
  intros Hstep Hcalls Hnode Hf.
  apply Chain_step_inv in Hstep as [[-> _]|(node' & d & o & err & n' & Hn & Hg & _ & Hc & _)].
  { exfalso. apply (f_equal length) in Hcalls. rewrite length_app in Hcalls.
    simpl in Hcalls. lia. }
  rewrite Hnode in Hn. inversion Hn; subst node'.
  rewrite Hc in Hcalls. apply app_inv_head in Hcalls. inversion Hcalls; subst _data.
  rewrite copy_shared_other by done.
  rewrite gather_edges_flat in Hg. apply (gather_flat_lookup _ f) in Hg.
  unfold last_connection_to, incoming_connections.
  destruct (last _) as [[[s1 o1] f1]|]; [done|]. by rewrite Hg, lookup_empty.
Qed.


(** *** The keys of the IR *)

Lemma project_outputs_names payload os :
  name <$> (project_outputs int_of_str payload os).1 = name <$> os.
Proof.
  induction os as [|o os IH]; [done|]. cbn [project_outputs].
  destruct (get payload (_loc o)) as [v|e]; [|done].
  destruct (project_outputs int_of_str payload os) as [rest' err]. cbn [fst] in *.
  rewrite !fmap_cons, IH. f_equal. by destruct o.
Qed.

Lemma Node_call_out_names self data b r self' :
  call self data b = (r, self') -> name <$> outputs self' = name <$> outputs self.
Proof.
  unfold Node_call. destruct (decide _); [|by inversion 1].
  destruct (fn self data) as [payload [e|]]; [by inversion 1|].
  pose proof (project_outputs_names payload (outputs self)) as Hn.
  destruct (project_outputs int_of_str payload (outputs self)) as [os [e|]];
    inversion 1; subst; done.
Qed.

Lemma write_ir_dom nid items ir key :
  is_Some (write_ir nid items ir !! key)
  <-> is_Some (ir !! key) \/ exists k, k ∈ items.*1 /\ key = ir_key nid (key_str k).
Proof.
  unfold write_ir. revert ir. induction items as [|[k v] items IH]; intros ir.
  - simpl. split; [by left|]. intros [?|(k & Hk & _)]; [done|]. by apply elem_of_nil in Hk.
  - cbn [foldl]. rewrite IH, fmap_cons. cbn [fst]. split.
    + intros [H|(k' & Hk' & ->)].
      * destruct (decide (ir_key nid (key_str k) = key)) as [<-|Hne].
        -- right. exists k. split; [apply elem_of_cons; by left|done].
        -- left. by rewrite lookup_insert_ne in H.
      * right. exists k'. split; [apply elem_of_cons; by right|done].
    + intros [H|(k' & Hk' & ->)].
      * left. destruct (decide (ir_key nid (key_str k) = key)) as [<-|Hne].
        -- rewrite lookup_insert_eq. eauto.
        -- by rewrite lookup_insert_ne.
      * apply elem_of_cons in Hk' as [->|Hk'].
        -- left. rewrite lookup_insert_eq. eauto.
        -- right. eauto.
Qed.

Lemma outputs_dict_keys (os : list Var) k : forall d,
  k ∈ dict_keys (foldl (fun d o => dict_set d (KStr (name o)) (value o)) d os)
  <-> k ∈ dict_keys d \/ k ∈ (fun o => KStr (name o)) <$> os.
Proof.
  induction os as [|o os IH]; intros d.
  - simpl. split; [by left|]. intros [?|H]; [done|]. by apply elem_of_nil in H.
  - cbn [foldl]. rewrite IH, dict_set_keys, fmap_cons, elem_of_cons.
    destruct (decide (KStr (name o) ∈ dict_keys d)) as [Hin|Hnin].
    + split; [tauto|]. intros [?|[->|?]]; tauto.
    + rewrite elem_of_app, list_elem_of_singleton. tauto.
Qed.

Lemma Chain_step_ok_ir self nid st st' :
  step self nid st = (st', None) ->
  exists node,
    run_nodes st !! nid = Some node
    /\ (forall x, (fun n => name <$> outputs n) <$> run_nodes st' !! x
                  = (fun n => name <$> outputs n) <$> run_nodes st !! x)
    /\ forall key, is_Some (full_ir st' !! key)
         <-> is_Some (full_ir st !! key)
             \/ exists n, n ∈ name <$> outputs node /\ key = ir_key nid n.
Proof.
  intros Hstep.
  apply Chain_step_inv in Hstep
    as [[_ [? ?]]|(node & d & o & err & node' & Hn & _ & Hcall & _ & Hnodes & Hres)];
    [done|].
  exists node. split; [done|].
  pose proof (Node_call_out_names _ _ _ _ _ Hcall) as Hnames.
  split.
  { intros x. rewrite Hnodes. destruct (decide (nid = x)) as [<-|Hne].
    - rewrite lookup_insert_eq, Hn. simpl. by rewrite Hnames.
    - by rewrite lookup_insert_ne. }
  destruct err as [err|]; [by destruct Hres|].
  apply Node_call_success in Hcall as (payload & _ & _ & _ & -> & _).
  unfold outputs_dict in Hres. destruct Hres as [_ ->].
  intros key. rewrite write_ir_dom. split.
  - intros [?|(k & Hk & ->)]; [by left|]. right.
    apply (outputs_dict_keys _ k []) in Hk as [Hk|Hk]; [by apply elem_of_nil in Hk|].
    apply list_elem_of_fmap in Hk as (o' & -> & Ho'). exists (name o').
    split; [|done]. rewrite <- Hnames. apply list_elem_of_fmap. eauto.
  - intros [?|(n & Hin & ->)]; [by left|]. right. exists (KStr n). split; [|done].
    apply (outputs_dict_keys _ (KStr n) []). right.
    rewrite <- Hnames in Hin. apply list_elem_of_fmap in Hin as (o' & -> & Ho').
    apply list_elem_of_fmap. eauto.
Qed.

Lemma Chain_run_ok_ir self order : forall st st',
  run self order st = (st', None) ->
  (forall x, (fun n => name <$> outputs n) <$> run_nodes st' !! x
             = (fun n => name <$> outputs n) <$> run_nodes st !! x)
  /\ forall key, is_Some (full_ir st' !! key)
       <-> is_Some (full_ir st !! key)
           \/ exists m node n, m ∈ order /\ run_nodes st !! m = Some node
                /\ n ∈ name <$> outputs node /\ key = ir_key m n.
Proof.
  induction order as [|nid order IH]; intros st st' H; simpl in H.
  - inversion H; subst. split; [done|]. intros key. split; [by left|].
    intros [?|(m & ? & ? & Hm & _)]; [done|]. by apply elem_of_nil in Hm.
  - destruct (step self nid st) as [st1 [e1|]] eqn:Hstep; [done|].
    apply Chain_step_ok_ir in Hstep as (node & Hnode & Hnames & Hir).
    apply IH in H as [Hnames' Hir'].
    split; [intros x; by rewrite Hnames', Hnames|].
    intros key. rewrite Hir', Hir. split.
    + intros [[?|(n & Hn & ->)]|(m & node1 & n & Hm & Hnode1 & Hn & ->)].
      * by left.
      * right. exists nid, node, n. split; [apply elem_of_cons; by left|done].
      * right. specialize (Hnames m). rewrite Hnode1 in Hnames. simpl in Hnames.
        destruct (run_nodes st !! m) as [node0|] eqn:Hnode0; [|done].
        simpl in Hnames. inversion Hnames as [Heq].
        exists m, node0, n. split; [apply elem_of_cons; by right|].
        split; [done|]. split; [by rewrite <- Heq|done].
    + intros [?|(m & node0 & n & Hm & Hnode0 & Hn & ->)]; [by left; left|].
      apply elem_of_cons in Hm as [->|Hm].
      * left. right. exists n. split; [|done]. congruence.
      * right. specialize (Hnames m). rewrite Hnode0 in Hnames. simpl in Hnames.
        destruct (run_nodes st1 !! m) as [node1|] eqn:Hnode1; [|done].
        simpl in Hnames. inversion Hnames as [Heq].
        exists m, node1, n. split; [done|]. split; [done|]. split; [by rewrite Heq|done].
Qed.

(** X13. The keys of the IR after a run that succeeds: exactly the keys
    [<node_id>/<name>] for the nodes of [topo_order] and the names of their
    declared outputs. *)
Theorem ir_keys_after_success self data st :
  Chain_call int_of_str format_exc self data = (st, None) ->
  forall key,
    is_Some (full_ir st !! key)
    <-> exists m node n,
          m ∈ topo_order self /\ nodes self !! m = Some node
          /\ n ∈ name <$> outputs node /\ key = ir_key m n.
Proof.
  unfold Chain_call. intros [_ Hir]%Chain_run_ok_ir key.
  rewrite Hir. simpl. split; [|by right].
  intros [[v Hv]|?]; [|done]. by rewrite lookup_empty in Hv.
Qed.

End ExecMore.

Lemma call_result_binds_outputs_witness :
  Node_call no_int plain_trace Fetch Fetch_inputs true
  = ((VDict [(KStr "text", VStr "alpha-beta")], None),
     with_outputs [Fetch_text_bound] Fetch)
  /\ exists payload d,
       fn Fetch Fetch_inputs = (payload, None)
       /\ VDict [(KStr "text", VStr "alpha-beta")] = VDict d
       /\ (last (filter (fun o => name o = "text") [Fetch_text_bound])
            = Some Fetch_text_bound ->
           dict_get d (KStr "text") = Some (value Fetch_text_bound)).
Proof.
  assert (Hcall : Node_call no_int plain_trace Fetch Fetch_inputs true
                  = ((VDict [(KStr "text", VStr "alpha-beta")], None),
                     with_outputs [Fetch_text_bound] Fetch))
    by (vm_compute; reflexivity).
  split; [exact Hcall|].
  destruct (call_result_binds_outputs no_int plain_trace Fetch Fetch_inputs true _ _ Hcall)
    as (payload & d & Hfn & Hr & _ & Hbind & _).
  exists payload, d. split; [exact Hfn|]. split; [exact Hr|].
  intros Hlast. exact (proj1 (Hbind "text" Fetch_text_bound Hlast)).
Defined.

Lemma edge_routing_witness :
  (Chain_step no_int plain_trace two_stage "P2" after_P1 = (after_P2, None)
   /\ calls after_P2 = calls after_P1 ++ [("P2", P2_routed)]
   /\ run_nodes after_P1 !! "P2" = Some P2
   /\ run_data after_P1 !! "text" = None)
  /\ match last_connection_to two_stage "P2" "text" with
     | Some (s, o, _) =>
         exists v, full_ir after_P1 !! ir_key s o = Some v /\ v <> VNone
                   /\ P2_routed !! "text" = Some v
     | None => P2_routed !! "text" = None
     end.
Proof.
  assert (H1 : Chain_step no_int plain_trace two_stage "P2" after_P1 = (after_P2, None))
    by (vm_compute; reflexivity).
  assert (H2 : calls after_P2 = calls after_P1 ++ [("P2", P2_routed)])
    by (vm_compute; reflexivity).
  assert (H3 : run_nodes after_P1 !! "P2" = Some P2) by (vm_compute; reflexivity).
  assert (H4 : run_data after_P1 !! "text" = None) by (vm_compute; reflexivity).
  split; [by repeat split|].
  exact (edge_routing no_int plain_trace two_stage "P2" after_P1 after_P2 None
           P2_routed P2 "text" H1 H2 H3 (or_intror H4)).
Defined.

Lemma ir_keys_after_success_witness :
  Chain_call no_int plain_trace two_stage url_only = (after_P2, None)
  /\ is_Some (full_ir after_P2 !! "P2/text").
Proof.
  assert (Hrun : Chain_call no_int plain_trace two_stage url_only = (after_P2, None))
    by (vm_compute; reflexivity).
  split; [exact Hrun|].
  apply (ir_keys_after_success no_int plain_trace two_stage url_only after_P2 Hrun).
  exists "P2", P2, "text". split; [|split; [|split]].
  - apply elem_of_cons. right. apply elem_of_cons. by left.
  - vm_compute. reflexivity.
  - apply elem_of_cons. by left.
  - reflexivity.
Defined.

(** ** Native-signature inference, continued *)

Lemma annot_nested_ind (P : annot -> Prop) :
  (forall t, P (AClass t)) ->
  (forall s, P (AString s)) ->
  (forall o args, Forall P args -> P (AGeneric o args)) ->
  (forall xs, Forall P xs -> P (ATuple xs)) ->
  P AAny -> P ANone -> P AOther ->
  forall x, P x.
Proof.
  intros HC HS HG HT HA HN HO.
  fix IH 1. intros [t|s|o args|xs| | |].
  - apply HC.
  - apply HS.
  - apply HG. revert args. fix IHl 1. intros [|a args]; constructor; [apply IH|apply IHl].
  - apply HT. revert xs. fix IHl 1. intros [|a xs]; constructor; [apply IH|apply IHl].
  - apply HA.
  - apply HN.
  - apply HO.
Qed.

Lemma mapM_res_Ret {A B} (f : A -> res B) l vs :
  mapM_res f l = Ret vs <-> Forall2 (fun a v => f a = Ret v) l vs.
Proof.
  revert vs. induction l as [|a l IH]; intros vs; simpl.
  - split; [intros H; inversion H; constructor|by inversion 1].
  - destruct (f a) as [v|e] eqn:Hf; simpl.
    + destruct (mapM_res f l) as [vs'|e] eqn:Hm; simpl.
      * split.
        -- intros H. inversion H; subst. constructor; [done|]. by apply IH.
        -- intros H. inversion H as [|? v' ? vs'' Hv Hrest]; subst.
           apply IH in Hrest. congruence.
      * split; [done|]. intros H. inversion H as [|? v' ? vs'' Hv Hrest]; subst.
        apply IH in Hrest. done.
    + split; [done|]. intros H. inversion H; subst. congruence.
Qed.

Lemma schema_tuple_eq args aa ae an :
  pyannotation_to_json_schema (AGeneric Otuple args) aa ae an
  = bind (mapM_res (fun a => pyannotation_to_json_schema a aa ae an) args)
         (fun vs => Ret (with_items vs (Var_ (TName "array")))).
Proof.
  change (pyannotation_to_json_schema (AGeneric Otuple args) aa ae an)
    with (bind ((fix all (l : list annot) : res (list Var) :=
                   match l with
                   | [] => Ret []
                   | a :: l' =>
                       try! v := pyannotation_to_json_schema a aa ae an in
                       try! vs := all l' in
                       Ret (v :: vs)
                   end) args)
               (fun vs => Ret (with_items vs (Var_ (TName "array"))))).
  f_equal. induction args as [|a args IH]; [done|].
  simpl. by rewrite IH.
Qed.

Lemma schema_union_eq args aa ae an :
  pyannotation_to_json_schema (AGeneric OUnion args) aa ae an
  = bind (mapM_res (fun a => pyannotation_to_json_schema a aa ae an)
                   (List.filter is_not_None args))
         (fun vs => match vs with
                    | [v] => Ret v
                    | _ => Ret (Var_ (TUnion vs))
                    end).
Proof.
  change (pyannotation_to_json_schema (AGeneric OUnion args) aa ae an)
    with (bind ((fix members (l : list annot) : res (list Var) :=
                   match l with
                   | [] => Ret []
                   | a :: l' =>
                       if is_not_None a then
                         try! v := pyannotation_to_json_schema a aa ae an in
                         try! vs := members l' in
                         Ret (v :: vs)
                       else members l'
                   end) args)
               (fun vs => match vs with
                          | [v] => Ret v
                          | _ => Ret (Var_ (TUnion vs))
                          end)).
  f_equal. induction args as [|a args IH]; [done|].
  simpl. destruct (is_not_None a); simpl; by rewrite IH.
Qed.

Lemma shape_only_Var_ t : shape_only (Var_ t).
Proof. by repeat split. Qed.

Lemma shape_only_with_items l v : shape_only v -> shape_only (with_items l v).
Proof. by destruct v. Qed.

Lemma shape_only_with_format f v : shape_only v -> shape_only (with_format f v).
Proof. by destruct v. Qed.

Lemma shape_only_with_password p v : shape_only v -> shape_only (with_password p v).
Proof. by destruct v. Qed.

Lemma shape_only_with_additionalProperties a v :
  shape_only v -> shape_only (with_additionalProperties a v).
Proof. by destruct v. Qed.

(** X14. A typed tuple: [Tuple[T1, ..., Tn]] has a schema exactly when all
    its members have one, and it is then the array whose items are the member
    schemas, one per member and in order. *)
Theorem typed_tuple_items Ts allow_any allow_exc allow_none v :
  pyannotation_to_json_schema (Tuple Ts) allow_any allow_exc allow_none = Ret v
  <-> exists vs,
        Forall2 (fun T s => pyannotation_to_json_schema T allow_any allow_exc allow_none
                            = Ret s) Ts vs
        /\ v = with_items vs (Var_ (TName "array")).
Proof.
  unfold Tuple. rewrite schema_tuple_eq. split.
  - destruct (mapM_res _ Ts) as [vs|e] eqn:Hm; simpl; [|done].
    intros H. inversion H; subst. exists vs. split; [|done]. by apply mapM_res_Ret.
  - intros (vs & Hvs & ->). apply mapM_res_Ret in Hvs. by rewrite Hvs.
Qed.

Lemma typed_tuple_items_witness :
  pyannotation_to_json_schema (Tuple [AClass Tint; AClass Tstr]) false false false
  = Ret (with_items [Var_ (TName "number"); Var_ (TName "string")] (Var_ (TName "array")))
  /\ exists vs,
       Forall2 (fun T s => pyannotation_to_json_schema T false false false = Ret s)
               [AClass Tint; AClass Tstr] vs
       /\ with_items [Var_ (TName "number"); Var_ (TName "string")] (Var_ (TName "array"))
          = with_items vs (Var_ (TName "array")).
Proof.
  assert (H : pyannotation_to_json_schema (Tuple [AClass Tint; AClass Tstr])
                false false false
              = Ret (with_items [Var_ (TName "number"); Var_ (TName "string")]
                                (Var_ (TName "array")))) by reflexivity.
  split; [exact H|].
  exact (proj1 (typed_tuple_items [AClass Tint; AClass Tstr] false false false _) H).
Defined.

(** X15. A union: the members that are the value [None] are skipped; the
    union has a schema exactly when every other member has one; a single
    member left gives that member's schema itself, any other number of
    members gives a Var whose type is the list of the member schemas. *)
Theorem union_members Ts allow_any allow_exc allow_none v :
  pyannotation_to_json_schema (Union Ts) allow_any allow_exc allow_none = Ret v
  <-> exists vs,
        Forall2 (fun T s => pyannotation_to_json_schema T allow_any allow_exc allow_none
                            = Ret s) (List.filter is_not_None Ts) vs
        /\ v = match vs with
               | [s] => s
               | _ => Var_ (TUnion vs)
               end.
Proof.
  unfold Union. rewrite schema_union_eq. split.
  - destruct (mapM_res _ _) as [vs|e] eqn:Hm; simpl; [|done].
    intros H. exists vs. split; [by apply mapM_res_Ret|].
    destruct vs as [|s [|s' vs]]; by inversion H.
  - intros (vs & Hvs & ->). apply mapM_res_Ret in Hvs. rewrite Hvs. simpl.
    by destruct vs as [|s [|s' vs]].
Qed.

Lemma union_members_witness :
  pyannotation_to_json_schema (Union [AClass Tint; AClass Tstr]) false false false
  = Ret (Var_ (TUnion [Var_ (TName "number"); Var_ (TName "string")]))
  /\ exists vs,
       Forall2 (fun T s => pyannotation_to_json_schema T false false false = Ret s)
               (List.filter is_not_None [AClass Tint; AClass Tstr]) vs
       /\ Var_ (TUnion [Var_ (TName "number"); Var_ (TName "string")])
          = match vs with
            | [s] => s
            | _ => Var_ (TUnion vs)
            end.
Proof.
  assert (H : pyannotation_to_json_schema (Union [AClass Tint; AClass Tstr])
                false false false
              = Ret (Var_ (TUnion [Var_ (TName "number"); Var_ (TName "string")])))
    by reflexivity.
  split; [exact H|].
  exact (proj1 (union_members [AClass Tint; AClass Tstr] false false false _) H).
Defined.

(** X16. What the conversion leaves alone: every schema
    [pyannotation_to_json_schema] returns has no name, is not required, not
    shown, and has no placeholder, value or location; it sets the shape
    (type, format, items, additionalProperties, password) and nothing else. *)
Theorem schema_is_shape_only x : forall allow_any allow_exc allow_none v,
  pyannotation_to_json_schema x allow_any allow_exc allow_none = Ret v ->
  shape_only v.
Proof.
  induction x as [t|s|o args IH|xs IH| | |] using annot_nested_ind;
    intros aa ae an v H.
  - destruct t, ae, an; simpl in H; inversion H; by repeat split.
  - inversion H. by repeat split.
  - destruct o as [| | | |q].
    + destruct args as [|a args]; [done|]. simpl in H.
      destruct (pyannotation_to_json_schema a aa ae an); inversion H.
      by repeat split.
    + destruct args as [|[[]| | | | | |] [|a [|b args]]]; try done. simpl in H.
      destruct (pyannotation_to_json_schema a aa ae an); inversion H.
      by repeat split.
    + rewrite schema_tuple_eq in H. destruct (mapM_res _ _); inversion H.
      by repeat split.
    + rewrite schema_union_eq in H.
      destruct (mapM_res _ _) as [vs|e] eqn:Hm; [|done]. simpl in H.
      apply mapM_res_Ret in Hm.
      destruct vs as [|s [|s' vs]]; inversion H; subst; try by repeat split.
      destruct (List.filter is_not_None args) as [|a l] eqn:Hf; [by inversion Hm|].
      inversion Hm as [|? ? ? ? Ha Hrest]; subst.
      assert (Hin : a ∈ args).
      { apply list_elem_of_In. eapply (proj1 (filter_In _ _ _)).
        rewrite Hf. by left. }
      rewrite Forall_forall in IH. by apply (IH a Hin aa ae an).
    + done.
  - destruct xs as [|x0 [|x1 xs]]; [done..|].
    change (pyannotation_to_json_schema (ATuple (x0 :: x1 :: xs)) aa ae an)
      with (bind (pyannotation_to_json_schema x1 aa ae an)
                 (fun v => Ret (with_items
                                  (list_times [Var_ (TName "string"); v]
                                              (length (x0 :: x1 :: xs)))
                                  (Var_ (TName "array"))))) in H.
    destruct (pyannotation_to_json_schema x1 aa ae an); inversion H.
    by repeat split.
  - destruct aa; inversion H. by repeat split.
  - done.
  - done.
Qed.

Lemma schema_is_shape_only_witness :
  pyannotation_to_json_schema (AGeneric Olist [AClass TSecret]) false false false
  = Ret (with_items [with_password true (Var_ (TName "string"))] (Var_ (TName "array")))
  /\ shape_only
       (with_items [with_password true (Var_ (TName "string"))] (Var_ (TName "array"))).
Proof.
  assert (H : pyannotation_to_json_schema (AGeneric Olist [AClass TSecret])
                false false false
              = Ret (with_items [with_password true (Var_ (TName "string"))]
                                (Var_ (TName "array")))) by reflexivity.
  split; [exact H|].
  exact (schema_is_shape_only _ false false false _ H).
Defined.

Lemma param_to_var_Ret param field :
  param_to_var param = Ret field
  <-> exists schema,
        pyannotation_to_json_schema (annotation param) false false false = Ret schema
        /\ field = field_of param schema.
Proof.
  unfold param_to_var.
  destruct (pyannotation_to_json_schema (annotation param) false false false)
    as [schema|e] eqn:Hs; simpl.
  - pose proof (schema_is_shape_only _ _ _ _ _ Hs) as (Hn & Hr & Hp & Hsh & Hv & Hl).
    destruct schema as [t f i a p r ph s n v l]. simpl in *. subst.
    assert (Heq : (if startswith_underscore (param_name param)
                   then mkVar t f i a p (bool_decide (default_str param = None))
                          (default "" (default_str param)) false (param_name param) VNone []
                   else mkVar t f i a p (bool_decide (default_str param = None))
                          (default "" (default_str param)) true (param_name param) VNone [])
                  = field_of param (mkVar t f i a p false "" false "" VNone [])).
    { unfold field_of. simpl. by destruct (startswith_underscore (param_name param)). }
    rewrite Heq. split.
    + intros H. inversion H. eauto.
    + intros (schema & Hschema & ->). by inversion Hschema.
  - split; [done|]. by intros (schema & ? & _).
Qed.

Lemma param_to_var_Raise param e :
  param_to_var param = Raise e
  <-> pyannotation_to_json_schema (annotation param) false false false = Raise e.
Proof.
  unfold param_to_var.
  destruct (pyannotation_to_json_schema (annotation param) false false false); simpl;
    [|done].
  split; [|done]. by destruct (startswith_underscore _).
Qed.

(** X17. The fields of a signature: when [func_to_vars] returns, it returns
    one field per parameter, in order; each field has the shape of the
    parameter's annotation, the parameter's name, is required exactly when
    the parameter has no default, has the default's string as placeholder
    (empty without a default), and is shown exactly when the name does not
    begin with an underscore. *)
Theorem func_to_vars_fields signature fields :
  func_to_vars signature = Ret fields ->
  Forall2 (fun param field =>
             exists schema,
               pyannotation_to_json_schema (annotation param) false false false
               = Ret schema
               /\ field = field_of param schema)
          signature fields.
Proof.
  revert fields. induction signature as [|param rest IH]; intros fields H; simpl in H.
  - inversion H. constructor.
  - destruct (param_to_var param) as [field|e] eqn:Hp; [|done]. simpl in H.
    destruct (func_to_vars rest) as [fields'|e] eqn:Hrest; [|done].
    inversion H; subst. constructor; [by apply param_to_var_Ret|by apply IH].
Qed.

Lemma func_to_vars_fields_witness :
  func_to_vars sample_signature
  = Ret [field_of (mkPyParameter "x" (AClass Tstr) None) (Var_ (TName "string"));
         field_of (mkPyParameter "_hidden" (AClass Tint) (Some "3"))
                  (Var_ (TName "number"))]
  /\ Forall2 (fun param field =>
                exists schema,
                  pyannotation_to_json_schema (annotation param) false false false
                  = Ret schema
                  /\ field = field_of param schema)
             sample_signature
             [field_of (mkPyParameter "x" (AClass Tstr) None) (Var_ (TName "string"));
              field_of (mkPyParameter "_hidden" (AClass Tint) (Some "3"))
                       (Var_ (TName "number"))].
Proof.
  assert (H : func_to_vars sample_signature
              = Ret [field_of (mkPyParameter "x" (AClass Tstr) None)
                              (Var_ (TName "string"));
                     field_of (mkPyParameter "_hidden" (AClass Tint) (Some "3"))
                              (Var_ (TName "number"))]) by reflexivity.
  split; [exact H|].
  exact (func_to_vars_fields sample_signature _ H).
Defined.

(** X18. The first parameter that cannot be converted decides: [func_to_vars]
    raises exactly when some parameter's annotation is refused, and the
    exception is the one of the first such parameter; parameters after it are
    not looked at. *)
Theorem func_to_vars_first_error signature e :
  func_to_vars signature = Raise e
  <-> exists pre param post,
        signature = pre ++ param :: post
        /\ Forall (fun q => exists s,
                     pyannotation_to_json_schema (annotation q) false false false
                     = Ret s) pre
        /\ pyannotation_to_json_schema (annotation param) false false false = Raise e.
Proof.
  induction signature as [|p rest IH]; simpl.
  - split; [done|]. intros (pre & q & post & Heq & _). by destruct pre.
  - destruct (param_to_var p) as [field|e'] eqn:Hp; simpl.
    + apply param_to_var_Ret in Hp as (s & Hs & _).
      assert (Hbind : (try! fields := func_to_vars rest in Ret (field :: fields)) = Raise e
                      <-> func_to_vars rest = Raise e).
      { destruct (func_to_vars rest); simpl; split; congruence. }
      rewrite Hbind, IH. split; intros (pre & q & post & Heq & Hpre & Hq).
      * exists (p :: pre), q, post. subst. split; [done|]. split; [|done].
        constructor; eauto.
      * destruct pre as [|p' pre]; simpl in Heq; inversion Heq; subst; [congruence|].
        inversion Hpre; subst. eauto 10.
    + apply param_to_var_Raise in Hp. split.
      * intros H. inversion H; subst. exists [], p, rest. by repeat split.
      * intros (pre & q & post & Heq & Hpre & Hq).
        destruct pre as [|p' pre]; simpl in Heq; inversion Heq; subst.
        -- congruence.
        -- inversion Hpre as [|? ? [s Hs] ?]; subst. congruence.
Qed.

Lemma func_to_vars_first_error_witness :
  func_to_vars refused_signature = Raise (UnsupportedType "i0")
  /\ exists pre param post,
       refused_signature = pre ++ param :: post
       /\ Forall (fun q => exists s,
                    pyannotation_to_json_schema (annotation q) false false false
                    = Ret s) pre
       /\ pyannotation_to_json_schema (annotation param) false false false
          = Raise (UnsupportedType "i0").
Proof.
  assert (H : func_to_vars refused_signature = Raise (UnsupportedType "i0"))
    by reflexivity.
  split; [exact H|].
  exact (proj1 (func_to_vars_first_error refused_signature _) H).
Defined.

(** X19. Allowing more never changes an answer: an annotation that has a
    schema under some setting of [allow_any], [allow_exc] and [allow_none]
    has the same schema under every setting that allows at least as much; in
    particular whatever is accepted for a parameter is accepted, with the
    same schema, in return position. *)
Theorem permissive_flags_agree x :
  forall allow_any allow_exc allow_none allow_any' allow_exc' allow_none' v,
  (allow_any = true -> allow_any' = true) ->
  (allow_exc = true -> allow_exc' = true) ->
  (allow_none = true -> allow_none' = true) ->
  pyannotation_to_json_schema x allow_any allow_exc allow_none = Ret v ->
  pyannotation_to_json_schema x allow_any' allow_exc' allow_none' = Ret v.
Proof.
  induction x as [t|s|o args IH|xs IH| | |] using annot_nested_ind;
    intros aa ae an aa' ae' an' v Haa Hae Han H.
  - destruct t; simpl in *; try done.
    + destruct ae; [|done]. by rewrite Hae.
    + destruct an; [|done]. by rewrite Han.
  - done.
  - assert (Hmap : forall l vs, Forall (fun x => x ∈ args) l ->
              mapM_res (fun a => pyannotation_to_json_schema a aa ae an) l = Ret vs ->
              mapM_res (fun a => pyannotation_to_json_schema a aa' ae' an') l = Ret vs).
    { intros l vs Hl Hm. apply mapM_res_Ret. apply mapM_res_Ret in Hm.
      induction Hm as [|a s l vs Ha _ IHm]; constructor.
      - inversion Hl; subst. rewrite Forall_forall in IH. eapply IH; eauto.
      - inversion Hl; subst. by apply IHm. }
    destruct o as [| | | |q].
    + destruct args as [|a args]; [done|]. simpl in *.
      destruct (pyannotation_to_json_schema a aa ae an) as [s|] eqn:Ha; [|done].
      inversion IH as [|? ? IHa _]; subst. by rewrite (IHa _ _ _ aa' ae' an' _ Haa Hae Han Ha).
    + destruct args as [|[[]| | | | | |] [|a [|b args]]]; try done. simpl in *.
      destruct (pyannotation_to_json_schema a aa ae an) as [s|] eqn:Ha; [|done].
      inversion IH as [|? ? _ IH']; subst. inversion IH' as [|? ? IHa _]; subst.
      by rewrite (IHa _ _ _ aa' ae' an' _ Haa Hae Han Ha).
    + rewrite schema_tuple_eq in *.
      destruct (mapM_res _ args) as [vs|] eqn:Hm; [|done].
      rewrite (Hmap args vs); [done| |done]. by apply Forall_forall.
    + rewrite schema_union_eq in *.
      destruct (mapM_res _ (List.filter is_not_None args)) as [vs|] eqn:Hm; [|done].
      rewrite (Hmap _ vs); [done| |done].
      apply Forall_forall. intros y Hy. apply list_elem_of_In.
      apply list_elem_of_In in Hy. by apply filter_In in Hy as [? _].
    + done.
  - destruct xs as [|x0 [|x1 xs]]; [done..|].
    change (pyannotation_to_json_schema (ATuple (x0 :: x1 :: xs)) aa ae an)
      with (bind (pyannotation_to_json_schema x1 aa ae an)
                 (fun v => Ret (with_items
                                  (list_times [Var_ (TName "string"); v]
                                              (length (x0 :: x1 :: xs)))
                                  (Var_ (TName "array"))))) in H.
    change (pyannotation_to_json_schema (ATuple (x0 :: x1 :: xs)) aa' ae' an')
      with (bind (pyannotation_to_json_schema x1 aa' ae' an')
                 (fun v => Ret (with_items
                                  (list_times [Var_ (TName "string"); v]
                                              (length (x0 :: x1 :: xs)))
                                  (Var_ (TName "array"))))).
    destruct (pyannotation_to_json_schema x1 aa ae an) as [s|] eqn:Hx; [|done].
    inversion IH as [|? ? _ IH']; subst. inversion IH' as [|? ? IHx _]; subst.
    by rewrite (IHx _ _ _ aa' ae' an' _ Haa Hae Han Hx).
  - simpl in *. destruct aa; [|done]. by rewrite Haa.
  - done.
  - done.
Qed.

Lemma permissive_flags_agree_witness :
  pyannotation_to_json_schema (AGeneric Odict [AClass Tstr; AClass Tbytes])
    false false false
  = Ret (with_additionalProperties
           (APVar (with_format "byte" (Var_ (TName "string")))) (Var_ (TName "object")))
  /\ pyannotation_to_json_schema (AGeneric Odict [AClass Tstr; AClass Tbytes])
       true true true
     = Ret (with_additionalProperties
              (APVar (with_format "byte" (Var_ (TName "string")))) (Var_ (TName "object"))).
Proof.
  assert (H : pyannotation_to_json_schema (AGeneric Odict [AClass Tstr; AClass Tbytes])
                false false false
              = Ret (with_additionalProperties
                       (APVar (with_format "byte" (Var_ (TName "string"))))
                       (Var_ (TName "object")))) by reflexivity.
  split; [exact H|].
  apply (permissive_flags_agree _ false false false true true true _); auto.
Defined.

(** ** Serialisation *)

Section ToDict.

Variable int_of_str : string -> option Z.
Variable format_exc : exn -> string.

Lemma Var_to_dict_set_value x v : Var_to_dict (set_value x v) = Var_to_dict x.
Proof. by destruct x. Qed.

Lemma project_outputs_to_dict payload os :
  Var_to_dict <$> (project_outputs int_of_str payload os).1 = Var_to_dict <$> os.
Proof.
  induction os as [|o os IH]; [done|]. cbn [project_outputs].
  destruct (get_value_by_keys int_of_str payload (_loc o)) as [v|e]; [|done].
  destruct (project_outputs int_of_str payload os) as [rest' err]. cbn [fst] in *.
  rewrite !fmap_cons, IH. f_equal. apply Var_to_dict_set_value.
Qed.

Lemma fmap_DDict_to_dict (l l' : list Var) :
  Var_to_dict <$> l = Var_to_dict <$> l' ->
  (fun x => DDict (Var_to_dict x)) <$> l = (fun x => DDict (Var_to_dict x)) <$> l'.
Proof.
  intros H. rewrite !(list_fmap_compose Var_to_dict DDict). by rewrite H.
Qed.

Lemma Node_call_to_dict self data b r self' :
  Node_call int_of_str format_exc self data b = (r, self') ->
  Node_to_dict self' = Node_to_dict self.
Proof.
  unfold Node_call. destruct (decide _); [|by inversion 1].
  destruct (fn self data) as [payload [e|]]; [by inversion 1|].
  pose proof (project_outputs_to_dict payload (outputs self)) as Hn.
  destruct (project_outputs int_of_str payload (outputs self)) as [os [e|]];
    inversion 1; subst; unfold Node_to_dict; simpl in *;
    by rewrite (fmap_DDict_to_dict _ _ Hn).
Qed.

Lemma Chain_step_to_dict self nid st st' e :
  Chain_step int_of_str format_exc self nid st = (st', e) ->
  forall x, Node_to_dict <$> run_nodes st' !! x = Node_to_dict <$> run_nodes st !! x.
Proof.
  intros H x.
  apply Chain_step_inv in H
    as [[-> _]|(node & d & o & err & node' & Hnode & _ & Hcall & _ & Hnodes & _)];
    [done|].
  rewrite Hnodes. destruct (decide (x = nid)) as [->|Hne].
  - rewrite lookup_insert_eq, Hnode. simpl. f_equal.
    by apply Node_call_to_dict in Hcall.
  - by rewrite lookup_insert_ne.
Qed.

Lemma Chain_run_to_dict self order : forall st st' e,
  Chain_run int_of_str format_exc self order st = (st', e) ->
  forall x, Node_to_dict <$> run_nodes st' !! x = Node_to_dict <$> run_nodes st !! x.
Proof.
  induction order as [|nid order IH]; intros st st' e H x; simpl in H.
  - by inversion H; subst.
  - destruct (Chain_step int_of_str format_exc self nid st) as [st1 [e1|]] eqn:Hstep.
    + inversion H; subst. by eapply Chain_step_to_dict.
    + rewrite (IH _ _ _ H x). by eapply Chain_step_to_dict.
Qed.

(** X20. Running a chain never changes what its nodes serialise to: whatever
    the run ends with, a result or an exception at any node, [to_dict] of
    every node afterwards is [to_dict] of that node before the run. The values
    a call stores on the output Vars are not part of [Var.to_dict]. *)
Theorem to_dict_survives_run (self : Chain) (data : gmap string Value)
    (st : run_state) (e : option exn) :
  Chain_call int_of_str format_exc self data = (st, e) ->
  forall nid, Node_to_dict <$> run_nodes st !! nid = Node_to_dict <$> nodes self !! nid.
Proof.
  unfold Chain_call. intros H nid.
  by rewrite (Chain_run_to_dict _ _ _ _ _ H nid).
Qed.

End ToDict.

Lemma to_dict_survives_run_witness :
  Chain_call no_int plain_trace two_stage url_only = (after_P2, None)
  /\ Node_to_dict <$> run_nodes after_P2 !! "P1" = Node_to_dict <$> nodes two_stage !! "P1".
Proof.
  assert (Hrun : Chain_call no_int plain_trace two_stage url_only = (after_P2, None))
    by (vm_compute; reflexivity).
  split; [exact Hrun|].
  apply (to_dict_survives_run no_int plain_trace two_stage url_only after_P2 None Hrun).
Defined.

(** ** Jinja templates *)

Lemma Value_nested_ind (P : Value -> Prop) :
  P VNone -> (forall b, P (VBool b)) -> (forall z, P (VNum z)) ->
  (forall s, P (VStr s)) ->
  (forall xs, Forall P xs -> P (VList xs)) ->
  (forall xs, Forall P xs -> P (VTuple xs)) ->
  (forall kvs, Forall (fun kv => P kv.2) kvs -> P (VDict kvs)) ->
  (forall r, P (VOpaque r)) ->
  forall v, P v.
Proof.
  intros HN HB HZ HS HL HT HD HO.
  fix IH 1. intros [|b|z|s|xs|xs|kvs|r].
  - apply HN.
  - apply HB.
  - apply HZ.
  - apply HS.
  - apply HL. revert xs. fix IHl 1. intros [|x xs]; constructor; [apply IH|apply IHl].
  - apply HT. revert xs. fix IHl 1. intros [|x xs]; constructor; [apply IH|apply IHl].
  - apply HD. revert kvs. fix IHl 1.
    intros [|[k x] kvs]; constructor; [apply IH|apply IHl].
  - apply HO.
Qed.

Lemma jschema_nested_ind (P : jschema -> Prop) :
  P JScalar -> P JString -> P JNumber -> P JBoolean -> P JUnknown -> P JVariable ->
  (forall data, Forall (fun kv => P kv.2) data -> P (JDictionary data)) ->
  (forall item, P item -> P (JList item)) ->
  P (JTuple None) ->
  (forall items, Forall P items -> P (JTuple (Some items))) ->
  (forall cls, P (JOther cls)) ->
  forall v, P v.
Proof.
  intros H1 H2 H3 H4 H5 H6 HD HL HTN HT HO.
  fix IH 1. intros [| | | | | |data|item|[items|]|cls].
  - apply H1.
  - apply H2.
  - apply H3.
  - apply H4.
  - apply H5.
  - apply H6.
  - apply HD. revert data. fix IHl 1.
    intros [|[k x] data]; constructor; [apply IH|apply IHl].
  - apply HL, IH.
  - apply HT. revert items. fix IHl 1.
    intros [|x items]; constructor; [apply IH|apply IHl].
  - apply HTN.
  - apply HO.
Qed.

Lemma jinja_dict_eq data :
  jinja_schema_to_vars (JDictionary data)
  = bind (mapM_res (fun kv => bind (jinja_schema_to_vars kv.2)
                                   (fun f => Ret (with_name kv.1 f))) data)
         (fun fs => Ret (with_additionalProperties (APList fs) (required_Var "object"))).
Proof.
  change (jinja_schema_to_vars (JDictionary data))
    with (bind ((fix all_fields (l : list (string * jschema)) : res (list Var) :=
                   match l with
                   | [] => Ret []
                   | (k, v) :: l' =>
                       try! field_item := jinja_schema_to_vars v in
                       try! rest := all_fields l' in
                       Ret (with_name k field_item :: rest)
                   end) data)
               (fun fs => Ret (with_additionalProperties (APList fs)
                                 (required_Var "object")))).
  f_equal. induction data as [|[k v] data IH]; [done|].
  simpl. destruct (jinja_schema_to_vars v); simpl; [|done]. by rewrite IH.
Qed.

Lemma jinja_tuple_eq items :
  jinja_schema_to_vars (JTuple (Some items))
  = bind (mapM_res jinja_schema_to_vars items)
         (fun vs => Ret (with_items vs (required_Var "array"))).
Proof.
  assert (Hall : forall l,
    (fix all (l : list jschema) : res (list Var) :=
       match l with
       | [] => Ret []
       | x :: l' =>
           try! v := jinja_schema_to_vars x in
           try! vs := all l' in
           Ret (v :: vs)
       end) l = mapM_res jinja_schema_to_vars l).
  { induction l as [|a l IH]; [done|]. simpl. by rewrite IH. }
  destruct items as [|x items]; [done|].
  rewrite <- Hall. reflexivity.
Qed.

Lemma mapM_res_cases {A B} (f : A -> res B) (h : A -> bool) (Q : A -> B -> Prop) e l :
  Forall (fun a => (h a = true /\ exists x, f a = Ret x /\ Q a x)
                   \/ (h a = false /\ f a = Raise e)) l ->
  (forallb h l = true /\ exists xs, mapM_res f l = Ret xs /\ Forall2 Q l xs)
  \/ (forallb h l = false /\ mapM_res f l = Raise e).
Proof.
  induction 1 as [|a l Ha _ IH]; simpl.
  - left. split; [done|]. exists []. split; [done|constructor].
  - destruct Ha as [[-> (x & -> & Hq)]|[-> ->]]; simpl; [|by right].
    destruct IH as [[-> (xs & -> & Hqs)]|[-> ->]]; simpl; [|by right].
    left. split; [done|]. exists (x :: xs). split; [done|by constructor].
Qed.

Lemma jinja_schema_cases v :
  (handled v = true
   /\ exists x, jinja_schema_to_vars v = Ret x
        /\ (required x = true /\ name x = ""))
  \/ (handled v = false
      /\ jinja_schema_to_vars v = Raise (UnsupportedType "cannot handle type")).
Proof.
  induction v as [| | | | | |data IH|item IH| |items IH|cls] using jschema_nested_ind;
    try (left; split; [done|]; eexists; split; [reflexivity|done]).
  - rewrite jinja_dict_eq. cbn [handled].
    destruct (mapM_res_cases
                (fun kv => bind (jinja_schema_to_vars kv.2)
                             (fun f => Ret (with_name kv.1 f)))
                (fun kv => handled kv.2)
                (fun kv f => name f = kv.1 /\ required f = true)
                (UnsupportedType "cannot handle type") data)
      as [[-> (fs & -> & _)]|[-> ->]].
    + eapply Forall_impl; [exact IH|]. intros [k v]. simpl.
      intros [[-> (x & -> & Hr & _)]|[-> ->]]; [left|by right].
      split; [done|]. exists (with_name k x). split; [done|]. by destruct x.
    + left. split; [done|]. eexists. split; [reflexivity|done].
    + by right.
  - cbn [handled]. simpl.
    destruct IH as [[-> (x & -> & _)]|[-> ->]]; [left|by right].
    split; [done|]. eexists. split; [reflexivity|done].
  - rewrite jinja_tuple_eq. cbn [handled].
    destruct (mapM_res_cases jinja_schema_to_vars handled
                (fun _ x => required x = true)
                (UnsupportedType "cannot handle type") items)
      as [[-> (fs & -> & _)]|[-> ->]].
    + eapply Forall_impl; [exact IH|]. intros v. simpl.
      intros [[-> (x & -> & Hr & _)]|[-> ->]]; [left|by right]. eauto.
    + left. split; [done|]. eexists. split; [reflexivity|done].
    + by right.
  - by right.
Qed.

(** X21. [jinja_schema_to_vars] returns exactly for the schemas built from the
    classes it names (Scalar, String, Number, Boolean, Unknown, Variable,
    Dictionary, List, Tuple) at every depth, and raises its ValueError for any
    other. What it returns is required and unnamed; for a Dictionary the
    properties are named after the keys, in order, and for a Tuple there is
    one item per member. *)
Theorem jinja_schema_to_vars_handled v :
  match jinja_schema_to_vars v with
  | Ret x =>
      handled v = true /\ required x = true /\ name x = ""
      /\ match v with
         | JDictionary data =>
             exists fs, additionalProperties x = APList fs /\ name <$> fs = data.*1
         | JTuple (Some items') => length (items x) = length items'
         | JList _ => length (items x) = 1%nat
         | _ => items x = []
         end
  | Raise e => handled v = false /\ e = UnsupportedType "cannot handle type"
  end.
Proof.
  destruct (jinja_schema_cases v) as [[Hh (x & Hx & Hr & Hn)]|[Hh Hx]];
    rewrite Hx; [|done].
  split; [done|]. split; [done|]. split; [done|].
  destruct v as [| | | | | |data|item|[items'|]|cls];
    try (by inversion Hx).
  - rewrite jinja_dict_eq in Hx.
    destruct (mapM_res _ data) as [fs|] eqn:Hfs; [|done].
    inversion Hx; subst. exists fs. split; [done|].
    apply mapM_res_Ret in Hfs. clear -Hfs.
    induction Hfs as [|[k v] f data fs Hf _ IH]; [done|].
    rewrite !fmap_cons, IH. f_equal. simpl in Hf.
    destruct (jinja_schema_to_vars v) as [y|]; [|done].
    inversion Hf. by destruct y.
  - simpl in Hx. destruct (jinja_schema_to_vars item); by inversion Hx.
  - rewrite jinja_tuple_eq in Hx.
    destruct (mapM_res _ items') as [vs|] eqn:Hvs; [|done].
    inversion Hx; subst. apply mapM_res_Ret in Hvs.
    simpl. symmetry. by eapply Forall2_length.
Qed.

Section JinjaProps.

Variable infer : string -> res (list (string * jschema)).

(** X22. For a template whose variables [infer] finds, [jtype_to_vars]
    returns one required field per variable, in order and named after it,
    when every variable's schema is handled; otherwise it raises the
    ValueError of the conversion. *)
Theorem jtype_to_vars_fields prompt s :
  infer prompt = Ret s ->
  if forallb (fun kv => handled kv.2) s
  then exists fields, jtype_to_vars infer prompt = Ret fields
         /\ name <$> fields = s.*1
         /\ Forall (fun f => required f = true) fields
  else jtype_to_vars infer prompt = Raise (UnsupportedType "cannot handle type").
Proof.
  intros Hs. unfold jtype_to_vars. rewrite Hs. simpl.
  destruct (mapM_res_cases
              (fun kv => bind (jinja_schema_to_vars kv.2)
                           (fun f => Ret (with_name kv.1 f)))
              (fun kv => handled kv.2)
              (fun kv f => name f = kv.1 /\ required f = true)
              (UnsupportedType "cannot handle type") s)
    as [[-> (fs & -> & Hfs)]|[-> ->]]; [| |done].
  - apply Forall_forall. intros [k v] _. simpl.
    destruct (jinja_schema_cases v) as [[-> (x & -> & Hr & _)]|[-> ->]];
      [left|by right].
    split; [done|]. exists (with_name k x). split; [done|]. by destruct x.
  - exists fs. split; [done|]. clear Hs.
    induction Hfs as [|[k v] f s' fs [Hn Hr] _ IH]; [done|].
    destruct IH as [IH1 IH2].
    split; [by rewrite !fmap_cons, IH1, Hn|by constructor].
Qed.

End JinjaProps.

Section JinjaUnfold.

Variable infer : string -> res (list (string * jschema)).

Lemma extract_VList xs cur acc :
  extract_jinja_indices infer (VList xs) cur acc = extract_items infer cur xs 0%nat acc.
Proof. reflexivity. Qed.

Lemma extract_VDict kvs cur acc :
  extract_jinja_indices infer (VDict kvs) cur acc = extract_entries infer cur kvs acc.
Proof. reflexivity. Qed.

End JinjaUnfold.

Lemma digit_of_pretty (d : BinNums.N) : (d < 10)%N -> digit_of (pretty_N_char d) = Some d.
Proof.
  intros Hd. destruct d as [|p]; [done|].
  do 4 (destruct p as [p|p|]; try done; try lia).
Qed.

Lemma digits_value_pretty_go (x : BinNums.N) :
  exists k : BinNums.N, forall s acc,
    digits_value (pretty_N_go x s) acc = digits_value s (acc * 10 ^ k + x)%N.
Proof.
  induction (N.lt_wf_0 x) as [x _ IH].
  destruct (decide (x = 0)%N) as [->|Hx].
  - exists 0%N. intros s acc. rewrite pretty_N_go_0. f_equal. lia.
  - destruct (IH (x `div` 10)%N) as [k Hk].
    { apply N.div_lt; lia. }
    exists (k + 1)%N. intros s acc.
    rewrite pretty_N_go_step by lia. rewrite Hk. cbn [digits_value].
    rewrite digit_of_pretty by (apply N.mod_lt; lia).
    f_equal. rewrite N.pow_add_r.
    pose proof (N.div_mod x 10). lia.
Qed.

Lemma pretty_go_nonempty (x : BinNums.N) s : s <> "" -> pretty_N_go x s <> "".
Proof.
  revert s. induction (N.lt_wf_0 x) as [x _ IH]. intros s Hs.
  destruct (decide (x = 0)%N) as [->|Hx].
  - by rewrite pretty_N_go_0.
  - rewrite pretty_N_go_step by lia. apply IH; [apply N.div_lt; lia|done].
Qed.

Lemma pretty_nat_nonempty (i : nat) : pretty i <> "".
Proof.
  unfold pretty, pretty_nat, pretty, pretty_N.
  destruct (decide _); [done|].
  assert (0 < N.of_nat i)%N as Hi by lia.
  rewrite pretty_N_go_step by done. by apply pretty_go_nonempty.
Qed.

Lemma decimal_int_pretty (i : nat) : decimal_int (pretty i) = Some (Z.of_nat i).
Proof.
  unfold decimal_int. pose proof (pretty_nat_nonempty i) as Hne.
  destruct (pretty i) as [|c s] eqn:Hp; [done|]. rewrite <- Hp. clear Hne Hp c s.
  unfold pretty, pretty_nat, pretty, pretty_N.
  destruct (decide _) as [H0|H0].
  - simpl. f_equal. lia.
  - destruct (digits_value_pretty_go (N.of_nat i)) as [k Hk].
    rewrite Hk. simpl. f_equal. lia.
Qed.

Lemma mapM_res_app {A B} (f : A -> res B) l1 l2 :
  mapM_res f (l1 ++ l2)
  = bind (mapM_res f l1) (fun a => bind (mapM_res f l2) (fun b => Ret (a ++ b))).
Proof.
  induction l1 as [|x l1 IH]; simpl.
  - by destruct (mapM_res f l2).
  - destruct (f x); simpl; [|done]. rewrite IH.
    destruct (mapM_res f l1); simpl; [|done]. by destruct (mapM_res f l2).
Qed.

Lemma index_keys_falsy cur : index_truthy cur = false -> index_keys cur = [].
Proof.
  destruct cur as [k|ks]; simpl.
  - by intros ->.
  - intros H. apply negb_false_iff, bool_decide_eq_true in H. done.
Qed.

Lemma index_keys_new_truthy cur bare inner :
  index_truthy cur = true ->
  index_keys (new_index cur bare inner) = index_keys cur ++ [inner].
Proof.
  unfold new_index. intros H. rewrite H.
  destruct cur as [k|ks]; simpl in *; [by rewrite H|done].
Qed.

Lemma index_keys_new_falsy cur bare inner :
  index_truthy cur = false -> key_truthy bare = true ->
  index_keys (new_index cur bare inner) = [bare].
Proof. unfold new_index. intros -> H. simpl. by rewrite H. Qed.

Lemma index_keys_new_nonempty cur bare inner :
  key_truthy bare = true -> index_keys (new_index cur bare inner) <> [].
Proof.
  intros Hb. destruct (index_truthy cur) eqn:Hc.
  - rewrite index_keys_new_truthy by done. by destruct (index_keys cur).
  - by rewrite index_keys_new_falsy.
Qed.

Lemma dict_get_NoDup (kvs : list (key * Value)) k v :
  NoDup kvs.*1 -> (k, v) ∈ kvs -> dict_get kvs k = Some v.
Proof.
  induction kvs as [|[k' v'] kvs IH]; intros Hnd Hin.
  - by apply elem_of_nil in Hin.
  - rewrite fmap_cons in Hnd. apply NoDup_cons in Hnd as [Hk' Hnd]. simpl in *.
    apply elem_of_cons in Hin as [Heq|Hin].
    + inversion Heq; subst. by rewrite decide_True.
    + rewrite decide_False; [by apply IH|].
      intros ->. apply Hk'. apply list_elem_of_fmap. by exists (k, v).
Qed.

Section JinjaLocate.

Variable int_of_str : string -> option Z.
Variable infer : string -> res (list (string * jschema)).

Lemma get_snoc obj p k :
  get_value_by_keys int_of_str obj (p ++ [k])
  = bind (get_value_by_keys int_of_str obj p)
         (fun o => get_value_by_keys int_of_str o [k]).
Proof.
  revert obj. induction p as [|k' p IH]; intros obj; [done|].
  cbn [app get_value_by_keys].
  destruct obj as [| | | |xs|xs|d|]; try done; try apply IH.
  - destruct (py_int int_of_str k') as [i|e]; simpl; [|done].
    destruct (decide _); [apply IH|done].
  - destruct (py_int int_of_str k') as [i|e]; simpl; [|done].
    destruct (decide _); [apply IH|done].
Qed.

Hypothesis int_of_str_pretty : forall i : nat, int_of_str (pretty i) = Some (Z.of_nat i).

Lemma get_list_item (xs : list Value) (i : nat) item k :
  xs !! i = Some item ->
  py_int int_of_str k = Ret (Z.of_nat i) ->
  get_value_by_keys int_of_str (VList xs) [k] = Ret item.
Proof.
  intros Hi Hk. simpl. rewrite Hk. simpl.
  apply lookup_lt_Some in Hi as Hlt.
  rewrite decide_True by lia. by rewrite Nat2Z.id, Hi.
Qed.

Lemma extract_sound_aux root : forall d cur acc out,
  distinct_keys d = true ->
  get_value_by_keys int_of_str root (index_keys cur) = Ret d ->
  (index_keys cur = [] ->
   forall kvs, d = VDict kvs -> Forall (fun kv => key_truthy kv.1 = true) kvs) ->
  Forall (located infer int_of_str root) acc ->
  extract_jinja_indices infer d cur acc = Ret out ->
  Forall (located infer int_of_str root) out.
Proof.
  induction d as [|b|z|s|xs IH|xs _|kvs IH|r] using Value_nested_ind;
    intros cur acc out Hd Hget Hroot Hacc Hex;
    try (by inversion Hex; subst).
  - simpl in Hex. destruct (jtype_to_vars infer s) as [fields|] eqn:Hf; [|done].
    destruct fields as [|f fields]; simpl in Hex; inversion Hex; subst; [done|].
    apply Forall_app. split; [done|]. constructor; [|constructor].
    exists s. by repeat split.
  - rewrite extract_VList in Hex. cbn [distinct_keys] in Hd.
    assert (Hpos : forall j item, xs !! j = Some item -> xs !! (0 + j)%nat = Some item)
      by done.
    revert Hpos Hd Hacc Hex IH.
    generalize xs at 1 3 4 5. generalize 0%nat. intros i l. revert i acc.
    induction l as [|item l IHl]; intros i acc Hpos Hd Hacc Hex IH.
    + by inversion Hex; subst.
    + cbn [extract_items] in Hex.
      destruct (extract_jinja_indices infer item _ acc) as [acc1|] eqn:Hitem;
        [|done].
      simpl in Hex. cbn [forallb] in Hd. apply andb_true_iff in Hd as [Hd1 Hd2].
      apply Forall_cons in IH as [IH1 IH2].
      apply (IHl (S i) acc1); try done.
      * intros j it Hj. replace (S i + j)%nat with (i + S j)%nat by lia. by apply Hpos.
      * apply (IH1 _ _ _ Hd1) in Hitem; [done| | |done].
        -- specialize (Hpos 0%nat item eq_refl). rewrite Nat.add_0_r in Hpos.
           destruct (index_truthy cur) eqn:Hc.
           ++ rewrite index_keys_new_truthy by done.
              rewrite get_snoc, Hget.
              by apply (get_list_item _ i).
           ++ rewrite index_keys_new_falsy;
                [|done|by simpl; rewrite bool_decide_eq_false_2;
                         [|apply pretty_nat_nonempty]].
              rewrite index_keys_falsy in Hget by done. inversion Hget; subst.
              apply (get_list_item _ i); [done|].
              simpl. by rewrite int_of_str_pretty.
        -- intros Hnil. exfalso. revert Hnil. apply index_keys_new_nonempty.
           simpl. rewrite bool_decide_eq_false_2; [done|apply pretty_nat_nonempty].
  - rewrite extract_VDict in Hex. cbn [distinct_keys] in Hd.
    apply andb_true_iff in Hd as [Hnd Hd]. apply bool_decide_eq_true in Hnd.
    assert (Hpos : forall kv, kv ∈ kvs -> kv ∈ kvs) by done.
    revert Hpos Hd Hacc Hex IH.
    generalize kvs at 1 3 4 5. intros l. revert acc.
    induction l as [|[k v] l IHl]; intros acc Hpos Hd Hacc Hex IH.
    + by inversion Hex; subst.
    + cbn [extract_entries] in Hex.
      destruct (extract_jinja_indices infer v _ acc) as [acc1|] eqn:Hitem;
        [|done].
      simpl in Hex. cbn [forallb] in Hd. apply andb_true_iff in Hd as [Hd1 Hd2].
      apply Forall_cons in IH as [IH1 IH2].
      apply (IHl acc1); try done.
      * intros kv Hkv. apply Hpos. apply elem_of_cons. by right.
      * assert (Hin : (k, v) ∈ kvs) by (apply Hpos, elem_of_cons; by left).
        assert (Hkv : get_value_by_keys int_of_str (VDict kvs) [k] = Ret v).
        { simpl. by rewrite (dict_get_NoDup _ _ _ Hnd Hin). }
        destruct (index_truthy cur) eqn:Hc.
        -- apply (IH1 _ _ _ Hd1) in Hitem; [done| | |done].
           ++ rewrite index_keys_new_truthy by done.
              rewrite get_snoc, Hget. exact Hkv.
           ++ intros Hnil. rewrite index_keys_new_truthy in Hnil by done.
              by destruct (index_keys cur).
        -- pose proof (index_keys_falsy _ Hc) as Hnil.
           pose proof (Hroot Hnil kvs eq_refl) as Hkeys.
           rewrite Forall_forall in Hkeys. specialize (Hkeys _ Hin). simpl in Hkeys.
           apply (IH1 _ _ _ Hd1) in Hitem; [done| | |done].
           ++ rewrite index_keys_new_falsy by done.
              rewrite Hnil in Hget. by inversion Hget; subst.
           ++ intros Hn. exfalso. revert Hn. by apply index_keys_new_nonempty.
Qed.

(** X23. Every entry [extract_jinja_indices] reports leads back to its
    template: given to [get_value_by_keys] on the same data, the entry's index
    returns a string, and the entry's fields are the non-empty result of
    [jtype_to_vars] on that string. It holds for data as Python builds it (no
    dict with a repeated key), with [int(str(i)) = i] for the builtin, and
    needs a dict at the root to have no falsy key (an empty string, a zero),
    since a falsy index is taken for the root itself. *)
Theorem extract_indices_locate (data : Value) (entries : list (jindex * list Var)) :
  distinct_keys data = true ->
  (forall kvs, data = VDict kvs -> Forall (fun kv => key_truthy kv.1 = true) kvs) ->
  extract_jinja_indices infer data (ITuple []) [] = Ret entries ->
  Forall (fun e =>
            exists s, get_value_by_keys int_of_str data (index_keys e.1) = Ret (VStr s)
                      /\ jtype_to_vars infer s = Ret e.2 /\ e.2 <> [])
         entries.
Proof.
  intros Hd Hkeys Hex.
  by apply (extract_sound_aux data data (ITuple []) [] entries Hd).
Qed.

End JinjaLocate.

Section JinjaAll.

Variable infer : string -> res (list (string * jschema)).

Lemma extract_complete_aux : forall d cur acc,
  match mapM_res (jtype_to_vars infer) (template_strings d) with
  | Ret fss =>
      exists new, extract_jinja_indices infer d cur acc = Ret (acc ++ new)
                  /\ new.*2 = List.filter has_fields fss
  | Raise e => extract_jinja_indices infer d cur acc = Raise e
  end.
Proof.
  induction d as [|b|z|s|xs IH|xs _|kvs IH|r] using Value_nested_ind;
    intros cur acc;
    try (by exists []; rewrite app_nil_r).
  - simpl. destruct (jtype_to_vars infer s) as [[|f fields]|e]; simpl; [| |done].
    + exists []. by rewrite app_nil_r.
    + by exists [(cur, f :: fields)].
  - rewrite extract_VList. cbn [template_strings]. generalize 0%nat. revert acc.
    induction IH as [|item l Hitem _ IHl]; intros acc i.
    + exists []. by rewrite app_nil_r.
    + cbn [extract_items mbind list_bind]. rewrite mapM_res_app.
      specialize (Hitem
        (new_index cur (KStr (pretty i)) (KInt (Z.of_nat i))) acc).
      destruct (mapM_res _ (template_strings item)) as [fss1|e];
        [|by rewrite Hitem].
      destruct Hitem as (new1 & -> & Hnew1). cbn [bind].
      specialize (IHl (acc ++ new1) (S i)).
      destruct (mapM_res _ (l ≫= template_strings)) as [fss2|e]; [|done].
      destruct IHl as (new2 & -> & Hnew2). cbn [bind].
      exists (new1 ++ new2). split; [by rewrite app_assoc|].
      by rewrite fmap_app, List.filter_app, Hnew1, Hnew2.
  - rewrite extract_VDict. cbn [template_strings]. revert acc.
    induction IH as [|[k v] l Hitem _ IHl]; intros acc.
    + exists []. by rewrite app_nil_r.
    + cbn [extract_entries mbind list_bind]. rewrite mapM_res_app.
      specialize (Hitem (new_index cur k k) acc). cbn [snd] in *.
      destruct (mapM_res _ (template_strings v)) as [fss1|e];
        [|by rewrite Hitem].
      destruct Hitem as (new1 & -> & Hnew1). cbn [bind].
      specialize (IHl (acc ++ new1)).
      destruct (mapM_res _ (l ≫= _)) as [fss2|e]; [|done].
      destruct IHl as (new2 & -> & Hnew2). cbn [bind].
      exists (new1 ++ new2). split; [by rewrite app_assoc|].
      by rewrite fmap_app, List.filter_app, Hnew1, Hnew2.
Qed.

(** X24. [extract_jinja_indices] reports every template it can reach and
    nothing else: walking lists and dicts (and only those) in order, it calls
    [jtype_to_vars] on each string; if one of the calls raises, the first
    such exception is raised; otherwise the entries carry, in the order of
    the walk, the field lists of exactly the strings that have a variable. *)
Theorem extract_reports_reached_templates (data : Value) :
  match mapM_res (jtype_to_vars infer) (template_strings data) with
  | Ret fss =>
      exists entries,
        extract_jinja_indices infer data (ITuple []) [] = Ret entries
        /\ entries.*2 = List.filter has_fields fss
  | Raise e => extract_jinja_indices infer data (ITuple []) [] = Raise e
  end.
Proof.
  pose proof (extract_complete_aux data (ITuple []) []) as H.
  destruct (mapM_res _ _); [|done].
  destruct H as (new & H & Hnew). by exists new.
Qed.

End JinjaAll.

Section JinjaPut.

Variable infer : string -> res (list (string * jschema)).

Lemma index_keys_nonempty_truthy cur : index_keys cur <> [] -> index_truthy cur = true.
Proof.
  intros H. destruct (index_truthy cur) eqn:Hc; [done|].
  by apply index_keys_falsy in Hc.
Qed.

Lemma writable_step_dict kvs k item q :
  NoDup kvs.*1 -> (k, item) ∈ kvs -> is_container item = true -> q <> [] ->
  writable item q = true -> writable (VDict kvs) (k :: q) = true.
Proof.
  intros Hnd Hin Hc Hq Hw. destruct q as [|next q]; [done|].
  cbn [writable]. rewrite (dict_get_NoDup _ _ _ Hnd Hin).
  unfold put_child. by rewrite Hc.
Qed.

Lemma writable_step_list (xs : list Value) (i : nat) item q :
  xs !! i = Some item -> is_container item = true -> q <> [] ->
  writable item q = true -> writable (VList xs) (KInt (Z.of_nat i) :: q) = true.
Proof.
  intros Hi Hc Hq Hw. destruct q as [|next q]; [done|].
  cbn [writable]. apply lookup_lt_Some in Hi as Hlt.
  rewrite bool_decide_eq_true_2 by lia. rewrite Nat2Z.id, Hi.
  unfold put_child. by rewrite Hc.
Qed.

Lemma extract_writable_aux root : forall d cur acc out,
  distinct_keys d = true ->
  (index_keys cur = [] ->
   exists kvs, d = VDict kvs /\ Forall (fun kv => key_truthy kv.1 = true) kvs) ->
  (is_container d = true ->
   forall q, q <> [] -> writable d q = true ->
             writable root (index_keys cur ++ q) = true) ->
  (is_container d = false -> writable root (index_keys cur) = true) ->
  Forall (fun e => writable root (index_keys e.1) = true) acc ->
  extract_jinja_indices infer d cur acc = Ret out ->
  Forall (fun e => writable root (index_keys e.1) = true) out.
Proof.
  induction d as [|b|z|s|xs IH|xs _|kvs IH|r] using Value_nested_ind;
    intros cur acc out Hd Hroot Hcont Hleaf Hacc Hex;
    try (by inversion Hex; subst).
  - simpl in Hex. destruct (jtype_to_vars infer s) as [fields|] eqn:Hf; [|done].
    destruct fields as [|f fields]; simpl in Hex; inversion Hex; subst; [done|].
    apply Forall_app. split; [done|]. constructor; [|constructor].
    by apply Hleaf.
  - rewrite extract_VList in Hex. cbn [distinct_keys] in Hd.
    assert (Hc : index_truthy cur = true).
    { apply index_keys_nonempty_truthy. intros Hnil.
      by destruct (Hroot Hnil) as (? & ? & _). }
    specialize (Hcont eq_refl). clear Hleaf Hroot.
    assert (Hpos : forall j item, xs !! j = Some item -> xs !! (0 + j)%nat = Some item)
      by done.
    revert Hpos Hd Hacc Hex IH.
    generalize xs at 1 3 4 5. generalize 0%nat. intros i l. revert i acc.
    induction l as [|item l IHl]; intros i acc Hpos Hd Hacc Hex IH.
    + by inversion Hex; subst.
    + cbn [extract_items] in Hex.
      destruct (extract_jinja_indices infer item _ acc) as [acc1|] eqn:Hitem;
        [|done].
      simpl in Hex. cbn [forallb] in Hd. apply andb_true_iff in Hd as [Hd1 Hd2].
      apply Forall_cons in IH as [IH1 IH2].
      apply (IHl (S i) acc1); try done.
      * intros j it Hj. replace (S i + j)%nat with (i + S j)%nat by lia.
        by apply Hpos.
      * specialize (Hpos 0%nat item eq_refl). rewrite Nat.add_0_r in Hpos.
        apply (IH1 _ _ _ Hd1) in Hitem; [done| | | |done].
        -- intros Hnil. rewrite index_keys_new_truthy in Hnil by done.
           by destruct (index_keys cur).
        -- intros Hci q Hq Hw. rewrite index_keys_new_truthy by done.
           rewrite <- app_assoc. apply Hcont; [done|].
           by apply (writable_step_list _ _ item).
        -- intros _. rewrite index_keys_new_truthy by done.
           apply Hcont; [done|]. simpl. apply lookup_lt_Some in Hpos.
           apply bool_decide_eq_true_2. lia.
  - rewrite extract_VDict in Hex. cbn [distinct_keys] in Hd.
    apply andb_true_iff in Hd as [Hnd Hd]. apply bool_decide_eq_true in Hnd.
    specialize (Hcont eq_refl). clear Hleaf.
    assert (Hpos : forall kv, kv ∈ kvs -> kv ∈ kvs) by done.
    revert Hpos Hd Hacc Hex IH.
    generalize kvs at 1 3 4 5. intros l. revert acc.
    induction l as [|[k v] l IHl]; intros acc Hpos Hd Hacc Hex IH.
    + by inversion Hex; subst.
    + cbn [extract_entries] in Hex.
      destruct (extract_jinja_indices infer v _ acc) as [acc1|] eqn:Hitem;
        [|done].
      simpl in Hex. cbn [forallb] in Hd. apply andb_true_iff in Hd as [Hd1 Hd2].
      apply Forall_cons in IH as [IH1 IH2].
      apply (IHl acc1); try done.
      * intros kv Hkv. apply Hpos. apply elem_of_cons. by right.
      * assert (Hin : (k, v) ∈ kvs) by (apply Hpos, elem_of_cons; by left).
        assert (Hkeys : index_keys (new_index cur k k) = index_keys cur ++ [k]).
        { destruct (index_truthy cur) eqn:Hc.
          - by apply index_keys_new_truthy.
          - pose proof (index_keys_falsy _ Hc) as Hnil.
            destruct (Hroot Hnil) as (kvs' & Heq & Hk). inversion Heq; subst kvs'.
            rewrite Forall_forall in Hk. specialize (Hk _ Hin).
            rewrite index_keys_new_falsy by done. by rewrite Hnil. }
        apply (IH1 _ _ _ Hd1) in Hitem; [done| | | |done].
        -- rewrite Hkeys. by destruct (index_keys cur).
        -- intros Hci q Hq Hw. rewrite Hkeys, <- app_assoc.
           apply Hcont; [done|]. by apply (writable_step_dict _ _ v).
        -- intros _. rewrite Hkeys. by apply Hcont.
Qed.

(** X25. When the data is a dict with no falsy key at its top level, every
    index [extract_jinja_indices] reports is a path with a writable leaf: the
    place of the template can be overwritten with [put_value_by_keys]. *)
Theorem extract_indices_writable (kvs : list (key * Value))
    (entries : list (jindex * list Var)) :
  distinct_keys (VDict kvs) = true ->
  Forall (fun kv => key_truthy kv.1 = true) kvs ->
  extract_jinja_indices infer (VDict kvs) (ITuple []) [] = Ret entries ->
  Forall (fun e => writable (VDict kvs) (index_keys e.1) = true) entries.
Proof.
  intros Hd Hkeys Hex.
  apply (extract_writable_aux (VDict kvs) (VDict kvs) (ITuple []) [] entries Hd);
    try done.
  intros _. by exists kvs.
Qed.

Lemma extract_str_head_aux : forall d cur acc out,
  (exists s rest, index_keys cur = KStr s :: rest) ->
  Forall (fun e => exists s rest, index_keys e.1 = KStr s :: rest) acc ->
  extract_jinja_indices infer d cur acc = Ret out ->
  Forall (fun e => exists s rest, index_keys e.1 = KStr s :: rest) out.
Proof.
  induction d as [|b|z|s|xs IH|xs _|kvs IH|r] using Value_nested_ind;
    intros cur acc out Hcur Hacc Hex;
    try (by inversion Hex; subst).
  - simpl in Hex. destruct (jtype_to_vars infer s) as [fields|] eqn:Hf; [|done].
    destruct fields as [|f fields]; simpl in Hex; inversion Hex; subst; [done|].
    apply Forall_app. split; [done|]. by constructor.
  - rewrite extract_VList in Hex. revert Hacc Hex.
    generalize 0%nat. revert acc.
    induction IH as [|item l Hitem _ IHl]; intros acc i Hacc Hex.
    + by inversion Hex; subst.
    + cbn [extract_items] in Hex.
      destruct (extract_jinja_indices infer item _ acc) as [acc1|] eqn:Hi; [|done].
      simpl in Hex. apply (IHl acc1 (S i)); [|done].
      apply Hitem in Hi; [done| |done].
      destruct Hcur as (s & rest & Hs).
      rewrite index_keys_new_truthy, Hs.
      * by exists s, (rest ++ [KInt (Z.of_nat i)]).
      * apply index_keys_nonempty_truthy. by rewrite Hs.
  - rewrite extract_VDict in Hex. revert Hacc Hex. revert acc.
    induction IH as [|[k v] l Hitem _ IHl]; intros acc Hacc Hex.
    + by inversion Hex; subst.
    + cbn [extract_entries] in Hex.
      destruct (extract_jinja_indices infer v _ acc) as [acc1|] eqn:Hi; [|done].
      simpl in Hex. apply (IHl acc1); [|done].
      apply Hitem in Hi; [done| |done].
      destruct Hcur as (s & rest & Hs).
      rewrite index_keys_new_truthy, Hs.
      * by exists s, (rest ++ [k]).
      * apply index_keys_nonempty_truthy. by rewrite Hs.
Qed.

(** X26. When the data is a list, no index [extract_jinja_indices] reports can
    be written through: each starts with the position as a string, which
    [put_value_by_keys] does not take for an index of a list, so a put at a
    reported index leaves the data as it was. *)
Theorem extract_indices_of_list_not_written (xs : list Value)
    (entries : list (jindex * list Var)) :
  extract_jinja_indices infer (VList xs) (ITuple []) [] = Ret entries ->
  Forall (fun e => forall v, put_value_by_keys (VList xs) (index_keys e.1) v = VList xs)
         entries.
Proof.
  intros Hex.
  assert (Hhead : Forall (fun e => exists s rest, index_keys e.1 = KStr s :: rest)
                         entries).
  { rewrite extract_VList in Hex. revert Hex.
    assert (Hacc : Forall (fun e : jindex * list Var =>
                             exists s rest, index_keys e.1 = KStr s :: rest) [])
      by constructor.
    revert Hacc. generalize (@nil (jindex * list Var)). generalize 0%nat.
    induction xs as [|item l IHl]; intros i acc Hacc Hex.
    - by inversion Hex; subst.
    - cbn [extract_items] in Hex.
      destruct (extract_jinja_indices infer item _ acc) as [acc1|] eqn:Hi; [|done].
      simpl in Hex. apply (IHl (S i) acc1); [|done].
      apply extract_str_head_aux in Hi; [done| |done].
      exists (pretty i), []. apply index_keys_new_falsy; [done|].
      simpl. rewrite bool_decide_eq_false_2; [done|apply pretty_nat_nonempty]. }
  eapply Forall_impl; [exact Hhead|].
  intros e (s & rest & ->) v. by destruct rest.
Qed.

End JinjaPut.

Lemma jtype_to_vars_fields_witness :
  sample_infer "{{ a }} of {{ b.c }}"
  = Ret [("a", JScalar); ("b", JDictionary [("c", JScalar)])]
  /\ exists fields, jtype_to_vars sample_infer "{{ a }} of {{ b.c }}" = Ret fields
       /\ name <$> fields = ["a"; "b"]
       /\ Forall (fun f => required f = true) fields.
Proof.
  split; [reflexivity|].
  apply (jtype_to_vars_fields sample_infer "{{ a }} of {{ b.c }}"
           [("a", JScalar); ("b", JDictionary [("c", JScalar)])]).
  reflexivity.
Defined.

Lemma extract_indices_locate_witness :
  extract_jinja_indices sample_infer sample_messages (ITuple []) []
  = Ret [(ITuple [KStr "1"; KStr "content"],
          [with_name "name" (required_Var "string")])]
  /\ Forall (fun e =>
       exists s, get_value_by_keys decimal_int sample_messages (index_keys e.1)
                 = Ret (VStr s)
                 /\ jtype_to_vars sample_infer s = Ret e.2 /\ e.2 <> [])
       [(ITuple [KStr "1"; KStr "content"],
         [with_name "name" (required_Var "string")])].
Proof.
  assert (Hex : extract_jinja_indices sample_infer sample_messages (ITuple []) []
                = Ret [(ITuple [KStr "1"; KStr "content"],
                        [with_name "name" (required_Var "string")])])
    by (vm_compute; reflexivity).
  split; [exact Hex|].
  apply (extract_indices_locate decimal_int sample_infer decimal_int_pretty
           sample_messages _).
  - vm_compute. reflexivity.
  - intros kvs Hkvs. discriminate Hkvs.
  - exact Hex.
Defined.

Lemma extract_indices_writable_witness :
  extract_jinja_indices sample_infer sample_request (ITuple []) []
  = Ret [(ITuple [KStr "messages"; KInt 1; KStr "content"],
          [with_name "name" (required_Var "string")])]
  /\ Forall (fun e => writable sample_request (index_keys e.1) = true)
       [(ITuple [KStr "messages"; KInt 1; KStr "content"],
         [with_name "name" (required_Var "string")])].
Proof.
  assert (Hex : extract_jinja_indices sample_infer sample_request (ITuple []) []
                = Ret [(ITuple [KStr "messages"; KInt 1; KStr "content"],
                        [with_name "name" (required_Var "string")])])
    by (vm_compute; reflexivity).
  split; [exact Hex|].
  apply (extract_indices_writable sample_infer
           [(KStr "model", VStr "gpt"); (KStr "messages", sample_messages)] _).
  - vm_compute. reflexivity.
  - repeat constructor.
  - exact Hex.
Defined.

Lemma extract_indices_of_list_not_written_witness :
  extract_jinja_indices sample_infer sample_messages (ITuple []) []
  = Ret [(ITuple [KStr "1"; KStr "content"],
          [with_name "name" (required_Var "string")])]
  /\ Forall (fun e => forall v,
                put_value_by_keys sample_messages (index_keys e.1) v = sample_messages)
       [(ITuple [KStr "1"; KStr "content"],
         [with_name "name" (required_Var "string")])].
Proof.
  assert (Hex : extract_jinja_indices sample_infer sample_messages (ITuple []) []
                = Ret [(ITuple [KStr "1"; KStr "content"],
                        [with_name "name" (required_Var "string")])])
    by (vm_compute; reflexivity).
  split; [exact Hex|].
  exact (extract_indices_of_list_not_written sample_infer _ _ Hex).
Defined.

(** ** Return-signature inference *)

Lemma item_objects_union args :
  item_objects (AGeneric OUnion args)
  = match item_objects <$> List.filter is_not_None args with
    | [objects] => objects
    | _ => []
    end.
Proof.
  assert (H : forall l,
    (fix members (l : list annot) : list (list nat) :=
       match l with
       | [] => []
       | a :: l' => if is_not_None a then item_objects a :: members l' else members l'
       end) l = item_objects <$> List.filter is_not_None l).
  { induction l as [|a l IH]; [done|]. simpl.
    destruct (is_not_None a); [by rewrite IH|done]. }
  rewrite <- H. reflexivity.
Qed.

Lemma first_item_objects_union args :
  first_item_objects (AGeneric OUnion args)
  = match first_item_objects <$> List.filter is_not_None args with
    | [objects] => objects
    | _ => []
    end.
Proof.
  assert (H : forall l,
    (fix members (l : list annot) : list (list nat) :=
       match l with
       | [] => []
       | a :: l' =>
           if is_not_None a then first_item_objects a :: members l' else members l'
       end) l = first_item_objects <$> List.filter is_not_None l).
  { induction l as [|a l IH]; [done|]. simpl.
    destruct (is_not_None a); [by rewrite IH|done]. }
  rewrite <- H. reflexivity.
Qed.

Lemma forallb_filter_elem (f g : annot -> bool) l m :
  forallb f l = true -> List.filter g l = [m] -> f m = true.
Proof.
  intros Hf Hm. rewrite forallb_forall in Hf. apply Hf.
  apply (filter_In g). rewrite Hm. by left.
Qed.

Lemma Forall_filter_elem (P : annot -> Prop) (g : annot -> bool) l m :
  Forall P l -> List.filter g l = [m] -> P m.
Proof.
  intros Hf Hm. rewrite Forall_forall in Hf. apply Hf.
  apply list_elem_of_In. apply (filter_In g). rewrite Hm. by left.
Qed.

Section ReturnVars.

Variables aa ae an : bool.

Local Abbreviation conv := (fun x => pyannotation_to_json_schema x aa ae an).

Lemma item_objects_fresh x : forall v,
  bare_tuple_free x = true ->
  pyannotation_to_json_schema x aa ae an = Ret v ->
  item_objects x = seq 0 (length (items v)).
Proof.
  induction x as [t|s|o args IH|xs _| | |] using annot_nested_ind;
    intros v Hfree Hv; try done.
  - destruct t; simpl in Hv; try (by inversion Hv).
    + by destruct ae; inversion Hv.
    + by destruct an; inversion Hv.
  - by inversion Hv.
  - destruct o as [| | | |q].
    + destruct args as [|a args]; [done|]. simpl in Hv.
      destruct (pyannotation_to_json_schema a aa ae an); by inversion Hv.
    + simpl in Hv.
      destruct args as [|[[]| | | | | |] [|a [|? ?]]]; try done.
      destruct (pyannotation_to_json_schema a aa ae an); by inversion Hv.
    + rewrite schema_tuple_eq in Hv.
      destruct (mapM_res _ args) as [vs|] eqn:Hvs; [|done].
      inversion Hv; subst. apply mapM_res_Ret, Forall2_length in Hvs.
      simpl. by rewrite Hvs.
    + rewrite schema_union_eq in Hv. rewrite item_objects_union.
      simpl in Hfree.
      remember (List.filter is_not_None args) as fl eqn:Hfl.
      destruct (mapM_res _ fl) as [vs|] eqn:Hvs; [|done].
      apply mapM_res_Ret in Hvs. simpl in Hv.
      destruct Hvs as [|m v1 ms vs1 Hm Hrest]; [by inversion Hv|].
      destruct Hrest as [|m2 v2 ms2 vs2 Hm2 Hrest].
      * inversion Hv; subst v1. rewrite fmap_cons. simpl.
        eapply (Forall_filter_elem _ _ _ _ IH (eq_sym Hfl)); [|done].
        by eapply forallb_filter_elem.
      * by inversion Hv.
    + done.
  - simpl in Hv. by destruct aa; inversion Hv.
Qed.

Lemma first_item_objects_fresh x : forall schema ret rest,
  bare_tuple_free x = true ->
  pyannotation_to_json_schema x aa ae an = Ret schema ->
  items schema = ret :: rest ->
  first_item_objects x = seq 0 (length (items ret)).
Proof.
  induction x as [t|s|o args IH|xs _| | |] using annot_nested_ind;
    intros schema ret rest Hfree Hv Hitems; try done.
  - destruct t; simpl in Hv; try (by inversion Hv; subst).
    + inversion Hv; subst. by inversion Hitems; subst.
    + by destruct ae; inversion Hv; subst.
    + by destruct an; inversion Hv; subst.
  - by inversion Hv; subst.
  - destruct o as [| | | |q].
    + destruct args as [|a args]; [done|]. simpl in Hv, Hfree.
      apply andb_true_iff in Hfree as [Hfa _].
      destruct (pyannotation_to_json_schema a aa ae an) as [v|] eqn:Ha; [|done].
      inversion Hv; subst. inversion Hitems; subst.
      by apply item_objects_fresh.
    + simpl in Hv.
      destruct args as [|[[]| | | | | |] [|a [|? ?]]]; try done.
      destruct (pyannotation_to_json_schema a aa ae an); by inversion Hv; subst.
    + rewrite schema_tuple_eq in Hv.
      destruct (mapM_res _ args) as [vs|] eqn:Hvs; [|done].
      inversion Hv; subst. simpl in Hitems. subst vs.
      apply mapM_res_Ret in Hvs.
      inversion Hvs as [|a ? args' ? Ha _]; subst.
      simpl in Hfree. apply andb_true_iff in Hfree as [Hfa _].
      by apply item_objects_fresh.
    + rewrite schema_union_eq in Hv. rewrite first_item_objects_union.
      simpl in Hfree.
      remember (List.filter is_not_None args) as fl eqn:Hfl.
      destruct (mapM_res _ fl) as [vs|] eqn:Hvs; [|done].
      apply mapM_res_Ret in Hvs. simpl in Hv.
      destruct Hvs as [|m v1 ms vs1 Hm Hrest]; [by inversion Hv; subst|].
      destruct Hrest as [|m2 v2 ms2 vs2 Hm2 Hrest].
      * inversion Hv; subst v1. rewrite fmap_cons. simpl.
        eapply (Forall_filter_elem _ _ _ _ IH (eq_sym Hfl)); [|done..].
        by eapply forallb_filter_elem.
      * by inversion Hv; subst.
    + done.
  - simpl in Hv. by destruct aa; inversion Hv; subst.
Qed.

End ReturnVars.

Lemma name_items_seq m : forall k returns objects i,
  name_items (seq k m) returns objects !! i
  = if decide (k <= i < k + m)%nat
    then match returns !! (i - k)%nat with
         | Some (n, loc) => set_name_loc n loc <$> objects !! i
         | None => objects !! i
         end
    else objects !! i.
Proof.
  induction m as [|m IH]; intros k returns objects i.
  - simpl. destruct (decide _); [lia|done].
  - cbn [seq name_items]. destruct returns as [|[n loc] returns].
    + destruct (decide _); [|done]. by rewrite lookup_nil.
    + rewrite IH. destruct (decide (i = k)) as [->|Hne].
      * rewrite decide_False by lia. rewrite decide_True by lia.
        rewrite Nat.sub_diag. simpl. apply list_lookup_alter_eq.
      * rewrite list_lookup_alter_ne by done.
        destruct (decide (S k <= i < S k + m)%nat).
        -- rewrite decide_True by lia.
           replace (i - k)%nat with (S (i - S k)) by lia. done.
        -- by rewrite decide_False by lia.
Qed.

Lemma name_items_length ids : forall returns objects,
  length (name_items ids returns objects) = length objects.
Proof.
  induction ids as [|i ids IH]; intros [|[n loc] returns] objects; try done.
  simpl. by rewrite IH, length_alter.
Qed.

Lemma omap_lookup_seq (l : list Var) :
  omap (fun i => l !! i) (seq 0 (length l)) = l.
Proof.
  assert (H : forall pre, omap (fun i => (pre ++ l) !! i)
                            (seq (length pre) (length l)) = l).
  { induction l as [|x l IH]; intros pre; [done|].
    cbn [length seq]. cbn [omap list_omap].
    rewrite (list_lookup_middle pre l x (length pre) eq_refl).
    f_equal. specialize (IH (pre ++ [x])).
    rewrite length_app, Nat.add_1_r, <- app_assoc in IH. exact IH. }
  exact (H []).
Qed.

Lemma set_name_loc_name n loc x : name (set_name_loc n loc x) = n.
Proof. by destruct x. Qed.

Lemma set_name_loc_loc n loc x : _loc (set_name_loc n loc x) = loc.
Proof. by destruct x. Qed.

(** X27. The outputs [func_to_return_vars] returns follow [returns]: the
    j-th output is named by the j-th key of [returns] and its [_loc] is that
    key's value; there is one output per entry, unless a single entry names
    the first of several array items. This is for annotations without a bare
    tuple, whose repeated item objects would share one name. *)
Theorem return_vars_follow_returns (return_annotation : annot)
    (returns : list (string * list key)) (outs : list Var) :
  bare_tuple_free return_annotation = true ->
  func_to_return_vars return_annotation returns = inr outs ->
  (length returns = length outs \/ length returns = 1%nat)
  /\ forall j n loc,
       returns !! j = Some (n, loc) ->
       exists o, outs !! j = Some o /\ name o = n /\ _loc o = loc.
Proof.
  intros Hfree. unfold func_to_return_vars.
  destruct (pyannotation_to_json_schema return_annotation true true true)
    as [schema|] eqn:Hschema; [|done].
  destruct (returns_interface schema); [|done].
  destruct (items schema) as [|ret rest] eqn:Hitems; [done|].
  destruct (has_type "array" ret).
  - destruct (bool_decide _) eqn:Hcount; [|done].
    apply bool_decide_eq_true in Hcount.
    rewrite (first_item_objects_fresh _ _ _ _ _ _ _ Hfree Hschema Hitems).
    intros Hout.
    assert (Hgen : forall objects0,
      length objects0 = length (items ret) ->
      omap (fun i => name_items (seq 0 (length (items ret))) returns objects0 !! i)
           (seq 0 (length (items ret)))
      = name_items (seq 0 (length (items ret))) returns objects0).
    { intros objects0 Hlen.
      etrans; [|apply omap_lookup_seq].
      by rewrite name_items_length, Hlen. }
    set (m := length (items ret)) in *.
    assert (exists objects0,
      length objects0 = m
      /\ (length returns = 1%nat -> (0 < m)%nat)
      /\ outs = name_items (seq 0 m) returns objects0) as (objects0 & Hlen & Hone & ->).
    { destruct returns as [|[n loc] [|r2 returns]].
      - exists (items ret). split; [done|]. split; [done|].
        rewrite <- (Hgen (items ret) eq_refl).
        destruct (items ret); by inversion Hout.
      - destruct (items ret) as [|x xs] eqn:Hxs; [done|].
        exists (alter (set_name_loc n loc) 0%nat (x :: xs)).
        split; [by rewrite length_alter|]. split; [subst m; simpl; lia|].
        rewrite <- (Hgen _ (length_alter _ _ _)).
        by inversion Hout.
      - exists (items ret). split; [done|]. split; [simpl; lia|].
        rewrite <- (Hgen (items ret) eq_refl).
        destruct (items ret), (seq 0 m); by inversion Hout. }
    rewrite name_items_length, Hlen.
    split; [destruct Hcount; [by right|by left]|].
    intros j n loc Hj. apply lookup_lt_Some in Hj as Hlt.
    assert (j < m)%nat as Hjm by (destruct Hcount as [H1|H1]; [specialize (Hone H1)|]; lia).
    rewrite name_items_seq. rewrite decide_True by lia.
    rewrite Nat.sub_0_r, Hj.
    destruct (objects0 !! j) as [x|] eqn:Hx.
    + exists (set_name_loc n loc x). split; [done|].
      by rewrite set_name_loc_name, set_name_loc_loc.
    + apply lookup_ge_None in Hx. lia.
  - destruct returns as [|[n loc] [|r2 returns]]; try done.
    intros Hout. inversion Hout; subst. split; [by left|].
    intros [|j] n' loc' Hj; [|done]. inversion Hj; subst.
    exists (set_name_loc n' loc' ret). split; [done|].
    by rewrite set_name_loc_name, set_name_loc_loc.
Qed.

Lemma schema_pair (T U : annot) s u :
  pyannotation_to_json_schema T true true true = Ret s ->
  pyannotation_to_json_schema U true true true = Ret u ->
  pyannotation_to_json_schema (Tuple [T; U]) true true true
  = Ret (with_items [s; u] (Var_ (TName "array"))).
Proof.
  intros Hs Hu. unfold Tuple. rewrite schema_tuple_eq. simpl. by rewrite Hs, Hu.
Qed.

(** X28. The error slot of the return annotation has to be a union:
    [Tuple[T, Optional[Exception]]] passes the interface check for every [T]
    that has a schema, whatever else goes wrong afterwards, and
    [Tuple[T, Exception]] is refused with the interface ValueError. *)
Theorem error_slot_must_be_optional (T : annot) (s : Var)
    (returns : list (string * list key)) :
  pyannotation_to_json_schema T true true true = Ret s ->
  func_to_return_vars (Tuple [T; Optional (AClass TException)]) returns
    <> inl InterfaceError
  /\ func_to_return_vars (Tuple [T; AClass TException]) returns = inl InterfaceError.
Proof.
  intros Hs. split.
  - unfold func_to_return_vars.
    rewrite (schema_pair T (Optional (AClass TException)) s _ Hs eq_refl).
    simpl. destruct (has_type "array" s).
    + destruct (bool_decide _); [|done].
      by destruct returns as [|[n loc] [|r2 returns]], (items s).
    + by destruct returns as [|[n loc] [|r2 returns]].
  - unfold func_to_return_vars.
    by rewrite (schema_pair T (AClass TException) s _ Hs eq_refl).
Qed.

Lemma return_vars_follow_returns_witness :
  (bare_tuple_free sample_return = true
   /\ func_to_return_vars sample_return sample_returns
      = inr [set_name_loc "text" [KStr "choices"; KInt 0] (Var_ (TName "string"));
             set_name_loc "tokens" [KStr "usage"] (Var_ (TName "number"))])
  /\ (length sample_returns = 2%nat \/ length sample_returns = 1%nat)
  /\ forall j n loc,
       sample_returns !! j = Some (n, loc) ->
       exists o,
         [set_name_loc "text" [KStr "choices"; KInt 0] (Var_ (TName "string"));
          set_name_loc "tokens" [KStr "usage"] (Var_ (TName "number"))] !! j = Some o
         /\ name o = n /\ _loc o = loc.
Proof.
  assert (H1 : bare_tuple_free sample_return = true) by reflexivity.
  assert (H2 : func_to_return_vars sample_return sample_returns
      = inr [set_name_loc "text" [KStr "choices"; KInt 0] (Var_ (TName "string"));
             set_name_loc "tokens" [KStr "usage"] (Var_ (TName "number"))])
    by (vm_compute; reflexivity).
  split; [by split|].
  exact (return_vars_follow_returns sample_return sample_returns _ H1 H2).
Defined.

Lemma error_slot_must_be_optional_witness :
  pyannotation_to_json_schema (AClass Tstr) true true true = Ret (Var_ (TName "string"))
  /\ func_to_return_vars (Tuple [AClass Tstr; Optional (AClass TException)])
       [("text", [])] <> inl InterfaceError
  /\ func_to_return_vars (Tuple [AClass Tstr; AClass TException]) [("text", [])]
     = inl InterfaceError.
Proof.
  split; [reflexivity|].
  apply (error_slot_must_be_optional (AClass Tstr) (Var_ (TName "string"))
           [("text", [])]).
  reflexivity.
Defined.
